(** * IronBee ParserSuite: a shallow embedding of modules/parser_suite.cpp

    The grammars of the suite are written with Boost.Spirit Qi.  This file
    embeds the Qi combinators the suite uses as functions on an iterator
    (a position in the buffer together with the bytes between that position
    and the end of the parsed range), embeds each [parse_*] entry point on
    top of them, and proves properties of the entry points. *)

From Stdlib Require Import Ascii String.
From Stdlib Require Import List Bool Arith Lia.
Import ListNotations.

Set Implicit Arguments.

(* ================================================================== *)
(** ** Bytes, buffers and spans *)

Definition TAB : ascii := "009"%char.
Definition LF  : ascii := "010"%char.
Definition CR  : ascii := "013"%char.

Definition tab : string := String TAB EmptyString.
Definition lf  : string := String LF EmptyString.
Definition cr  : string := String CR EmptyString.

(** The externally owned byte sequence the spans point into. *)
Definition buffer := list ascii.

Definition buffer_of (s : string) : buffer := list_ascii_of_string s.

(** [span_t] is [boost::iterator_range<const char*>]: a begin and an end
    position.  Positions are offsets into the buffer. *)
Record span_t : Type := span { span_begin : nat; span_end : nat }.

(** A value-initialised [span_t]: both iterators null, hence empty. *)
Definition span_default : span_t := span 0 0.

(** [span_t::empty()]. *)
Definition span_empty (s : span_t) : bool := span_begin s =? span_end s.

(** The bytes a span designates. *)
Definition span_bytes (buf : buffer) (s : span_t) : list ascii :=
  firstn (span_end s - span_begin s) (skipn (span_begin s) buf).

Definition span_string (buf : buffer) (s : span_t) : string :=
  string_of_list_ascii (span_bytes buf s).

(** A span that lies inside the buffer. *)
Definition span_wf (buf : buffer) (s : span_t) : Prop :=
  span_begin s <= span_end s /\ span_end s <= length buf.

(* ================================================================== *)
(** ** The Qi combinators used by the suite *)

Module Qi.

(** An iterator: where it points, and the bytes from there to [last]. *)
Record iter : Type := mk_iter { pos : nat; rest : list ascii }.

Definition advance (it : iter) : iter :=
  mk_iter (S (pos it)) (tl (rest it)).

(** What running a parser gives.  [St] is the state the semantic actions
    write to (their by-reference captures), [A] the synthesised attribute.
    A semantic action runs as soon as its subject matches, and what it wrote
    stays written when an enclosing parser fails later: [Failed] carries the
    state.  [Undefined] is undefined behaviour inside a semantic action;
    [Diverged] is a loop whose subject matches without consuming. *)
Inductive outcome (St A : Type) : Type :=
| Matched (st : St) (a : A) (it : iter)
| Failed (st : St)
| Undefined
| Diverged.

Arguments Failed {St A} st.
Arguments Undefined {St A}.
Arguments Diverged {St A}.

Definition parser (St A : Type) : Type := St -> iter -> outcome St A.

Section Combinators.
Variable St : Type.

Definition ret {A} (a : A) : parser St A :=
  fun st it => Matched st a it.

(** Sequencing [p >> q], the attribute of [p] bound for what follows. *)
Definition bind {A B} (p : parser St A) (f : A -> parser St B)
  : parser St B :=
  fun st it =>
    match p st it with
    | Matched st' a it' => f a st' it'
    | Failed st' => Failed st'
    | Undefined => Undefined
    | Diverged => Diverged
    end.

(** [char_encoding::ascii::ischar]: only 7-bit characters are characters
    for the parsers of the [ascii] name space. *)
Definition ischar (c : ascii) : bool := nat_of_ascii c <? 128.

(** A primitive character parser with the given test. *)
Definition char_parser (test : ascii -> bool) : parser St ascii :=
  fun st it =>
    match rest it with
    | c :: _ => if test c then Matched st c (advance it) else Failed st
    | [] => Failed st
    end.

(** [ascii::char_]. *)
Definition char_ : parser St ascii := char_parser ischar.

Definition in_range (lo hi c : ascii) : bool :=
  (nat_of_ascii lo <=? nat_of_ascii c) && (nat_of_ascii c <=? nat_of_ascii hi).

(** Membership in a character set given by its definition string, where
    [a-z] is a range and a dash at either end stands for itself. *)
Fixpoint chset_from (ch : ascii) (definition : string) (c : ascii) : bool :=
  match definition with
  | EmptyString => Ascii.eqb c ch
  | String next tl =>
      if Ascii.eqb next "-" then
        match tl with
        | EmptyString => Ascii.eqb c ch || Ascii.eqb c "-"
        | String hi tl' => in_range ch hi c || chset_from hi tl' c
        end
      else Ascii.eqb c ch || chset_from next tl c
  end.

Definition chset (definition : string) (c : ascii) : bool :=
  match definition with
  | EmptyString => false
  | String ch tl => chset_from ch tl c
  end.

(** [ascii::char_("...")]: a character set. *)
Definition char_set (definition : string) : parser St ascii :=
  char_parser (fun c => ischar c && chset definition c).

(** [ascii::char_(ch)]: one given character. *)
Definition char_lit (ch : ascii) : parser St ascii :=
  char_parser (fun c => ischar c && Ascii.eqb c ch).

(** [lit(ch)] for a [char]: the byte itself, nothing synthesised. *)
Definition lit_char (ch : ascii) : parser St unit :=
  bind (char_parser (fun c => Ascii.eqb c ch)) (fun _ => ret tt).

(** [lit("...")]: the bytes of the literal, one after the other. *)
Fixpoint lit (s : string) : parser St unit :=
  match s with
  | EmptyString => ret tt
  | String ch s' => bind (lit_char ch) (fun _ => lit s')
  end.

(** [eol]: CR, LF or CR LF. *)
Definition eol : parser St unit :=
  fun st it =>
    let '(matched1, it1) :=
      match rest it with
      | c :: _ => if Ascii.eqb c CR then (true, advance it) else (false, it)
      | [] => (false, it)
      end in
    let '(matched2, it2) :=
      match rest it1 with
      | c :: _ => if Ascii.eqb c LF then (true, advance it1) else (matched1, it1)
      | [] => (matched1, it1)
      end in
    if matched2 then Matched st tt it2 else Failed st.

(** [eoi]: the end of the input. *)
Definition eoi : parser St unit :=
  fun st it =>
    match rest it with
    | [] => Matched st tt it
    | _ :: _ => Failed st
    end.

(** [p | q]: [q] is tried from where [p] started, with whatever the
    actions of [p] left in the state. *)
Definition alt {A} (p q : parser St A) : parser St A :=
  fun st it =>
    match p st it with
    | Failed st' => q st' it
    | r => r
    end.

(** [-p]. *)
Definition optional {A} (p : parser St A) : parser St (option A) :=
  fun st it =>
    match p st it with
    | Matched st' a it' => Matched st' (Some a) it'
    | Failed st' => Matched st' None it
    | Undefined => Undefined
    | Diverged => Diverged
    end.

(** The loop of [*p].  Qi loops for as long as the subject matches; a
    subject that matches without consuming makes it loop for ever. *)
Fixpoint kleene_loop {A} (fuel : nat) (p : parser St A)
  : parser St (list A) :=
  fun st it =>
    match fuel with
    | 0 => Diverged
    | S fuel' =>
        match p st it with
        | Matched st' a it' =>
            if length (rest it') <? length (rest it) then
              match kleene_loop fuel' p st' it' with
              | Matched st'' l it'' => Matched st'' (a :: l) it''
              | r => r
              end
            else Diverged
        | Failed st' => Matched st' [] it
        | Undefined => Undefined
        | Diverged => Diverged
        end
    end.

(** [*p]. *)
Definition kleene {A} (p : parser St A) : parser St (list A) :=
  fun st it => kleene_loop (S (length (rest it))) p st it.

(** [+p]. *)
Definition plus {A} (p : parser St A) : parser St (list A) :=
  bind p (fun a => bind (kleene p) (fun l => ret (a :: l))).

(** [a - b]: [b] is tried first and must not match. *)
Definition difference {A B} (a : parser St A) (b : parser St B)
  : parser St A :=
  fun st it =>
    match b st it with
    | Matched st' _ _ => Failed st'
    | Failed st' => a st' it
    | Undefined => Undefined
    | Diverged => Diverged
    end.

(** [&p]: [p] must match, nothing is consumed. *)
Definition and_predicate {A} (p : parser St A) : parser St unit :=
  fun st it =>
    match p st it with
    | Matched st' _ _ => Matched st' tt it
    | Failed st' => Failed st'
    | Undefined => Undefined
    | Diverged => Diverged
    end.

(** [raw[p]]: the span [p] matched. *)
Definition raw {A} (p : parser St A) : parser St span_t :=
  fun st it =>
    match p st it with
    | Matched st' _ it' => Matched st' (span (pos it) (pos it')) it'
    | Failed st' => Failed st'
    | Undefined => Undefined
    | Diverged => Diverged
    end.

(** [omit[p]]. *)
Definition omit {A} (p : parser St A) : parser St unit :=
  bind p (fun _ => ret tt).

(** [p[f]]: the action [f] runs when [p] has matched.  It gives [None]
    when what it does is undefined. *)
Definition action {A} (p : parser St A) (f : A -> St -> option St)
  : parser St A :=
  fun st it =>
    match p st it with
    | Matched st' a it' =>
        match f a st' with
        | Some st'' => Matched st'' a it'
        | None => Undefined
        end
    | r => r
    end.

(** [qi::parse(begin, end, grammar)] over the bytes of [buf]. *)
Definition parse {A} (buf : buffer) (first last : nat)
    (grammar : parser St A) (st : St) : outcome St A :=
  grammar st (mk_iter first (span_bytes buf (span first last))).

End Combinators.

Arguments ret {St A} a.
Arguments char_ {St}.
Arguments char_set {St} definition.
Arguments char_lit {St} ch.
Arguments lit_char {St} ch.
Arguments lit {St} s.
Arguments eol {St}.
Arguments eoi {St}.

End Qi.

Import Qi.

Declare Scope qi_scope.
Delimit Scope qi_scope with qi.
Notation "x <- p ;; q" := (bind p (fun x => q))
  (at level 61, p at next level, right associativity) : qi_scope.
Notation "p >> q" := (bind p (fun _ => q))
  (at level 61, right associativity) : qi_scope.
Notation "p <|> q" := (alt p q)
  (at level 62, right associativity) : qi_scope.
Open Scope qi_scope.

(* ================================================================== *)
(** ** Result structures

    The structures are declared in parser_suite.hpp; their fields are the
    ones parser_suite.cpp adapts for Fusion, assigns and prints. *)

(** [parse_headers_result_t::header_t]. *)
Module Header.
Record header_t : Type := mk { key : span_t; value : list span_t }.
End Header.

Module Headers.
Record parse_headers_result_t : Type :=
  mk { headers : list Header.header_t; terminated : bool }.
End Headers.

Module RequestLine.
Record parse_request_line_result_t : Type :=
  mk { method : span_t; uri : span_t; version : span_t }.
End RequestLine.

Module ResponseLine.
Record parse_response_line_result_t : Type :=
  mk { version : span_t; status : span_t; message : span_t }.
End ResponseLine.

Module Uri.
Record parse_uri_result_t : Type :=
  mk { scheme : span_t; authority : span_t; path : span_t;
       query : span_t; fragment : span_t }.
End Uri.

Module Authority.
Record parse_authority_result_t : Type :=
  mk { username : span_t; password : span_t; host : span_t; port : span_t }.
End Authority.

Module Path.
Record parse_path_result_t : Type :=
  mk { directory : span_t; file : span_t; base : span_t; extension : span_t;
       directory_separator : ascii; extension_separator : ascii }.
End Path.

Module Request.
Record parse_request_result_t : Type :=
  mk { raw_request_line : span_t;
       request_line : RequestLine.parse_request_line_result_t;
       uri : Uri.parse_uri_result_t;
       headers : Headers.parse_headers_result_t }.
End Request.

Module Response.
Record parse_response_result_t : Type :=
  mk { raw_response_line : span_t;
       response_line : ResponseLine.parse_response_line_result_t;
       headers : Headers.parse_headers_result_t }.
End Response.

Import Header Headers.

(* ================================================================== *)
(** ** Calls, exceptions and the input cursor *)

(** The [error] exception with its [errinfo_what] and [errinfo_location]. *)
Record error : Type :=
  mk_error { errinfo_what : string; errinfo_location : option nat }.

(** How a call ends: it returns, it throws [error], it runs into undefined
    behaviour, or it does not return. *)
Inductive result (A : Type) : Type :=
| Returned (a : A)
| Thrown (e : error)
| UndefinedBehaviour
| NoReturn.

Arguments Thrown {A} e.
Arguments UndefinedBehaviour {A}.
Arguments NoReturn {A}.

(** Every entry point takes [span_t& input]: a call gives how it ended
    together with the value the caller's [input] has afterwards. *)
Definition call (A : Type) : Type := (result A * span_t)%type.

Definition incomplete (name : string) (location : nat) : error :=
  mk_error ("Incomplete " ++ name ++ ".")%string (Some location).

(** [parse_direct]: the grammar synthesises the result. *)
Definition parse_direct {Result : Type} (name : string) (buf : buffer)
    (input : span_t) (grammar : parser unit Result) : call Result :=
  let begin := span_begin input in
  let end_ := span_end input in
  match Qi.parse buf begin end_ grammar tt with
  | Matched _ R it => (Returned R, span (pos it) end_)
  | Failed _ => (Thrown (incomplete name begin), input)
  | Undefined => (UndefinedBehaviour, input)
  | Diverged => (NoReturn, input)
  end.

(** [parse_indirect]: the semantic actions of the grammar write to [R],
    which the caller holds; the call gives [R] as the actions left it. *)
Definition parse_indirect {St A : Type} (name : string) (buf : buffer)
    (input : span_t) (grammar : parser St A) (R : St) : call St :=
  let begin := span_begin input in
  let end_ := span_end input in
  match Qi.parse buf begin end_ grammar R with
  | Matched R' _ it => (Returned R', span (pos it) end_)
  | Failed _ => (Thrown (incomplete name begin), input)
  | Undefined => (UndefinedBehaviour, input)
  | Diverged => (NoReturn, input)
  end.

(** Parser matching horizontal whitespace only. *)
Definition sp {St : Type} : parser St ascii := char_set (" " ++ tab)%string.

(* ================================================================== *)
(** ** parse_headers *)

Module ParseHeaders.

(** Modelled from the spec: parser_suite.hpp, where
    [parse_headers_result_t] and its constructor are declared, is not
    among the sources.  A fresh result has no header and
    [terminated = false]: the flag is true iff a blank-line terminator
    was consumed. *)
Definition R0 : parse_headers_result_t := Headers.mk [] false.

(** [R.headers.back().value.push_back(value)] on the list of headers;
    [back()] of an empty container is undefined. *)
Fixpoint back_push_back (hs : list header_t) (v : span_t)
  : option (list header_t) :=
  match hs with
  | [] => None
  | [h] => Some [Header.mk (key h) (value h ++ [v])]
  | h :: tl =>
      match back_push_back tl v with
      | Some tl' => Some (h :: tl')
      | None => None
      end
  end.

Definition push_value (v : span_t) (R : parse_headers_result_t)
  : option parse_headers_result_t :=
  match back_push_back (headers R) v with
  | Some hs => Some (Headers.mk hs (terminated R))
  | None => None
  end.

Definition new_header (k : span_t) (R : parse_headers_result_t)
  : option parse_headers_result_t :=
  Some (Headers.mk (headers R ++ [Header.mk k []]) (terminated R)).

Definition set_terminated (_ : unit) (R : parse_headers_result_t)
  : option parse_headers_result_t :=
  Some (Headers.mk (headers R) true).

Definition St := parse_headers_result_t.

Definition value : parser St span_t :=
  raw (plus (difference char_ (char_set (cr ++ lf)%string))).

Definition key : parser St span_t :=
  k <- raw (kleene (difference char_
              (char_set (" " ++ tab ++ ":" ++ cr ++ lf)%string))) ;;
  omit (lit ":") >> ret k.

Definition keyed_line : parser St unit :=
  action key new_header
  >> kleene sp
  >> action value push_value
  >> (eol <|> eoi).

Definition continuation_line : parser St unit :=
  plus (char_set (" " ++ tab)%string)
  >> action value push_value
  >> (eol <|> eoi).

Definition header : parser St unit := keyed_line <|> continuation_line.

Definition terminator : parser St unit := kleene sp >> eol.

(** The grammar of one call, its actions bound to the [R] of that call.
    In the source [grammar] is [static]: it is built by the first call and
    keeps the actions of that call, so this is what the first call runs. *)
Definition grammar : parser St unit :=
  plus header
  >> optional (action terminator set_terminated)
  >> ret tt.

End ParseHeaders.

Definition parse_headers (buf : buffer) (input : span_t)
  : call parse_headers_result_t :=
  parse_indirect "headers" buf input ParseHeaders.grammar ParseHeaders.R0.

(** The attribute of [-word] assigned to a span: the span when the word
    matched, otherwise the span stays value-initialised. *)
Definition span_of (o : option span_t) : span_t :=
  match o with
  | Some s => s
  | None => span_default
  end.

(* ================================================================== *)
(** ** parse_request_line and parse_response_line *)

Module ParseLine.

Definition word : parser unit span_t :=
  raw (plus (difference char_ (char_set (" " ++ tab ++ cr ++ lf)%string))).

Definition request_line
  : parser unit RequestLine.parse_request_line_result_t :=
  omit (kleene sp) >>
  method <- word ;;
  omit (kleene sp) >>
  uri <- word ;;
  omit (kleene sp) >>
  version <- optional word ;;
  omit (eol <|> eoi) >>
  ret (RequestLine.mk method uri (span_of version)).

Definition response_line
  : parser unit ResponseLine.parse_response_line_result_t :=
  omit (kleene sp) >>
  version <- word ;;
  omit (kleene sp) >>
  status <- word ;;
  omit (kleene sp) >>
  message <- raw (kleene (difference char_ (char_set (cr ++ lf)%string))) ;;
  omit (eol <|> eoi) >>
  ret (ResponseLine.mk version status message).

End ParseLine.

Definition parse_request_line (buf : buffer) (input : span_t)
  : call RequestLine.parse_request_line_result_t :=
  parse_direct "request line" buf input ParseLine.request_line.

Definition parse_response_line (buf : buffer) (input : span_t)
  : call ResponseLine.parse_response_line_result_t :=
  parse_direct "response line" buf input ParseLine.response_line.

(* ================================================================== *)
(** ** parse_uri *)

Module ParseUri.

(** The run of scheme bytes: [raw[+char_("-A-Za-z0-9+.")]]. *)
Definition scheme_run : parser unit span_t :=
  raw (plus (char_set "-A-Za-z0-9+.")).

(** [-(raw[+char_("-A-Za-z0-9+.")] >> omit[char_(":")])], parsed into
    [R.scheme].  The field is an [iterator_range], which Qi takes for a
    container: the optional and the sequence hand the field itself down,
    and [raw] assigns the span of the run to it as soon as the run matches.
    When no colon follows, the sequence fails and the optional matches
    without consuming anything, but the assignment is not undone: the field
    keeps the span of the run. *)
Definition scheme : parser unit (option span_t) :=
  fun st it =>
    match scheme_run st it with
    | Matched st1 s it1 =>
        match omit (char_set ":") st1 it1 with
        | Matched st2 _ it2 => Matched st2 (Some s) it2
        | Failed st2 => Matched st2 (Some s) it
        | Undefined => Undefined
        | Diverged => Diverged
        end
    | Failed st1 => Matched st1 None it
    | Undefined => Undefined
    | Diverged => Diverged
    end.

Definition authority : parser unit span_t :=
  omit (lit "//") >>
  raw (kleene (difference char_
         (char_set (" " ++ tab ++ "/?#" ++ cr ++ lf)%string))).

Definition path : parser unit span_t :=
  raw (kleene (difference char_
         (char_set (" " ++ tab ++ "?#" ++ cr ++ lf)%string))).

Definition query : parser unit span_t :=
  omit (char_set "?") >>
  raw (kleene (difference char_ (char_set ("  #" ++ cr ++ lf)%string))).

Definition fragment : parser unit span_t :=
  omit (char_set "#") >>
  raw (kleene (difference char_ (char_set ("  " ++ cr ++ lf)%string))).

Definition grammar : parser unit Uri.parse_uri_result_t :=
  s <- scheme ;;
  a <- optional authority ;;
  p <- optional path ;;
  q <- optional query ;;
  f <- optional fragment ;;
  omit (eol <|> eoi) >>
  ret (Uri.mk (span_of s) (span_of a) (span_of p) (span_of q) (span_of f)).

End ParseUri.

Definition parse_uri (buf : buffer) (input : span_t)
  : call Uri.parse_uri_result_t :=
  let begin := span_begin input in
  let end_ := span_end input in
  match Qi.parse buf begin end_ ParseUri.grammar tt with
  | Matched _ R it => (Returned R, span (pos it) end_)
  | Failed _ => (Thrown (mk_error "Incomplete URI." (Some begin)), input)
  | Undefined => (UndefinedBehaviour, input)
  | Diverged => (NoReturn, input)
  end.

(* ================================================================== *)
(** ** parse_request and parse_response *)

Definition parse_request (buf : buffer) (input : span_t)
  : call Request.parse_request_result_t :=
  let begin := span_begin input in
  match parse_request_line buf input with
  | (Returned request_line, input1) =>
      let raw_request_line := span begin (span_begin input1 - 1) in
      let uri := RequestLine.uri request_line in
      match parse_uri buf uri with
      | (Returned R_uri, uri') =>
          if negb (span_empty uri') then
            (Thrown (mk_error "URI not fully parsed." None), input1)
          else
            match parse_headers buf input1 with
            | (Returned headers, input2) =>
                (Returned (Request.mk raw_request_line request_line
                             R_uri headers), input2)
            | (Thrown e, input2) => (Thrown e, input2)
            | (UndefinedBehaviour, input2) => (UndefinedBehaviour, input2)
            | (NoReturn, input2) => (NoReturn, input2)
            end
      | (Thrown e, _) => (Thrown e, input1)
      | (UndefinedBehaviour, _) => (UndefinedBehaviour, input1)
      | (NoReturn, _) => (NoReturn, input1)
      end
  | (Thrown e, input1) => (Thrown e, input1)
  | (UndefinedBehaviour, input1) => (UndefinedBehaviour, input1)
  | (NoReturn, input1) => (NoReturn, input1)
  end.

Definition parse_response (buf : buffer) (input : span_t)
  : call Response.parse_response_result_t :=
  let begin := span_begin input in
  match parse_response_line buf input with
  | (Returned response_line, input1) =>
      let raw_response_line := span begin (span_begin input1 - 1) in
      match parse_headers buf input1 with
      | (Returned headers, input2) =>
          (Returned (Response.mk raw_response_line response_line headers),
           input2)
      | (Thrown e, input2) => (Thrown e, input2)
      | (UndefinedBehaviour, input2) => (UndefinedBehaviour, input2)
      | (NoReturn, input2) => (NoReturn, input2)
      end
  | (Thrown e, input1) => (Thrown e, input1)
  | (UndefinedBehaviour, input1) => (UndefinedBehaviour, input1)
  | (NoReturn, input1) => (NoReturn, input1)
  end.

(* ================================================================== *)
(** ** parse_authority *)

Module ParseAuthority.

Import Authority.

Definition St := parse_authority_result_t.

(** [parse_authority_result_t()]: every span value-initialised. *)
Definition R0 : St :=
  Authority.mk span_default span_default span_default span_default.

Definition word : parser St span_t :=
  raw (kleene (difference char_
         (char_set ("@: " ++ tab ++ cr ++ lf)%string))).

Definition set_username (s : span_t) (R : St) : option St :=
  Some (Authority.mk s (password R) (host R) (port R)).

Definition set_password (s : span_t) (R : St) : option St :=
  Some (Authority.mk (username R) s (host R) (port R)).

Definition set_host (s : span_t) (R : St) : option St :=
  Some (Authority.mk (username R) (password R) s (port R)).

Definition set_port (s : span_t) (R : St) : option St :=
  Some (Authority.mk (username R) (password R) (host R) s).

Definition only_host (s : span_t) (R : St) : option St :=
  set_host s R0.

(** The first alternative: [user:password@host]. *)
Definition userinfo_branch : parser St unit :=
  optional (action word set_username)
  >> optional (omit (lit ":") >> action word set_password)
  >> omit (lit "@") >> action word set_host
  >> ret tt.

(** The second alternative: a host alone. *)
Definition host_branch : parser St unit :=
  action word only_host >> ret tt.

Definition grammar : parser St unit :=
  (userinfo_branch <|> host_branch)
  >> optional (omit (lit ":") >> action word set_port)
  >> ret tt.

End ParseAuthority.

Definition parse_authority (buf : buffer) (input : span_t)
  : call Authority.parse_authority_result_t :=
  parse_indirect "authority" buf input
    ParseAuthority.grammar ParseAuthority.R0.

(* ================================================================== *)
(** ** parse_path *)

Module ParsePath.

Section Separators.
Variable directory_separator : ascii.
Variable extension_separator : ascii.

(** parse a directory separator *)
Definition dirsep : parser unit unit := lit_char directory_separator.
(** parse a string not containing a directory_separator *)
Definition dirstr : parser unit (list ascii) :=
  kleene (difference char_ (char_lit directory_separator)).
(** parse a extension separator *)
Definition extsep : parser unit unit := lit_char extension_separator.
(** parse a string not containing a extension_separator *)
Definition extstr : parser unit (list ascii) :=
  kleene (difference char_ (char_lit extension_separator)).

Definition grammar : parser unit (span_t * span_t * span_t) :=
  (* directory *)
  directory <- raw (kleene (optional dirsep >> dirstr >> and_predicate dirsep)) ;;
  (* final / *)
  optional (omit dirsep) >>
  (* base *)
  base <- raw (extstr >> kleene (extsep >> extstr >> and_predicate extsep)) ;;
  (* extension *)
  extension <- optional (omit extsep >> raw (kleene char_)) ;;
  ret (directory, base, span_of extension).

End Separators.

End ParsePath.

Definition parse_path (buf : buffer) (input : span_t)
    (directory_separator extension_separator : ascii)
  : call Path.parse_path_result_t :=
  match parse_direct "path" buf input
          (ParsePath.grammar directory_separator extension_separator) with
  | (Returned (directory, base, extension), input') =>
      let file :=
        if span_empty extension then base
        else span (span_begin base) (span_end extension) in
      (Returned (Path.mk directory file base extension
                   directory_separator extension_separator), input')
  | (Thrown e, input') => (Thrown e, input')
  | (UndefinedBehaviour, input') => (UndefinedBehaviour, input')
  | (NoReturn, input') => (NoReturn, input')
  end.

(** The whole of a buffer as the input span. *)
Definition whole (buf : buffer) : span_t := span 0 (length buf).

(* ================================================================== *)
(** ** Notions the statements use *)

(** [it'] is [it] moved forward over [consumed]. *)
Definition iter_le (it it' : iter) : Prop :=
  exists consumed,
    rest it = consumed ++ rest it' /\ pos it' = pos it + length consumed.

(** A parser that, when it matches, leaves the iterator at or after where
    it started. *)
Definition advancing {St A : Type} (p : parser St A) : Prop :=
  forall st it st' a it', p st it = Matched st' a it' -> iter_le it it'.

(** A parser that consumes at least one byte when it matches. *)
Definition consuming {St A : Type} (p : parser St A) : Prop :=
  forall st it st' a it',
    p st it = Matched st' a it' -> iter_le it it' /\ pos it < pos it'.

(** A parser that either matches or fails: no undefined behaviour and no
    endless loop. *)
Definition defined {St A : Type} (p : parser St A) : Prop :=
  forall st it, p st it <> Undefined /\ p st it <> Diverged.

(** A parser that always matches. *)
Definition total {St A : Type} (p : parser St A) : Prop :=
  forall st it, exists st' a it', p st it = Matched st' a it'.

(** A parser whose match or failure leaves the state of the semantic
    actions as it found it. *)
Definition stateless {St A : Type} (p : parser St A) : Prop :=
  forall st it,
    match p st it with
    | Matched st' _ _ => st' = st
    | Failed st' => st' = st
    | Undefined | Diverged => True
    end.

(** A parser whose semantic actions leave the part [f] of the state as it
    was, whether it matches or fails. *)
Definition keeps {St A X : Type} (f : St -> X) (p : parser St A) : Prop :=
  forall st it,
    match p st it with
    | Matched st' _ _ => f st' = f st
    | Failed st' => f st' = f st
    | Undefined | Diverged => True
    end.

(** From a state in [P], a match of [p] leaves a state in [Q] and a failure
    of [p] leaves a state in [Qf]. *)
Definition triple {St A : Type} (P : St -> Prop) (p : parser St A)
    (Q Qf : St -> Prop) : Prop :=
  forall st it,
    P st ->
    match p st it with
    | Matched st' _ _ => Q st'
    | Failed st' => Qf st'
    | Undefined | Diverged => True
    end.

(** A semantic action that is always defined. *)
Definition safe_action {St A : Type} (f : A -> St -> option St) : Prop :=
  forall a st, f a st <> None.

Definition matches {St A : Type} (o : outcome St A) : bool :=
  match o with
  | Matched _ _ _ => true
  | _ => false
  end.

(** The region of the buffer between two values of the input cursor. *)
Definition consumed_region (before after : span_t) : span_t :=
  span (span_begin before) (span_begin after).

Definition is_prefix (l whole : list ascii) : Prop :=
  exists tail, l ++ tail = whole.

(** What a header block holds, as text: each key with its values. *)
Definition header_text (buf : buffer) (h : header_t)
  : string * list string :=
  (span_string buf (key h), map (span_string buf) (value h)).

Definition headers_text (buf : buffer) (R : parse_headers_result_t)
  : list (string * list string) :=
  map (header_text buf) (headers R).

(** Every entry has a value. *)
Definition valued (R : parse_headers_result_t) : Prop :=
  forall h, In h (headers R) -> value h <> [].

(** Every entry but the last one has a value. *)
Definition valued_but_last (R : parse_headers_result_t) : Prop :=
  forall h, In h (removelast (headers R)) -> value h <> [].

(** The raw first line, the bytes between its end and the header block, and
    the region the header block consumed make up what the composite
    consumed, which starts the input.  The bytes in between are there (the
    raw line never reaches the header block), they are line terminator bytes
    only, and with the raw line they are what the line parse consumed. *)
Definition reassembles (buf : buffer) (input raw_line input1 input' : span_t)
  : Prop :=
  exists gap,
    gap <> []
    /\ Forall (fun c => c = CR \/ c = LF) gap
    /\ span_bytes buf raw_line ++ gap
       = span_bytes buf (consumed_region input input1)
    /\ span_bytes buf raw_line ++ gap
       ++ span_bytes buf (consumed_region input1 input')
       = span_bytes buf (consumed_region input input')
    /\ is_prefix (span_bytes buf (consumed_region input input'))
         (span_bytes buf input).

(* ------------------------------------------------------------------ *)
(** *** Inputs of the examples *)

Definition folded_headers : buffer :=
  buffer_of ("A: 1" ++ cr ++ lf ++ " B: 2" ++ cr ++ lf ++ cr ++ lf)%string.

Definition valueless_second_header : buffer :=
  buffer_of ("A: 1" ++ cr ++ lf ++ "B:" ++ cr ++ lf)%string.

Definition leading_continuation : buffer :=
  buffer_of (" foo" ++ cr ++ lf)%string.

Definition archive_path : buffer := buffer_of "/a/b/archive.tar.gz".

Definition crlf_request : buffer :=
  buffer_of ("GET / HTTP/1.1" ++ cr ++ lf ++ "A: 1" ++ cr ++ lf)%string.

Definition crlf_response : buffer :=
  buffer_of ("HTTP/1.1 200 OK" ++ cr ++ lf ++ "A: 1" ++ cr ++ lf)%string.

Definition lf_request : buffer :=
  buffer_of ("GET / HTTP/1.1" ++ lf ++ "A: 1" ++ lf)%string.

Definition full_authority : buffer := buffer_of "user:pass@host:80".


Definition two_colons_authority : buffer := buffer_of "a:b:c@host".

Definition password_only_authority : buffer := buffer_of ":pass@host".

Definition one_word_line : buffer := buffer_of "GET".

Definition spaced_uri : buffer := buffer_of "a b".

(* ------------------------------------------------------------------ *)
(** *** Runs of bytes *)

(** The longest prefix of [l] whose bytes pass [test], and what follows. *)
Fixpoint take_while (test : ascii -> bool) (l : list ascii) : list ascii :=
  match l with
  | c :: tl => if test c then c :: take_while test tl else []
  | [] => []
  end.

Fixpoint drop_while (test : ascii -> bool) (l : list ascii) : list ascii :=
  match l with
  | c :: tl => if test c then drop_while test tl else l
  | [] => []
  end.

(** The iterator moved over the longest run of bytes that pass [test]. *)
Definition skip (test : ascii -> bool) (it : iter) : iter :=
  mk_iter (pos it + length (take_while test (rest it)))
          (drop_while test (rest it)).

(** [l] is empty or starts with a byte that does not pass [test]. *)
Definition stops_at (test : ascii -> bool) (l : list ascii) : Prop :=
  match l with
  | c :: _ => test c = false
  | [] => True
  end.

(** A parser that does what the character parser with [test] does. *)
Definition char_like {St : Type} (test : ascii -> bool) (p : parser St ascii)
  : Prop :=
  forall st it, p st it = char_parser test st it.

(** The bytes [char_ - char_(set)] matches. *)
Definition outside (set : string) (c : ascii) : bool :=
  ischar c && negb (chset set c).

(** The bytes [char_(set)] matches. *)
Definition inside (set : string) (c : ascii) : bool :=
  ischar c && chset set c.

(** An iterator of a parse of [buf] that ends at [last]: it points into
    the buffer and the bytes it has left are those of the buffer. *)
Definition iter_in (buf : buffer) (last : nat) (it : iter) : Prop :=
  pos it <= last /\ last <= length buf
  /\ rest it = span_bytes buf (span (pos it) last).

(** Horizontal whitespace: what [sp] matches. *)
Definition blank : ascii -> bool := inside (" " ++ tab)%string.

(** The bytes of a [word] of the line grammars. *)
Definition word_byte : ascii -> bool :=
  outside (" " ++ tab ++ cr ++ lf)%string.

(** The bytes of a header value and of a response message. *)
Definition line_byte : ascii -> bool := outside (cr ++ lf)%string.

(** The bytes of a header key. *)
Definition key_byte : ascii -> bool :=
  outside (" " ++ tab ++ ":" ++ cr ++ lf)%string.

(** The bytes of a [word] of the authority grammar. *)
Definition authority_byte : ascii -> bool :=
  outside ("@: " ++ tab ++ cr ++ lf)%string.

(** Every byte of the span passes [test]. *)
Definition all_bytes (test : ascii -> bool) (buf : buffer) (s : span_t)
  : Prop :=
  Forall (fun c => test c = true) (span_bytes buf s).

(** The sets the path, the query and the fragment of a URI stop at. *)
Definition uri_path_set : string := (" " ++ tab ++ "?#" ++ cr ++ lf)%string.
Definition uri_query_set : string := ("  #" ++ cr ++ lf)%string.
Definition uri_fragment_set : string := ("  " ++ cr ++ lf)%string.

(* ------------------------------------------------------------------ *)
(** *** Further inputs of the examples *)

Definition plain_uri : buffer := buffer_of "http://host/x?y#z".

Definition plain_uri_line : buffer :=
  buffer_of ("http://host/x?y#z" ++ cr ++ lf)%string.

Definition authority_then_space : buffer := buffer_of "user:pass@host:80 x".

Definition request_without_headers : buffer :=
  buffer_of ("GET / HTTP/1.1" ++ lf)%string.

Definition response_without_headers : buffer :=
  buffer_of ("HTTP/1.1 200 OK" ++ lf)%string.

(** The input after a call, against the input before it: the same end, and
    a start moved forward, by at least [least] bytes, within the input. *)
Definition moved_forward (least : nat) (input input' : span_t) : Prop :=
  span_end input' = span_end input
  /\ span_begin input + least <= span_begin input'
  /\ span_begin input' <= span_end input.

(** The bytes an authority was parsed from, as its fields give them: the
    host alone, or [username@host], or [username:password@host], each
    followed or not by [:port].  Fields that were not matched are
    value-initialised. *)
Definition authority_shape (buf : buffer)
    (R : Authority.parse_authority_result_t) (consumed : list ascii) : Prop :=
  exists userinfo port_part,
    consumed = userinfo ++ span_bytes buf (Authority.host R) ++ port_part
    /\ (userinfo = []
        /\ Authority.username R = span_default
        /\ Authority.password R = span_default
        \/ userinfo = span_bytes buf (Authority.username R) ++ ["@"%char]
           /\ Authority.password R = span_default
        \/ userinfo = span_bytes buf (Authority.username R) ++ [":"%char]
                      ++ span_bytes buf (Authority.password R) ++ ["@"%char])
    /\ (port_part = [] /\ Authority.port R = span_default
        \/ port_part = ":"%char :: span_bytes buf (Authority.port R)).

(** The bytes a path was parsed from, as its fields give them: the
    directory, one directory separator or none, the base, and the extension
    after one extension separator when there is one. *)
Definition path_shape (buf : buffer) (R : Path.parse_path_result_t)
    (consumed : list ascii) : Prop :=
  exists separator extension_part,
    consumed = span_bytes buf (Path.directory R) ++ separator
               ++ span_bytes buf (Path.base R) ++ extension_part
    /\ (separator = [] \/ separator = [Path.directory_separator R])
    /\ (extension_part = [] /\ Path.extension R = span_default
        \/ extension_part = Path.extension_separator R
                            :: span_bytes buf (Path.extension R))
    /\ span_bytes buf (Path.file R)
       = span_bytes buf (Path.base R)
         ++ (if span_empty (Path.extension R) then [] else extension_part).

(** From a state in [P] and an iterator in the buffer, a match of [p]
    leaves a state in [Q], an attribute in [Qa] and an iterator in the
    buffer; a failure of [p] leaves a state in [Qf]. *)
Definition hoare_in {St A : Type} (buf : buffer) (last : nat)
    (P : St -> Prop) (p : parser St A)
    (Qa : A -> Prop) (Q Qf : St -> Prop) : Prop :=
  forall st it,
    P st -> iter_in buf last it ->
    match p st it with
    | Matched st' a it' => Q st' /\ Qa a /\ iter_in buf last it'
    | Failed st' => Qf st'
    | Undefined | Diverged => True
    end.

(** A header key in the buffer: no space, tab, colon, CR or LF in it, and a
    colon right after it. *)
Definition key_ok (buf : buffer) (k : span_t) : Prop :=
  all_bytes key_byte buf k /\ nth_error buf (span_end k) = Some ":"%char.

(** A header value in the buffer: not empty, and no CR or LF in it. *)
Definition value_ok (buf : buffer) (v : span_t) : Prop :=
  span_begin v < span_end v /\ all_bytes line_byte buf v.

Definition entry_ok (buf : buffer) (h : header_t) : Prop :=
  key_ok buf (key h) /\ Forall (value_ok buf) (value h).

Definition entries_ok (buf : buffer) (R : parse_headers_result_t) : Prop :=
  Forall (entry_ok buf) (headers R).

(** The attribute is not looked at. *)
Definition any {A : Type} (_ : A) : Prop := True.

(** The iterator is at the end of the input or right after a CR or a LF. *)
Definition at_line_start (buf : buffer) (p : nat) (remaining : list ascii)
  : Prop :=
  remaining = []
  \/ exists c, 0 < p /\ nth_error buf (p - 1) = Some c /\ (c = CR \/ c = LF).

(** The byte sequences [eol] matches. *)
Definition is_eol (l : list ascii) : Prop :=
  l = [CR] \/ l = [LF] \/ l = [CR; LF].

(** The sets of the scheme and of the authority of a URI. *)
Definition uri_scheme_set : string := "-A-Za-z0-9+.".
Definition uri_authority_set : string :=
  (" " ++ tab ++ "/?#" ++ cr ++ lf)%string.

(** The bytes a URI was parsed from, as its fields give them: the scheme
    and a colon when a scheme matched, two slashes and the authority when
    they are there, the path, a question mark and the query, a hash and the
    fragment, and the line end when there is one. *)
Definition uri_shape (buf : buffer) (R : Uri.parse_uri_result_t)
    (consumed : list ascii) : Prop :=
  exists scheme_part authority_part query_part fragment_part terminator,
    consumed = scheme_part ++ authority_part ++ span_bytes buf (Uri.path R)
               ++ query_part ++ fragment_part ++ terminator
    /\ (scheme_part = []
        \/ scheme_part = span_bytes buf (Uri.scheme R) ++ [":"%char])
    /\ (authority_part = [] /\ Uri.authority R = span_default
        \/ authority_part
           = "/"%char :: "/"%char :: span_bytes buf (Uri.authority R))
    /\ (query_part = [] /\ Uri.query R = span_default
        \/ query_part = "?"%char :: span_bytes buf (Uri.query R))
    /\ (fragment_part = [] /\ Uri.fragment R = span_default
        \/ fragment_part = "#"%char :: span_bytes buf (Uri.fragment R))
    /\ (terminator = [] \/ is_eol terminator).

(* ================================================================== *)
(** ** Rendering: the [operator<<] of the result structures *)

(** An output stream, as the bytes written to it so far. *)
Definition ostream := list ascii.

(** [o << "text"]. *)
Definition put_string (o : ostream) (s : string) : ostream :=
  o ++ list_ascii_of_string s.

(** [o << span]: the bytes of the span. *)
Definition put_span (buf : buffer) (o : ostream) (s : span_t) : ostream :=
  o ++ span_bytes buf s.

(** [o << endl]. *)
Definition endl (o : ostream) : ostream := o ++ [LF].

(** The inner loop of the header block: the values, a space before each
    but the first. *)
Fixpoint put_values (buf : buffer) (o : ostream) (first : bool)
    (values : list span_t) : ostream :=
  match values with
  | [] => o
  | v :: tl =>
      let o := if negb first then put_string o " " else o in
      put_values buf (put_span buf o v) false tl
  end.

Definition put_header (buf : buffer) (o : ostream) (header : header_t)
  : ostream :=
  let o := put_string (put_span buf o (key header)) "=" in
  endl (put_values buf o true (value header)).

Definition put_headers (buf : buffer) (o : ostream)
    (R : parse_headers_result_t) : ostream :=
  let o := fold_left (put_header buf) (headers R) o in
  endl (put_string (put_string o "terminated=")
          (if terminated R then "true" else "false")).

Definition put_request_line (buf : buffer) (o : ostream)
    (R : RequestLine.parse_request_line_result_t) : ostream :=
  let o := endl (put_span buf (put_string o "method=") (RequestLine.method R)) in
  let o := endl (put_span buf (put_string o "uri=") (RequestLine.uri R)) in
  endl (put_span buf (put_string o "version=") (RequestLine.version R)).

Definition put_response_line (buf : buffer) (o : ostream)
    (R : ResponseLine.parse_response_line_result_t) : ostream :=
  let o := endl (put_span buf (put_string o "version=")
                   (ResponseLine.version R)) in
  let o := endl (put_span buf (put_string o "status=")
                   (ResponseLine.status R)) in
  endl (put_span buf (put_string o "message=") (ResponseLine.message R)).

Definition put_uri (buf : buffer) (o : ostream) (R : Uri.parse_uri_result_t)
  : ostream :=
  let o := endl (put_span buf (put_string o "scheme=") (Uri.scheme R)) in
  let o := endl (put_span buf (put_string o "authority=") (Uri.authority R)) in
  let o := endl (put_span buf (put_string o "path=") (Uri.path R)) in
  let o := endl (put_span buf (put_string o "query=") (Uri.query R)) in
  endl (put_span buf (put_string o "fragment=") (Uri.fragment R)).

Definition put_authority (buf : buffer) (o : ostream)
    (R : Authority.parse_authority_result_t) : ostream :=
  let o := endl (put_span buf (put_string o "username=")
                   (Authority.username R)) in
  let o := endl (put_span buf (put_string o "password=")
                   (Authority.password R)) in
  let o := endl (put_span buf (put_string o "host=") (Authority.host R)) in
  endl (put_span buf (put_string o "port=") (Authority.port R)).

(** The number of lines written: the number of LF in the stream. *)
Definition line_count (o : ostream) : nat := count_occ ascii_dec o LF.

(** Lines of the form [label], field, LF, one after the other. *)
Definition field_lines (fields : list (string * list ascii)) : list ascii :=
  flat_map (fun f => list_ascii_of_string (fst f) ++ snd f ++ [LF]) fields.

(** The byte LF is not in the list. *)
Definition lf_free (l : list ascii) : Prop := ~ In LF l.

(* ================================================================== *)
(** ** Facts about the combinators *)

Section CombinatorFacts.
Variable St : Type.

Lemma iter_le_refl (it : iter) : iter_le it it.
Proof. exists []. split; [reflexivity | simpl; lia]. Qed.

Lemma iter_le_trans (a b c : iter) : iter_le a b -> iter_le b c -> iter_le a c.
Proof.
  intros [x [Hx Px]] [y [Hy Py]]. exists (x ++ y). split.
  - rewrite Hx, Hy, app_assoc. reflexivity.
  - rewrite length_app. lia.
Qed.

Lemma iter_le_pos (a b : iter) : iter_le a b -> pos a <= pos b.
Proof. intros [x [_ Px]]. lia. Qed.

Lemma iter_le_bound (a b : iter) :
  iter_le a b -> pos b + length (rest b) = pos a + length (rest a).
Proof. intros [x [Hx Px]]. rewrite Hx, length_app. lia. Qed.

Lemma iter_le_advance (it : iter) (c : ascii) (tl : list ascii) :
  rest it = c :: tl -> iter_le it (advance it) /\ pos it < pos (advance it).
Proof.
  intros H. split; [exists [c] | simpl; lia].
  unfold advance; simpl. rewrite H. simpl. split; [reflexivity | lia].
Qed.

Lemma consuming_advancing {A} (p : parser St A) : consuming p -> advancing p.
Proof. intros H st it st' a it' E. exact (proj1 (H _ _ _ _ _ E)). Qed.

Lemma bind_Matched {A B} (p : parser St A) (f : A -> parser St B)
    st it st2 b it2 :
  bind p f st it = Matched st2 b it2 ->
  exists st1 a it1, p st it = Matched st1 a it1 /\ f a st1 it1 = Matched st2 b it2.
Proof.
  unfold bind. destruct (p st it) as [st1 a it1| | |]; try discriminate.
  intros H. exists st1, a, it1. split; [reflexivity | exact H].
Qed.

Lemma advancing_ret {A} (a : A) : advancing (@ret St A a).
Proof. intros st it st' a' it' E. inversion E; subst. apply iter_le_refl. Qed.

Lemma advancing_bind {A B} (p : parser St A) (f : A -> parser St B) :
  advancing p -> (forall a, advancing (f a)) -> advancing (bind p f).
Proof.
  intros Hp Hf st it st' b it' E.
  apply bind_Matched in E. destruct E as (st1 & a & it1 & E1 & E2).
  eapply iter_le_trans; [eapply Hp | eapply Hf]; eassumption.
Qed.

Lemma consuming_bind_l {A B} (p : parser St A) (f : A -> parser St B) :
  consuming p -> (forall a, advancing (f a)) -> consuming (bind p f).
Proof.
  intros Hp Hf st it st' b it' E.
  apply bind_Matched in E. destruct E as (st1 & a & it1 & E1 & E2).
  destruct (Hp _ _ _ _ _ E1) as [L1 P1]. pose proof (Hf _ _ _ _ _ _ E2) as L2.
  split; [eapply iter_le_trans; eassumption | ].
  apply iter_le_pos in L2. lia.
Qed.

Lemma consuming_bind_r {A B} (p : parser St A) (f : A -> parser St B) :
  advancing p -> (forall a, consuming (f a)) -> consuming (bind p f).
Proof.
  intros Hp Hf st it st' b it' E.
  apply bind_Matched in E. destruct E as (st1 & a & it1 & E1 & E2).
  pose proof (Hp _ _ _ _ _ E1) as L1. destruct (Hf _ _ _ _ _ _ E2) as [L2 P2].
  split; [eapply iter_le_trans; eassumption | ].
  apply iter_le_pos in L1. lia.
Qed.

Lemma consuming_char_parser (test : ascii -> bool) :
  consuming (@char_parser St test).
Proof.
  intros st it st' a it'. unfold char_parser.
  destruct (rest it) as [|c tl] eqn:R; [discriminate|].
  destruct (test c); [|discriminate].
  intros E; inversion E; subst. eapply iter_le_advance; eassumption.
Qed.

Lemma char_parser_Matched (test : ascii -> bool) st it st' c it' :
  @char_parser St test st it = Matched st' c it' ->
  st' = st /\ it' = advance it /\ test c = true /\ exists tl, rest it = c :: tl.
Proof.
  unfold char_parser. destruct (rest it) as [|c0 tl] eqn:R; [discriminate|].
  destruct (test c0) eqn:T; [|discriminate].
  intros E; inversion E; subst. repeat split; eauto.
Qed.

Lemma consuming_lit_char (ch : ascii) : consuming (@lit_char St ch).
Proof.
  apply consuming_bind_l; [apply consuming_char_parser | intros; apply advancing_ret].
Qed.

Lemma lit_char_Matched (ch : ascii) st it st' u it' :
  @lit_char St ch st it = Matched st' u it' ->
  st' = st /\ it' = advance it /\ exists tl, rest it = ch :: tl.
Proof.
  unfold lit_char. intros E. apply bind_Matched in E.
  destruct E as (st1 & a & it1 & E1 & E2).
  apply char_parser_Matched in E1. destruct E1 as (-> & -> & T & tl & R).
  inversion E2; subst. apply Ascii.eqb_eq in T. subst. eauto.
Qed.

Lemma advancing_lit (s : string) : advancing (@lit St s).
Proof.
  induction s as [|ch s IH]; simpl.
  - apply advancing_ret.
  - apply advancing_bind; [apply consuming_advancing, consuming_lit_char | intros; exact IH].
Qed.

Lemma consuming_lit (ch : ascii) (s : string) : consuming (@lit St (String ch s)).
Proof.
  simpl. apply consuming_bind_l; [apply consuming_lit_char | intros; apply advancing_lit].
Qed.

Lemma consuming_eol : consuming (@eol St).
Proof.
  intros st it st' a it'. unfold eol.
  destruct (rest it) as [|c tl] eqn:R.
  - rewrite R. discriminate.
  - destruct (Ascii.eqb c CR) eqn:EC.
    + destruct (iter_le_advance it R) as [L P].
      destruct (rest (advance it)) as [|c2 tl2] eqn:R2.
      * intros E; inversion E; subst. split; assumption.
      * destruct (Ascii.eqb c2 LF).
        -- intros E; inversion E; subst.
           destruct (iter_le_advance (advance it) R2) as [L2 P2].
           split; [eapply iter_le_trans; eassumption | lia].
        -- intros E; inversion E; subst. split; assumption.
    + rewrite R. destruct (Ascii.eqb c LF); [|discriminate].
      intros E; inversion E; subst. eapply iter_le_advance; eassumption.
Qed.

Lemma advancing_eoi : advancing (@eoi St).
Proof.
  intros st it st' a it'. unfold eoi. destruct (rest it); [|discriminate].
  intros E; inversion E; subst. apply iter_le_refl.
Qed.

Lemma advancing_alt {A} (p q : parser St A) :
  advancing p -> advancing q -> advancing (alt p q).
Proof.
  intros Hp Hq st it st' a it'. unfold alt.
  destruct (p st it) eqn:E; try discriminate.
  - intros H; inversion H; subst. eapply Hp; eassumption.
  - intros H. eapply Hq; eassumption.
Qed.

Lemma consuming_alt {A} (p q : parser St A) :
  consuming p -> consuming q -> consuming (alt p q).
Proof.
  intros Hp Hq st it st' a it'. unfold alt.
  destruct (p st it) eqn:E; try discriminate.
  - intros H; inversion H; subst. eapply Hp; eassumption.
  - intros H. eapply Hq; eassumption.
Qed.

Lemma advancing_optional {A} (p : parser St A) :
  advancing p -> advancing (optional p).
Proof.
  intros Hp st it st' a it'. unfold optional.
  destruct (p st it) eqn:E; try discriminate; intros H; inversion H; subst.
  - eapply Hp; eassumption.
  - apply iter_le_refl.
Qed.

Lemma advancing_kleene_loop {A} (p : parser St A) (fuel : nat) :
  advancing p -> advancing (kleene_loop fuel p).
Proof.
  intros Hp. induction fuel as [|n IH]; intros st it st' l it'; simpl.
  - discriminate.
  - destruct (p st it) as [st1 a it1| | |] eqn:E; try discriminate.
    + destruct (length (rest it1) <? length (rest it)); [|discriminate].
      destruct (kleene_loop n p st1 it1) as [st2 l2 it2| | |] eqn:K; try discriminate.
      intros H; inversion H; subst.
      eapply iter_le_trans; [eapply Hp | eapply IH]; eassumption.
    + intros H; inversion H; subst. apply iter_le_refl.
Qed.

Lemma advancing_kleene {A} (p : parser St A) :
  advancing p -> advancing (kleene p).
Proof.
  intros Hp st it st' l it' E. unfold kleene in E.
  eapply advancing_kleene_loop; eassumption.
Qed.

Lemma consuming_plus {A} (p : parser St A) : consuming p -> consuming (plus p).
Proof.
  intros Hp. unfold plus. apply consuming_bind_l; [exact Hp|].
  intros a. apply advancing_bind; [apply advancing_kleene, consuming_advancing, Hp|].
  intros; apply advancing_ret.
Qed.

Lemma consuming_difference {A B} (a : parser St A) (b : parser St B) :
  consuming a -> consuming (difference a b).
Proof.
  intros Ha st it st' x it'. unfold difference.
  destruct (b st it); try discriminate. intros E. eapply Ha; eassumption.
Qed.

Lemma advancing_and_predicate {A} (p : parser St A) : advancing (and_predicate p).
Proof.
  intros st it st' x it'. unfold and_predicate.
  destruct (p st it); try discriminate. intros E; inversion E; subst.
  apply iter_le_refl.
Qed.

Lemma raw_Matched {A} (p : parser St A) st it st' s it' :
  raw p st it = Matched st' s it' ->
  s = span (pos it) (pos it') /\ exists a, p st it = Matched st' a it'.
Proof.
  unfold raw. destruct (p st it) as [st1 a it1| | |]; try discriminate.
  intros E; inversion E; subst. eauto.
Qed.

Lemma advancing_raw {A} (p : parser St A) : advancing p -> advancing (raw p).
Proof.
  intros Hp st it st' s it' E. apply raw_Matched in E.
  destruct E as [_ [a E]]. eapply Hp; eassumption.
Qed.

Lemma consuming_raw {A} (p : parser St A) : consuming p -> consuming (raw p).
Proof.
  intros Hp st it st' s it' E. apply raw_Matched in E.
  destruct E as [_ [a E]]. eapply Hp; eassumption.
Qed.

Lemma advancing_omit {A} (p : parser St A) : advancing p -> advancing (omit p).
Proof.
  intros Hp. unfold omit. apply advancing_bind; [exact Hp | intros; apply advancing_ret].
Qed.

Lemma consuming_omit {A} (p : parser St A) : consuming p -> consuming (omit p).
Proof.
  intros Hp. unfold omit. apply consuming_bind_l; [exact Hp | intros; apply advancing_ret].
Qed.

Lemma action_Matched {A} (p : parser St A) (f : A -> St -> option St)
    st it st' a it' :
  action p f st it = Matched st' a it' ->
  exists st1, p st it = Matched st1 a it' /\ f a st1 = Some st'.
Proof.
  unfold action. destruct (p st it) as [st1 a1 it1| | |]; try discriminate.
  destruct (f a1 st1) eqn:F; try discriminate.
  intros E; inversion E; subst. eauto.
Qed.

Lemma advancing_action {A} (p : parser St A) (f : A -> St -> option St) :
  advancing p -> advancing (action p f).
Proof.
  intros Hp st it st' a it' E. apply action_Matched in E.
  destruct E as [st1 [E _]]. eapply Hp; eassumption.
Qed.

Lemma consuming_action {A} (p : parser St A) (f : A -> St -> option St) :
  consuming p -> consuming (action p f).
Proof.
  intros Hp st it st' a it' E. apply action_Matched in E.
  destruct E as [st1 [E _]]. eapply Hp; eassumption.
Qed.

End CombinatorFacts.

(** Solves [advancing g] and [consuming g] for a grammar [g] built from the
    combinators. *)
Ltac qi_progress :=
  repeat first
    [ progress intros
    | progress cbv beta
    | apply advancing_ret
    | apply advancing_eoi
    | apply advancing_lit
    | apply advancing_and_predicate
    | apply consuming_char_parser
    | apply consuming_lit_char
    | apply consuming_lit
    | apply consuming_eol
    | apply advancing_optional
    | apply advancing_kleene
    | apply advancing_raw
    | apply advancing_omit
    | apply advancing_action
    | apply consuming_plus
    | apply consuming_difference
    | apply consuming_raw
    | apply consuming_omit
    | apply consuming_action
    | apply advancing_alt
    | apply advancing_bind
    | solve [apply consuming_advancing; qi_progress] ].

(* ================================================================== *)
(** ** Facts about spans *)

Lemma firstn_add_skipn {A} (n m : nat) (l : list A) :
  firstn (n + m) l = firstn n l ++ firstn m (skipn n l).
Proof.
  revert l. induction n as [|n IH]; intros l; simpl; [reflexivity|].
  destruct l as [|x l]; simpl.
  - rewrite firstn_nil. reflexivity.
  - rewrite IH. reflexivity.
Qed.

Lemma span_bytes_app (buf : buffer) (a b c : nat) :
  a <= b -> b <= c ->
  span_bytes buf (span a b) ++ span_bytes buf (span b c)
  = span_bytes buf (span a c).
Proof.
  intros Hab Hbc. unfold span_bytes; simpl.
  replace (c - a) with ((b - a) + (c - b)) by lia.
  rewrite firstn_add_skipn, skipn_skipn.
  replace (b - a + a) with b by lia. reflexivity.
Qed.

Lemma span_bytes_length (buf : buffer) (s : span_t) :
  span_wf buf s -> length (span_bytes buf s) = span_end s - span_begin s.
Proof.
  intros [H1 H2]. unfold span_bytes.
  rewrite length_firstn, length_skipn. lia.
Qed.

Lemma span_bytes_one (buf : buffer) (a : nat) :
  a < length buf ->
  exists c, nth_error buf a = Some c /\ span_bytes buf (span a (S a)) = [c].
Proof.
  intros H. unfold span_bytes. cbn [span_begin span_end].
  replace (S a - a) with 1 by lia.
  destruct (nth_error buf a) as [c|] eqn:E.
  - exists c. split; [reflexivity|].
    apply nth_error_split in E. destruct E as (l1 & l2 & -> & <-).
    rewrite skipn_app, skipn_all, Nat.sub_diag. reflexivity.
  - apply nth_error_None in E. lia.
Qed.

(* ================================================================== *)
(** ** Where the input cursor is after a call *)

Lemma parse_matched_position {St A} (buf : buffer) (input : span_t)
    (g : parser St A) (st st' : St) (a : A) (it' : iter) :
  span_wf buf input -> advancing g ->
  Qi.parse buf (span_begin input) (span_end input) g st = Matched st' a it' ->
  span_begin input <= pos it' <= span_end input.
Proof.
  intros Hwf Hg E. unfold Qi.parse in E. apply Hg in E.
  pose proof (iter_le_pos E) as P. apply iter_le_bound in E.
  cbn [pos rest] in *.
  assert (L : length (span_bytes buf (span (span_begin input) (span_end input)))
              = span_end input - span_begin input)
    by (destruct input; apply span_bytes_length; exact Hwf).
  rewrite L in E. destruct Hwf as [W1 W2]. lia.
Qed.

Lemma parse_matched_strict {St A} (buf : buffer) (input : span_t)
    (g : parser St A) (st st' : St) (a : A) (it' : iter) :
  consuming g ->
  Qi.parse buf (span_begin input) (span_end input) g st = Matched st' a it' ->
  span_begin input < pos it'.
Proof.
  intros Hg E. unfold Qi.parse in E. apply Hg in E. simpl in E. tauto.
Qed.

Lemma parse_direct_Returned {Result} name buf input
    (g : parser unit Result) R input' :
  parse_direct name buf input g = (Returned R, input') ->
  exists it', Qi.parse buf (span_begin input) (span_end input) g tt
              = Matched tt R it'
              /\ input' = span (pos it') (span_end input).
Proof.
  unfold parse_direct.
  destruct (Qi.parse buf (span_begin input) (span_end input) g tt)
    as [[] R1 it1| | |]; try discriminate.
  intros E; inversion E; subst. eauto.
Qed.

Lemma parse_indirect_Returned {St A} name buf input
    (g : parser St A) R0 R input' :
  parse_indirect name buf input g R0 = (Returned R, input') ->
  exists a it', Qi.parse buf (span_begin input) (span_end input) g R0
              = Matched R a it'
              /\ input' = span (pos it') (span_end input).
Proof.
  unfold parse_indirect.
  destruct (Qi.parse buf (span_begin input) (span_end input) g R0)
    as [R1 a1 it1| | |]; try discriminate.
  intros E; inversion E; subst. eauto.
Qed.

Lemma request_line_consuming : consuming ParseLine.request_line.
Proof. unfold ParseLine.request_line, ParseLine.word, sp, char_set.
  apply consuming_bind_r; [qi_progress|]. intros.
  apply consuming_bind_l; qi_progress.
Qed.

Lemma response_line_consuming : consuming ParseLine.response_line.
Proof. unfold ParseLine.response_line, ParseLine.word, sp, char_set.
  apply consuming_bind_r; [qi_progress|]. intros.
  apply consuming_bind_l; qi_progress.
Qed.

Lemma header_consuming : consuming ParseHeaders.header.
Proof.
  unfold ParseHeaders.header, ParseHeaders.keyed_line,
    ParseHeaders.continuation_line, ParseHeaders.key, ParseHeaders.value,
    sp, char_set.
  apply consuming_alt.
  - apply consuming_bind_l; [|qi_progress].
    apply consuming_action. apply consuming_bind_r; [qi_progress|]. intros.
    apply consuming_bind_l; qi_progress.
  - apply consuming_bind_l; qi_progress.
Qed.

Lemma headers_grammar_consuming : consuming ParseHeaders.grammar.
Proof.
  unfold ParseHeaders.grammar, ParseHeaders.terminator, sp, char_set.
  apply consuming_bind_l.
  - apply consuming_plus, header_consuming.
  - qi_progress.
Qed.

(* ================================================================== *)
(** ** Parsers that cannot go wrong, and parsers that leave the state *)

Section Definedness.
Variable St : Type.

Lemma iter_le_shrinks (it it' : iter) :
  iter_le it it' -> pos it < pos it' -> length (rest it') < length (rest it).
Proof. intros [x [Hx Px]] H. rewrite Hx, length_app. lia. Qed.

Lemma defined_cases {A} (p : parser St A) (st : St) (it : iter) :
  defined p ->
  (exists st' a it', p st it = Matched st' a it')
  \/ (exists st', p st it = Failed st').
Proof.
  intros H. destruct (H st it) as [U D].
  destruct (p st it) as [st' a it'|st'| |]; eauto; congruence.
Qed.

Lemma total_defined {A} (p : parser St A) : total p -> defined p.
Proof.
  intros H st it. destruct (H st it) as (st' & a & it' & E).
  rewrite E. split; discriminate.
Qed.

Lemma defined_ret {A} (a : A) : defined (@ret St A a).
Proof. intros st it. split; discriminate. Qed.

Lemma defined_bind {A B} (p : parser St A) (f : A -> parser St B) :
  defined p -> (forall a, defined (f a)) -> defined (bind p f).
Proof.
  intros Hp Hf st it. unfold bind.
  destruct (defined_cases st it Hp) as [(st' & a & it' & E) | (st' & E)];
    rewrite E; [apply Hf | split; discriminate].
Qed.

Lemma defined_char_parser (test : ascii -> bool) :
  defined (@char_parser St test).
Proof.
  intros st it. unfold char_parser.
  destruct (rest it) as [|c tl]; [|destruct (test c)]; split; discriminate.
Qed.

Lemma defined_lit_char (ch : ascii) : defined (@lit_char St ch).
Proof.
  apply defined_bind; [apply defined_char_parser | intros; apply defined_ret].
Qed.

Lemma defined_lit (s : string) : defined (@lit St s).
Proof.
  induction s as [|ch s IH]; simpl.
  - apply defined_ret.
  - apply defined_bind; [apply defined_lit_char | intros; exact IH].
Qed.

Lemma defined_eol : defined (@eol St).
Proof.
  intros st it. unfold eol.
  destruct (rest it) as [|c tl]; [|destruct (Ascii.eqb c CR)];
    try destruct (rest (advance it)) as [|c2 tl2];
    try destruct (rest it) as [|c3 tl3];
    try destruct (Ascii.eqb c2 LF); try destruct (Ascii.eqb c3 LF);
    split; discriminate.
Qed.

Lemma defined_eoi : defined (@eoi St).
Proof.
  intros st it. unfold eoi. destruct (rest it); split; discriminate.
Qed.

Lemma defined_alt {A} (p q : parser St A) :
  defined p -> defined q -> defined (alt p q).
Proof.
  intros Hp Hq st it. unfold alt.
  destruct (defined_cases st it Hp) as [(st' & a & it' & E) | (st' & E)];
    rewrite E; [split; discriminate | apply Hq].
Qed.

Lemma total_optional {A} (p : parser St A) : defined p -> total (optional p).
Proof.
  intros Hp st it. unfold optional.
  destruct (defined_cases st it Hp) as [(st' & a & it' & E) | (st' & E)];
    rewrite E; eauto.
Qed.

Lemma defined_difference {A B} (a : parser St A) (b : parser St B) :
  defined a -> defined b -> defined (difference a b).
Proof.
  intros Ha Hb st it. unfold difference.
  destruct (defined_cases st it Hb) as [(st' & x & it' & E) | (st' & E)];
    rewrite E; [split; discriminate | apply Ha].
Qed.

Lemma defined_and_predicate {A} (p : parser St A) :
  defined p -> defined (and_predicate p).
Proof.
  intros Hp st it. unfold and_predicate.
  destruct (defined_cases st it Hp) as [(st' & x & it' & E) | (st' & E)];
    rewrite E; split; discriminate.
Qed.

Lemma defined_raw {A} (p : parser St A) : defined p -> defined (raw p).
Proof.
  intros Hp st it. unfold raw.
  destruct (defined_cases st it Hp) as [(st' & x & it' & E) | (st' & E)];
    rewrite E; split; discriminate.
Qed.

Lemma defined_omit {A} (p : parser St A) : defined p -> defined (omit p).
Proof.
  intros Hp. apply defined_bind; [exact Hp | intros; apply defined_ret].
Qed.

Lemma defined_action {A} (p : parser St A) (f : A -> St -> option St) :
  defined p -> safe_action f -> defined (action p f).
Proof.
  intros Hp Hf st it. unfold action.
  destruct (defined_cases st it Hp) as [(st' & x & it' & E) | (st' & E)];
    rewrite E; [|split; discriminate].
  destruct (f x st') eqn:F; [split; discriminate | elim (Hf _ _ F)].
Qed.

Lemma total_kleene_loop {A} (p : parser St A) :
  defined p -> consuming p ->
  forall fuel st it, length (rest it) < fuel ->
    exists st' l it', kleene_loop fuel p st it = Matched st' l it'.
Proof.
  intros Hd Hc. induction fuel as [|n IH]; intros st it Hn; [lia|]. simpl.
  destruct (defined_cases st it Hd) as [(st1 & a & it1 & E) | (st1 & E)];
    rewrite E; [|eauto].
  destruct (Hc _ _ _ _ _ E) as [L P].
  pose proof (iter_le_shrinks L P) as Sh.
  apply Nat.ltb_lt in Sh. rewrite Sh. apply Nat.ltb_lt in Sh.
  destruct (IH st1 it1) as (st2 & l & it2 & K); [lia|].
  rewrite K. eauto.
Qed.

Lemma total_kleene {A} (p : parser St A) :
  defined p -> consuming p -> total (kleene p).
Proof.
  intros Hd Hc st it. unfold kleene. apply total_kleene_loop; auto.
Qed.

(** Past what the remaining input needs, more fuel changes nothing: a loop
    diverges only when its subject matches without consuming. *)
Lemma kleene_loop_fuel {A} (p : parser St A) (n m : nat) st it :
  length (rest it) < n -> length (rest it) < m ->
  kleene_loop n p st it = kleene_loop m p st it.
Proof.
  revert m st it. induction n as [|n IH]; intros m st it Hn Hm; [lia|].
  destruct m as [|m]; [lia|]. simpl.
  destruct (p st it) as [st1 a it1| | |]; try reflexivity.
  destruct (length (rest it1) <? length (rest it)) eqn:Sh; [|reflexivity].
  apply Nat.ltb_lt in Sh. rewrite (IH m st1 it1) by lia. reflexivity.
Qed.

Lemma defined_plus {A} (p : parser St A) :
  defined p -> consuming p -> defined (plus p).
Proof.
  intros Hd Hc. unfold plus. apply defined_bind; [exact Hd|]. intros a.
  apply defined_bind; [apply total_defined, total_kleene; assumption|].
  intros; apply defined_ret.
Qed.

Lemma total_ret {A} (a : A) : total (@ret St A a).
Proof. intros st it. unfold ret. eauto. Qed.

Lemma total_bind {A B} (p : parser St A) (f : A -> parser St B) :
  total p -> (forall a, total (f a)) -> total (bind p f).
Proof.
  intros Hp Hf st it. unfold bind.
  destruct (Hp st it) as (st' & a & it' & E). rewrite E. apply Hf.
Qed.

Lemma total_raw {A} (p : parser St A) : total p -> total (raw p).
Proof.
  intros Hp st it. unfold raw.
  destruct (Hp st it) as (st' & a & it' & E). rewrite E. eauto.
Qed.

Lemma total_action {A} (p : parser St A) (f : A -> St -> option St) :
  total p -> safe_action f -> total (action p f).
Proof.
  intros Hp Hf st it. unfold action.
  destruct (Hp st it) as (st' & a & it' & E). rewrite E.
  destruct (f a st') eqn:F; [eauto | elim (Hf _ _ F)].
Qed.

Lemma total_alt {A} (p q : parser St A) :
  defined p -> total q -> total (alt p q).
Proof.
  intros Hp Hq st it. unfold alt.
  destruct (defined_cases st it Hp) as [(st' & a & it' & E) | (st' & E)];
    rewrite E; [eauto | apply Hq].
Qed.

(** *** Parsers without semantic actions leave the state as it was *)

Lemma stateless_ret {A} (a : A) : stateless (@ret St A a).
Proof. intros st it. simpl. reflexivity. Qed.

Lemma stateless_bind {A B} (p : parser St A) (f : A -> parser St B) :
  stateless p -> (forall a, stateless (f a)) -> stateless (bind p f).
Proof.
  intros Hp Hf st it. unfold bind. specialize (Hp st it).
  destruct (p st it) as [st1 a it1|st1| |]; simpl in *; subst; auto.
  apply Hf.
Qed.

Lemma stateless_char_parser (test : ascii -> bool) :
  stateless (@char_parser St test).
Proof.
  intros st it. unfold char_parser.
  destruct (rest it) as [|c tl]; [|destruct (test c)]; reflexivity.
Qed.

Lemma stateless_lit_char (ch : ascii) : stateless (@lit_char St ch).
Proof.
  apply stateless_bind; [apply stateless_char_parser | intros; apply stateless_ret].
Qed.

Lemma stateless_lit (s : string) : stateless (@lit St s).
Proof.
  induction s as [|ch s IH]; simpl.
  - apply stateless_ret.
  - apply stateless_bind; [apply stateless_lit_char | intros; exact IH].
Qed.

Lemma stateless_difference {A B} (a : parser St A) (b : parser St B) :
  stateless a -> stateless b -> stateless (difference a b).
Proof.
  intros Ha Hb st it. unfold difference. specialize (Hb st it).
  destruct (b st it) as [st1 x it1|st1| |]; simpl in *; subst; auto.
  apply Ha.
Qed.

Lemma stateless_kleene_loop {A} (p : parser St A) (fuel : nat) :
  stateless p -> stateless (kleene_loop fuel p).
Proof.
  intros Hp. induction fuel as [|n IH]; intros st it; simpl; [exact I|].
  specialize (Hp st it).
  destruct (p st it) as [st1 a it1|st1| |]; simpl in *; subst; auto.
  destruct (length (rest it1) <? length (rest it)); [|exact I].
  specialize (IH st it1).
  destruct (kleene_loop n p st it1) as [st2 l it2|st2| |]; simpl in *; auto.
Qed.

Lemma stateless_kleene {A} (p : parser St A) :
  stateless p -> stateless (kleene p).
Proof. intros Hp st it. apply stateless_kleene_loop, Hp. Qed.

Lemma stateless_raw {A} (p : parser St A) : stateless p -> stateless (raw p).
Proof.
  intros Hp st it. unfold raw. specialize (Hp st it).
  destruct (p st it); simpl in *; auto.
Qed.

Lemma stateless_omit {A} (p : parser St A) : stateless p -> stateless (omit p).
Proof.
  intros Hp. apply stateless_bind; [exact Hp | intros; apply stateless_ret].
Qed.

Lemma stateless_eol : stateless (@eol St).
Proof.
  intros st it. unfold eol.
  repeat match goal with
         | |- context [match ?X with (_, _) => _ end] => destruct X as [? ?]
         end.
  match goal with |- context [if ?b then _ else _] => destruct b end;
    reflexivity.
Qed.

Lemma stateless_eoi : stateless (@eoi St).
Proof. intros st it. unfold eoi. destruct (rest it); reflexivity. Qed.

Lemma stateless_alt {A} (p q : parser St A) :
  stateless p -> stateless q -> stateless (alt p q).
Proof.
  intros Hp Hq st it. unfold alt. specialize (Hp st it).
  destruct (p st it) as [st1 a it1|st1| |]; simpl in *; subst; auto.
  apply Hq.
Qed.

Lemma stateless_plus {A} (p : parser St A) : stateless p -> stateless (plus p).
Proof.
  intros Hp. unfold plus. apply stateless_bind; [exact Hp|]. intros a.
  apply stateless_bind; [apply stateless_kleene; exact Hp|].
  intros; apply stateless_ret.
Qed.

Lemma stateless_keeps {A X} (f : St -> X) (p : parser St A) :
  stateless p -> keeps f p.
Proof.
  intros Hp st it. specialize (Hp st it).
  destruct (p st it); simpl in *; subst; auto.
Qed.

Lemma keeps_ret {A X} (f : St -> X) (a : A) : keeps f (@ret St A a).
Proof. intros st it. reflexivity. Qed.

Lemma keeps_bind {A B X} (f : St -> X) (p : parser St A)
    (k : A -> parser St B) :
  keeps f p -> (forall a, keeps f (k a)) -> keeps f (bind p k).
Proof.
  intros Hp Hk st it. unfold bind. specialize (Hp st it).
  destruct (p st it) as [st1 a it1|st1| |]; auto.
  specialize (Hk a st1 it1).
  destruct (k a st1 it1); auto; congruence.
Qed.

Lemma keeps_optional {A X} (f : St -> X) (p : parser St A) :
  keeps f p -> keeps f (optional p).
Proof.
  intros Hp st it. unfold optional. specialize (Hp st it).
  destruct (p st it); auto.
Qed.

Lemma keeps_alt {A X} (f : St -> X) (p q : parser St A) :
  keeps f p -> keeps f q -> keeps f (alt p q).
Proof.
  intros Hp Hq st it. unfold alt. specialize (Hp st it).
  destruct (p st it) as [st1 a it1|st1| |]; auto.
  specialize (Hq st1 it).
  destruct (q st1 it); auto; congruence.
Qed.

Lemma keeps_action {A X} (f : St -> X) (p : parser St A)
    (act : A -> St -> option St) :
  keeps f p ->
  (forall a st st', act a st = Some st' -> f st' = f st) ->
  keeps f (action p act).
Proof.
  intros Hp Hact st it. unfold action. specialize (Hp st it).
  destruct (p st it) as [st1 a it1|st1| |]; auto.
  destruct (act a st1) as [st2|] eqn:E; auto.
  rewrite (Hact _ _ _ E). exact Hp.
Qed.

End Definedness.

(* ================================================================== *)
(** ** The authority grammar *)

Section AuthorityFacts.
Import Authority ParseAuthority.

Lemma word_total : total word.
Proof.
  unfold word. apply total_raw, total_kleene.
  - apply defined_difference; apply defined_char_parser.
  - apply consuming_difference, consuming_char_parser.
Qed.

Lemma word_stateless : stateless word.
Proof.
  unfold word. apply stateless_raw, stateless_kleene, stateless_difference;
    apply stateless_char_parser.
Qed.

Lemma word_advancing : advancing word.
Proof. unfold word, char_set. qi_progress. Qed.

(** A word always matches, and its action then runs on the span from the
    iterator to where the word ends. *)
Lemma action_word_run (f : span_t -> St -> option St) (g : span_t -> St -> St) :
  (forall s R, f s R = Some (g s R)) ->
  forall st it, exists it',
    action word f st it
    = Matched (g (span (pos it) (pos it')) st) (span (pos it) (pos it')) it'
    /\ iter_le it it'.
Proof.
  intros Hf st it.
  destruct (word_total st it) as (st' & s & it' & E).
  pose proof (word_stateless st it) as S. rewrite E in S. simpl in S. subst st'.
  pose proof (word_advancing _ _ E) as L.
  assert (s = span (pos it) (pos it')) as ->
    by (unfold word in E; apply raw_Matched in E; tauto).
  exists it'. split; [|exact L].
  unfold action. rewrite E, Hf. reflexivity.
Qed.

Lemma lit_cases (s : string) (st : St) (it : iter) :
  (exists it', lit s st it = Matched st tt it' /\ iter_le it it')
  \/ lit s st it = Failed st.
Proof.
  pose proof (stateless_lit s st it) as S.
  destruct (defined_cases st it (defined_lit (St:=St) s))
    as [(st' & [] & it' & E) | (st' & E)]; rewrite E in S; simpl in S; subst.
  - left. exists it'. split; [exact E|]. eapply advancing_lit; eassumption.
  - right. exact E.
Qed.

(** The optional [:port] after either alternative. *)
Lemma port_part_run (st : St) (it : iter) :
  exists R it',
    (optional (omit (lit ":") >> action word set_port) >> ret tt) st it
    = Matched R tt it'
    /\ iter_le it it'
    /\ username R = username st /\ password R = password st
    /\ host R = host st
    /\ (pos it' = pos it -> R = st).
Proof.
  unfold bind at 1. unfold optional, omit. unfold bind at 1. unfold bind at 1.
  destruct (lit_cases ":" st it) as [(it1 & E & L) | E]; rewrite E.
  - pose proof (consuming_lit (St:=St) ":" EmptyString _ _ E) as [_ P].
    unfold ret at 1.
    destruct (@action_word_run set_port
                (fun s R => Authority.mk (username R) (password R) (host R) s)
                (fun _ _ => eq_refl) st it1) as (it2 & E2 & L2).
    rewrite E2. unfold ret. eexists. exists it2. split; [reflexivity|].
    split; [eapply iter_le_trans; eassumption|].
    cbn. repeat split. intros H. apply iter_le_pos in L2. lia.
  - unfold ret. exists st, it. split; [reflexivity|].
    split; [apply iter_le_refl|]. auto.
Qed.

Lemma host_branch_run (st : St) (it : iter) :
  exists it1,
    host_branch st it
    = Matched (Authority.mk span_default span_default
                 (span (pos it) (pos it1)) span_default) tt it1
    /\ iter_le it it1.
Proof.
  unfold host_branch, bind.
  destruct (@action_word_run only_host
              (fun s _ => Authority.mk span_default span_default s span_default)
              (fun _ _ => eq_refl) st it) as (it1 & E & L).
  rewrite E. exists it1. split; [reflexivity | exact L].
Qed.

Lemma userinfo_branch_consuming : consuming userinfo_branch.
Proof.
  unfold userinfo_branch.
  apply consuming_bind_r; [apply advancing_optional, advancing_action, word_advancing|].
  intros _.
  apply consuming_bind_r.
  { apply advancing_optional, advancing_bind; [apply advancing_omit, advancing_lit|].
    intros _. apply advancing_action, word_advancing. }
  intros _.
  apply consuming_bind_l; [apply consuming_omit, consuming_lit|].
  intros _. apply advancing_bind; [apply advancing_action, word_advancing|].
  intros; apply advancing_ret.
Qed.

Lemma word_action_defined (f : span_t -> St -> option St) :
  safe_action f -> defined (action word f).
Proof.
  intros Hf. apply defined_action; [apply total_defined, word_total | exact Hf].
Qed.

Lemma userinfo_branch_defined : defined userinfo_branch.
Proof.
  unfold userinfo_branch.
  apply defined_bind.
  { apply total_defined, total_optional, word_action_defined. discriminate. }
  intros _. apply defined_bind.
  { apply total_defined, total_optional, defined_bind;
      [apply defined_omit, defined_lit|].
    intros _. apply word_action_defined. discriminate. }
  intros _. apply defined_bind; [apply defined_omit, defined_lit|].
  intros _. apply defined_bind; [apply word_action_defined; discriminate|].
  intros; apply defined_ret.
Qed.


(** In a match of the first alternative, [username] is the word, empty or
    not, that starts the input. *)
Lemma userinfo_branch_username (st' : St) (it it' : iter) (u : unit) :
  userinfo_branch R0 it = Matched st' u it' ->
  span_begin (username st') = pos it.
Proof.
  unfold userinfo_branch. unfold bind at 1. unfold optional at 1.
  destruct (@action_word_run set_username
              (fun s R => Authority.mk s (password R) (host R) (port R))
              (fun _ _ => eq_refl) R0 it) as (it1 & E1 & L1).
  rewrite E1. intros E.
  assert (K : keeps username
                (optional (omit (lit ":") >> action word set_password)
                 >> omit (lit "@") >> action word set_host >> ret tt)).
  { apply keeps_bind.
    - apply keeps_optional, keeps_bind;
        [apply stateless_keeps, stateless_omit, stateless_lit|].
      intros _. apply keeps_action; [apply stateless_keeps, word_stateless|].
      intros a st st2 H. inversion H. reflexivity.
    - intros _. apply keeps_bind;
        [apply stateless_keeps, stateless_omit, stateless_lit|].
      intros _. apply keeps_bind; [|intros; apply keeps_ret].
      apply keeps_action; [apply stateless_keeps, word_stateless|].
      intros a st st2 H. inversion H. reflexivity. }
  unfold keeps in K. pose proof (K (Authority.mk (span (pos it) (pos it1))
                       (password R0) (host R0) (port R0)) it1) as K1.
  rewrite E in K1. rewrite K1. reflexivity.
Qed.

(** How the whole grammar runs, by what its first alternative does. *)
Lemma grammar_run (it : iter) :
  exists R it',
    grammar R0 it = Matched R tt it'
    /\ iter_le it it'
    /\ match userinfo_branch R0 it with
       | Matched st1 _ _ =>
           username R = username st1 /\ password R = password st1
           /\ host R = host st1 /\ pos it < pos it'
       | _ =>
           username R = span_default /\ password R = span_default
           /\ span_begin (host R) = pos it
           /\ (pos it' = pos it ->
               R = Authority.mk span_default span_default
                     (span (pos it) (pos it)) span_default)
       end.
Proof.
  unfold grammar. unfold bind at 1. unfold alt.
  destruct (defined_cases R0 it userinfo_branch_defined)
    as [(st1 & [] & it1 & E) | (st1 & E)]; rewrite E.
  - destruct (port_part_run st1 it1) as (R & it' & EP & L & U & P & H & _).
    rewrite EP. exists R, it'. split; [reflexivity|].
    destruct (userinfo_branch_consuming _ _ E) as [L1 P1].
    split; [eapply iter_le_trans; eassumption|].
    apply iter_le_pos in L. repeat split; auto; lia.
  - destruct (host_branch_run st1 it) as (it1 & EH & L1). rewrite EH.
    destruct (port_part_run
                (Authority.mk span_default span_default
                   (span (pos it) (pos it1)) span_default) it1)
      as (R & it' & EP & L & U & P & H & N).
    rewrite EP. exists R, it'. split; [reflexivity|].
    split; [eapply iter_le_trans; eassumption|].
    cbn in U, P, H. rewrite H. repeat split; auto.
    intros Q. apply iter_le_pos in L1. apply iter_le_pos in L.
    assert (pos it1 = pos it) as Q1 by lia.
    rewrite N by lia. rewrite Q1. reflexivity.
Qed.

End AuthorityFacts.

(* ================================================================== *)
(** ** What the semantic actions leave in the state *)

Section Triples.
Variable St : Type.

Lemma triple_weaken {A} (P P' Q Q' Qf Qf' : St -> Prop) (p : parser St A) :
  triple P p Q Qf ->
  (forall st, P' st -> P st) ->
  (forall st, Q st -> Q' st) ->
  (forall st, Qf st -> Qf' st) ->
  triple P' p Q' Qf'.
Proof.
  intros H HP HQ HF st it Hst. specialize (H st it (HP _ Hst)).
  destruct (p st it); auto.
Qed.

Lemma triple_stateless {A} (P : St -> Prop) (p : parser St A) :
  stateless p -> triple P p P P.
Proof.
  intros Hp st it Hst. specialize (Hp st it).
  destruct (p st it); subst; auto.
Qed.

Lemma triple_ret {A} (P Qf : St -> Prop) (a : A) : triple P (ret a) P Qf.
Proof. intros st it Hst. exact Hst. Qed.

Lemma triple_bind {A B} (P Q Q' Qf : St -> Prop) (p : parser St A)
    (f : A -> parser St B) :
  triple P p Q Qf -> (forall a, triple Q (f a) Q' Qf) ->
  triple P (bind p f) Q' Qf.
Proof.
  intros Hp Hf st it Hst. unfold bind. specialize (Hp st it Hst).
  destruct (p st it) as [st1 a it1|st1| |]; auto.
  apply Hf. exact Hp.
Qed.

Lemma triple_alt {A} (P Q R Qf : St -> Prop) (p q : parser St A) :
  triple P p Q R -> triple R q Q Qf -> triple P (alt p q) Q Qf.
Proof.
  intros Hp Hq st it Hst. unfold alt. specialize (Hp st it Hst).
  destruct (p st it) as [st1 a it1|st1| |]; auto.
  apply Hq. exact Hp.
Qed.

Lemma triple_optional {A} (P Q Qf : St -> Prop) (p : parser St A) :
  triple P p Q Q -> triple P (optional p) Q Qf.
Proof.
  intros Hp st it Hst. unfold optional. specialize (Hp st it Hst).
  destruct (p st it); auto.
Qed.

Lemma triple_action {A} (P Q Q' Qf : St -> Prop) (p : parser St A)
    (act : A -> St -> option St) :
  triple P p Q Qf ->
  (forall a st st', Q st -> act a st = Some st' -> Q' st') ->
  triple P (action p act) Q' Qf.
Proof.
  intros Hp Hact st it Hst. unfold action. specialize (Hp st it Hst).
  destruct (p st it) as [st1 a it1|st1| |]; auto.
  destruct (act a st1) as [st2|] eqn:E; [|exact I].
  eapply Hact; eassumption.
Qed.

(** A loop ends on the failure of its subject: what it leaves is what that
    failure leaves. *)
Lemma triple_kleene_loop {A} (P Qf Qf' : St -> Prop) (p : parser St A)
    (fuel : nat) :
  triple P p P Qf -> triple P (kleene_loop fuel p) Qf Qf'.
Proof.
  intros Hp. induction fuel as [|n IH]; intros st it Hst; simpl; [exact I|].
  specialize (Hp st it Hst).
  destruct (p st it) as [st1 a it1|st1| |]; auto.
  destruct (length (rest it1) <? length (rest it)); [|exact I].
  specialize (IH st1 it1 Hp).
  destruct (kleene_loop n p st1 it1); auto.
Qed.

Lemma triple_kleene {A} (P Qf Qf' : St -> Prop) (p : parser St A) :
  triple P p P Qf -> triple P (kleene p) Qf Qf'.
Proof.
  intros Hp st it. unfold kleene. apply triple_kleene_loop. exact Hp.
Qed.

Lemma triple_plus {A} (P Qf : St -> Prop) (p : parser St A) :
  triple P p P Qf -> triple P (plus p) Qf Qf.
Proof.
  intros Hp. unfold plus. eapply triple_bind; [exact Hp|]. intros a.
  eapply triple_bind; [apply triple_kleene; exact Hp|].
  intros l. apply triple_ret.
Qed.

End Triples.

(* ================================================================== *)
(** ** The header grammar *)

Section HeaderFacts.
Import ParseHeaders.

Lemma value_stateless : stateless value.
Proof.
  unfold value.
  apply stateless_raw, stateless_plus, stateless_difference;
    apply stateless_char_parser.
Qed.

Lemma key_stateless : stateless key.
Proof.
  unfold key. apply stateless_bind.
  - apply stateless_raw, stateless_kleene, stateless_difference;
      apply stateless_char_parser.
  - intros k. apply stateless_bind; [apply stateless_omit, stateless_lit|].
    intros; apply stateless_ret.
Qed.

Lemma sp_stateless : stateless (@sp St).
Proof. apply stateless_char_parser. Qed.

Lemma line_end_stateless : stateless (@eol St <|> eoi).
Proof. apply stateless_alt; [apply stateless_eol | apply stateless_eoi]. Qed.

Lemma terminator_stateless : stateless terminator.
Proof.
  unfold terminator.
  apply stateless_bind; [apply stateless_kleene, sp_stateless|].
  intros _. apply stateless_eol.
Qed.

Lemma back_push_back_Some (hs hs' : list header_t) (v : span_t) :
  back_push_back hs v = Some hs' ->
  exists l x,
    hs = l ++ [x]
    /\ hs' = l ++ [Header.mk (Header.key x) (Header.value x ++ [v])].
Proof.
  revert hs'. induction hs as [|h0 tl IH]; intros hs' E.
  - discriminate.
  - destruct tl as [|h1 tl].
    + inversion E. exists [], h0. split; reflexivity.
    + change (back_push_back (h0 :: h1 :: tl) v)
        with (match back_push_back (h1 :: tl) v with
              | Some tl' => Some (h0 :: tl')
              | None => None
              end) in E.
      destruct (back_push_back (h1 :: tl) v) as [tl'|] eqn:E1; [|discriminate].
      inversion E; subst.
      destruct (IH _ eq_refl) as (l & x & Hl & ->).
      exists (h0 :: l), x. rewrite Hl. split; reflexivity.
Qed.

Lemma back_push_back_valued (hs hs' : list header_t) (v : span_t) :
  back_push_back hs v = Some hs' ->
  (forall h, In h (removelast hs) -> Header.value h <> []) ->
  forall h, In h hs' -> Header.value h <> [].
Proof.
  intros E Hv h Hin. apply back_push_back_Some in E.
  destruct E as (l & x & -> & ->). rewrite removelast_last in Hv.
  apply in_app_or in Hin. destruct Hin as [Hin | [<- | []]].
  - apply Hv, Hin.
  - cbn. intros C. apply app_eq_nil in C. destruct C as [_ C].
    discriminate C.
Qed.

(** [push_value] gives the last entry a value. *)
Lemma push_value_valued (v : span_t) (R R' : parse_headers_result_t) :
  valued_but_last R -> push_value v R = Some R' -> valued R'.
Proof.
  unfold push_value, valued_but_last, valued. intros Hv E.
  destruct (back_push_back (headers R) v) as [hs|] eqn:B; [|discriminate].
  inversion E; subst. cbn. eapply back_push_back_valued; eassumption.
Qed.

(** [new_header] opens an entry without a value. *)
Lemma new_header_valued_but_last (k : span_t)
    (R R' : parse_headers_result_t) :
  valued R -> new_header k R = Some R' -> valued_but_last R'.
Proof.
  unfold new_header, valued_but_last, valued. intros Hv E.
  inversion E; subst. cbn. rewrite removelast_last. exact Hv.
Qed.

Lemma valued_valued_but_last (R : parse_headers_result_t) :
  valued R -> valued_but_last R.
Proof.
  unfold valued, valued_but_last. intros Hv h Hin. apply Hv.
  destruct (headers R) as [|h0 tl]; [destruct Hin|].
  destruct (@exists_last _ (h0 :: tl)) as (l & x & E); [discriminate|].
  rewrite E in *. rewrite removelast_last in Hin.
  apply in_or_app. left. exact Hin.
Qed.

Lemma keyed_line_triple : triple valued keyed_line valued valued_but_last.
Proof.
  unfold keyed_line.
  eapply triple_bind with (Q := valued_but_last).
  - eapply triple_action with (Q := valued).
    + eapply triple_weaken; [apply (triple_stateless valued), key_stateless | | |];
        auto using valued_valued_but_last.
    + intros a st st'. apply new_header_valued_but_last.
  - intros _. eapply triple_bind with (Q := valued_but_last).
    + apply triple_stateless, stateless_kleene, sp_stateless.
    + intros _. eapply triple_bind with (Q := valued).
      * eapply triple_action with (Q := valued_but_last).
        -- apply triple_stateless, value_stateless.
        -- intros a st st' H E. eapply push_value_valued; eassumption.
      * intros _. eapply triple_weaken;
          [apply (triple_stateless valued), line_end_stateless | | |];
          auto using valued_valued_but_last.
Qed.

Lemma continuation_line_triple :
  triple valued_but_last continuation_line valued valued_but_last.
Proof.
  unfold continuation_line.
  eapply triple_bind with (Q := valued_but_last).
  - apply triple_stateless, stateless_plus, stateless_char_parser.
  - intros _. eapply triple_bind with (Q := valued).
    + eapply triple_action with (Q := valued_but_last).
      * apply triple_stateless, value_stateless.
      * intros a st st' H E. eapply push_value_valued; eassumption.
    + intros _. eapply triple_weaken;
        [apply (triple_stateless valued), line_end_stateless | | |];
        auto using valued_valued_but_last.
Qed.

Lemma header_triple : triple valued header valued valued_but_last.
Proof.
  unfold header. eapply triple_alt;
    [apply keyed_line_triple | apply continuation_line_triple].
Qed.

Lemma grammar_triple :
  triple valued grammar valued_but_last valued_but_last.
Proof.
  unfold grammar. eapply triple_bind with (Q := valued_but_last).
  - apply triple_plus, header_triple.
  - intros _. eapply triple_bind with (Q := valued_but_last).
    + apply triple_optional. eapply triple_action with (Q := valued_but_last).
      * apply triple_stateless, terminator_stateless.
      * intros a st st' H E. inversion E; subst. exact H.
    + intros _. apply triple_ret.
Qed.

(** X1.  In a header block that [parse_headers] returns, every entry but the
    last has a value; the last one may have none. *)
Lemma parse_headers_valued_but_last (buf : buffer) (input : span_t)
    (R : parse_headers_result_t) (input' : span_t) :
  parse_headers buf input = (Returned R, input') -> valued_but_last R.
Proof.
  intros E. apply parse_indirect_Returned in E.
  destruct E as (a & it' & E & _). unfold Qi.parse in E.
  assert (V0 : valued R0) by (intros h []).
  pose proof (@grammar_triple R0
                (mk_iter (span_begin input)
                   (span_bytes buf (span (span_begin input) (span_end input))))
                V0) as T.
  rewrite E in T. exact T.
Qed.

End HeaderFacts.

Section LeadingContinuation.
Import ParseHeaders.

(** A line that starts with a space or a tab has no key. *)
Lemma key_fails_on_blank (st : St) (it : iter) (c : ascii) (tl : list ascii) :
  rest it = c :: tl -> c = " "%char \/ c = TAB -> key st it = Failed st.
Proof.
  intros R Hc. destruct it as [p r]. cbn in R. subst r.
  destruct Hc; subst c; reflexivity.
Qed.

(** With no entry open, a continuation line cannot match: its value would
    be pushed on the last entry. *)
Lemma continuation_line_without_entry :
  triple (fun R => headers R = []) continuation_line
    (fun _ => False) (fun R => headers R = []).
Proof.
  unfold continuation_line.
  eapply triple_bind with (Q := fun R => headers R = []).
  - apply triple_stateless, stateless_plus, stateless_char_parser.
  - intros _. eapply triple_bind with (Q := fun _ => False).
    + eapply triple_action with (Q := fun R => headers R = []).
      * apply triple_stateless, value_stateless.
      * intros a st st' H E. unfold push_value in E. rewrite H in E.
        discriminate E.
    + intros _ st it [].
Qed.

(** X2.  When the input starts with a space or a tab, [parse_headers] returns
    no header block. *)
Lemma parse_headers_leading_blank_never_returns
    (buf : buffer) (input : span_t) (c : ascii) (tl : list ascii) :
  span_bytes buf input = c :: tl -> c = " "%char \/ c = TAB ->
  forall R input', parse_headers buf input <> (Returned R, input').
Proof.
  intros Hb Hc R input' E. apply parse_indirect_Returned in E.
  destruct E as (a & it' & E & _). unfold Qi.parse in E.
  assert (Hr : span_bytes buf (span (span_begin input) (span_end input))
               = c :: tl) by (destruct input; exact Hb).
  remember (mk_iter (span_begin input)
              (span_bytes buf (span (span_begin input) (span_end input))))
    as it eqn:Hit.
  assert (Ri : rest it = c :: tl) by (subst it; exact Hr).
  unfold grammar in E. apply bind_Matched in E.
  destruct E as (st1 & a1 & it1 & E & _).
  unfold plus in E. apply bind_Matched in E.
  destruct E as (st2 & a2 & it2 & E & _).
  unfold header, alt, keyed_line in E. unfold bind at 1 in E.
  unfold action at 1 in E. rewrite (key_fails_on_blank R0 it Ri Hc) in E.
  pose proof (@continuation_line_without_entry R0 it eq_refl) as T.
  rewrite E in T. exact T.
Qed.

End LeadingContinuation.

(* ================================================================== *)
(** ** The path grammar *)

Section PathFacts.
Variable directory_separator : ascii.
Variable extension_separator : ascii.

Lemma not_sep_defined (ch : ascii) :
  defined (difference (@char_ unit) (char_lit ch)).
Proof. apply defined_difference; apply defined_char_parser. Qed.

Lemma not_sep_consuming (ch : ascii) :
  consuming (difference (@char_ unit) (char_lit ch)).
Proof. apply consuming_difference, consuming_char_parser. Qed.

Lemma dirstr_total : total (ParsePath.dirstr directory_separator).
Proof.
  apply total_kleene; [apply not_sep_defined | apply not_sep_consuming].
Qed.

Lemma extstr_total : total (ParsePath.extstr extension_separator).
Proof.
  apply total_kleene; [apply not_sep_defined | apply not_sep_consuming].
Qed.

Lemma lit_char_Failed (ch : ascii) (st st' : unit) (it : iter) :
  lit_char ch st it = Failed st' ->
  forall tl, rest it <> ch :: tl.
Proof.
  unfold lit_char, bind, char_parser. intros E tl R. rewrite R in E.
  rewrite Ascii.eqb_refl in E. discriminate E.
Qed.

(** One round of the directory loop: it consumes, for the separator it
    ends before is not where it started unless it was taken first. *)
Lemma directory_segment_consuming :
  consuming (optional (ParsePath.dirsep directory_separator)
             >> ParsePath.dirstr directory_separator
             >> and_predicate (ParsePath.dirsep directory_separator)).
Proof.
  intros st it st' a it' E.
  apply bind_Matched in E. destruct E as (st1 & a1 & it1 & E1 & E).
  apply bind_Matched in E. destruct E as (st2 & a2 & it2 & E2 & E).
  assert (L2 : iter_le it1 it2).
  { eapply advancing_kleene; [|exact E2].
    apply consuming_advancing, not_sep_consuming. }
  unfold and_predicate in E.
  destruct (ParsePath.dirsep directory_separator st2 it2)
    as [st3 a3 it3| | |] eqn:E3; try discriminate.
  inversion E; subst. clear E.
  apply lit_char_Matched in E3. destruct E3 as (_ & _ & tl & R).
  unfold optional in E1.
  destruct (ParsePath.dirsep directory_separator st it)
    as [st4 a4 it4|st4| |] eqn:E4; try discriminate; inversion E1; subst.
  - destruct (consuming_lit_char (St:=unit) directory_separator _ _ E4)
      as [L1 P1].
    split; [eapply iter_le_trans; eassumption|].
    apply iter_le_pos in L2. lia.
  - split; [exact L2|].
    destruct L2 as (consumed & Rc & Pc).
    destruct consumed as [|c0 consumed]; [|simpl in Pc; lia].
    exfalso. simpl in Rc. rewrite R in Rc.
    exact (@lit_char_Failed directory_separator _ _ _ E4 tl Rc).
Qed.

Lemma extension_segment_consuming :
  consuming (ParsePath.extsep extension_separator
             >> ParsePath.extstr extension_separator
             >> and_predicate (ParsePath.extsep extension_separator)).
Proof.
  apply consuming_bind_l; [apply consuming_lit_char|].
  intros _. apply advancing_bind.
  - apply advancing_kleene, consuming_advancing, not_sep_consuming.
  - intros _. apply advancing_and_predicate.
Qed.

Lemma path_grammar_total :
  total (ParsePath.grammar directory_separator extension_separator).
Proof.
  unfold ParsePath.grammar.
  apply total_bind.
  { apply total_raw, total_kleene; [|apply directory_segment_consuming].
    apply defined_bind;
      [apply total_defined, total_optional, defined_lit_char|].
    intros _. apply defined_bind; [apply total_defined, dirstr_total|].
    intros _. apply defined_and_predicate, defined_lit_char. }
  intros directory. apply total_bind.
  { apply total_optional, defined_omit, defined_lit_char. }
  intros _. apply total_bind.
  { apply total_raw, total_bind; [apply extstr_total|]. intros _.
    apply total_kleene; [|apply extension_segment_consuming].
    apply defined_bind; [apply defined_lit_char|].
    intros _. apply defined_bind; [apply total_defined, extstr_total|].
    intros _. apply defined_and_predicate, defined_lit_char. }
  intros base. apply total_bind; [|intros; apply total_ret].
  apply total_optional, defined_bind; [apply defined_omit, defined_lit_char|].
  intros _. apply defined_raw, total_defined, total_kleene.
  - apply defined_char_parser.
  - apply consuming_char_parser.
Qed.

(** X3.  [parse_path] returns on every input: its grammar cannot fail. *)
Lemma parse_path_always_returns (buf : buffer) (input : span_t) :
  exists R input',
    parse_path buf input directory_separator extension_separator
    = (Returned R, input').
Proof.
  unfold parse_path, parse_direct, Qi.parse.
  destruct (path_grammar_total tt
              (mk_iter (span_begin input)
                 (span_bytes buf (span (span_begin input) (span_end input)))))
    as ([] & [[d b] x] & it' & E).
  rewrite E. eauto.
Qed.

End PathFacts.

(* ================================================================== *)
(** ** The header block *)

(** C1.  A returned header block can hold an entry with a key and no value
    at all.  On [A: 1 CR LF B: CR LF] the second line matches [key], so
    [new_header] opens the entry [B]; its value is then missing, the line
    fails, and the block ends after the first line with the entry [B] left
    in the result, its list of values empty. *)
Theorem parse_headers_leaves_valueless_entry :
  exists R input',
    parse_headers valueless_second_header (whole valueless_second_header)
    = (Returned R, input')
    /\ headers_text valueless_second_header R
       = [("A", ["1"]); ("B", [])]%string
    /\ (exists h, In h (headers R) /\ value h = [])
    /\ input' = span 6 10.
Proof.
  eexists. eexists. split; [vm_compute; reflexivity|].
  split; [vm_compute; reflexivity|].
  split; [|reflexivity].
  eexists. split; [right; left; reflexivity | reflexivity].
Qed.

(** C6.  When the first line is a continuation line the grammar does not
    fail: the line matches the second alternative of [header] and
    [push_value] takes [back()] of the empty list of headers, which is
    undefined; no [error] is thrown. *)
Theorem parse_headers_leading_continuation_undefined :
  parse_headers leading_continuation (whole leading_continuation)
  = (UndefinedBehaviour, whole leading_continuation).
Proof. vm_compute. reflexivity. Qed.

(** C7.  [A: 1 CR LF SP B: 2 CR LF CR LF] gives one entry, key [A], values
    [1] and [B: 2], with [terminated = true]. *)
Theorem parse_headers_folded_example :
  exists R input',
    parse_headers folded_headers (whole folded_headers) = (Returned R, input')
    /\ headers_text folded_headers R = [("A", ["1"; "B: 2"])]%string
    /\ terminated R = true
    /\ span_empty input' = true.
Proof.
  eexists. eexists. split; [vm_compute; reflexivity|].
  repeat split; vm_compute; reflexivity.
Qed.

(* ================================================================== *)
(** ** The path *)

(** C2, as the spec has it: [directory = /a/b/].  The code gives another
    directory. *)
Lemma parse_path_archive_directory_not_slash_terminated :
  ~ (exists R input',
       parse_path archive_path (whole archive_path) "/" "." = (Returned R, input')
       /\ span_string archive_path (Path.directory R) = "/a/b/"%string
       /\ span_string archive_path (Path.base R) = "archive.tar"%string
       /\ span_string archive_path (Path.extension R) = "gz"%string
       /\ span_string archive_path (Path.file R) = "archive.tar.gz"%string).
Proof.
  intros (R & input' & E & D & _).
  vm_compute in E. inversion E; subst. vm_compute in D. discriminate.
Qed.

(** C2, amended.  [parse_path] on [/a/b/archive.tar.gz] gives
    [directory = /a/b], without the last separator, which is consumed and
    left out; [base = archive.tar], [extension = gz] and
    [file = archive.tar.gz]. *)
Theorem parse_path_archive_example :
  exists R input',
    parse_path archive_path (whole archive_path) "/" "." = (Returned R, input')
    /\ span_string archive_path (Path.directory R) = "/a/b"%string
    /\ span_string archive_path (Path.base R) = "archive.tar"%string
    /\ span_string archive_path (Path.extension R) = "gz"%string
    /\ span_string archive_path (Path.file R) = "archive.tar.gz"%string
    /\ Path.file R = span (span_begin (Path.base R)) (span_end (Path.extension R))
    /\ span_empty input' = true.
Proof.
  eexists. eexists. split; [vm_compute; reflexivity|].
  repeat split; vm_compute; reflexivity.
Qed.

(* ================================================================== *)
(** ** The composites *)

(** C3.  With a CR LF terminator the raw line keeps the CR: the code takes
    one byte off the end of what the line grammar consumed, whatever the
    terminator was. *)
Theorem raw_line_keeps_cr_of_crlf :
  (exists R input',
     parse_request crlf_request (whole crlf_request) = (Returned R, input')
     /\ span_string crlf_request (Request.raw_request_line R)
        = ("GET / HTTP/1.1" ++ cr)%string)
  /\ (exists R input',
     parse_response crlf_response (whole crlf_response) = (Returned R, input')
     /\ span_string crlf_response (Response.raw_response_line R)
        = ("HTTP/1.1 200 OK" ++ cr)%string).
Proof.
  split; eexists; eexists; (split; [vm_compute; reflexivity|]);
    vm_compute; reflexivity.
Qed.

Lemma parse_headers_position (buf : buffer) (input : span_t) R input' :
  span_wf buf input ->
  parse_headers buf input = (Returned R, input') ->
  span_end input' = span_end input
  /\ span_begin input < span_begin input' <= span_end input.
Proof.
  intros Hwf E. apply parse_indirect_Returned in E.
  destruct E as (a & it' & E & ->). cbn [span_begin span_end].
  pose proof (@parse_matched_position _ _ buf input _ _ _ _ _ Hwf
                (consuming_advancing headers_grammar_consuming) E).
  pose proof (@parse_matched_strict _ _ buf input _ _ _ _ _
                headers_grammar_consuming E).
  lia.
Qed.

Lemma parse_direct_position {Result} name (buf : buffer) (input : span_t)
    (g : parser unit Result) R input' :
  span_wf buf input -> consuming g ->
  parse_direct name buf input g = (Returned R, input') ->
  span_end input' = span_end input
  /\ span_begin input < span_begin input' <= span_end input.
Proof.
  intros Hwf Hg E. apply parse_direct_Returned in E.
  destruct E as (it' & E & ->). cbn [span_begin span_end].
  pose proof (@parse_matched_position _ _ buf input _ _ _ _ _ Hwf
                (consuming_advancing Hg) E).
  pose proof (@parse_matched_strict _ _ buf input _ _ _ _ _ Hg E).
  lia.
Qed.

Lemma parse_request_Returned (buf : buffer) (input : span_t) R input' :
  parse_request buf input = (Returned R, input') ->
  exists input1,
    parse_request_line buf input = (Returned (Request.request_line R), input1)
    /\ Request.raw_request_line R
       = span (span_begin input) (span_begin input1 - 1)
    /\ parse_headers buf input1 = (Returned (Request.headers R), input').
Proof.
  unfold parse_request.
  destruct (parse_request_line buf input) as [[rl|e| |] input1] eqn:EL;
    try discriminate.
  destruct (parse_uri buf (RequestLine.uri rl)) as [[u|e| |] uri'];
    try discriminate.
  destruct (negb (span_empty uri')); try discriminate.
  destruct (parse_headers buf input1) as [[h|e| |] input2] eqn:EH;
    try discriminate.
  intros E; inversion E; subst. exists input1. cbn. auto.
Qed.

Lemma parse_response_Returned (buf : buffer) (input : span_t) R input' :
  parse_response buf input = (Returned R, input') ->
  exists input1,
    parse_response_line buf input
    = (Returned (Response.response_line R), input1)
    /\ Response.raw_response_line R
       = span (span_begin input) (span_begin input1 - 1)
    /\ parse_headers buf input1 = (Returned (Response.headers R), input').
Proof.
  unfold parse_response.
  destruct (parse_response_line buf input) as [[rl|e| |] input1] eqn:EL;
    try discriminate.
  destruct (parse_headers buf input1) as [[h|e| |] input2] eqn:EH;
    try discriminate.
  intros E; inversion E; subst. exists input1. cbn. auto.
Qed.

(** C4, as the spec has it, on a request whose line ends with a lone LF:
    the raw line followed by the header region is not a prefix of the
    input, the LF between them is missing. *)
Lemma raw_line_and_headers_not_a_prefix :
  exists R input1 input',
    parse_request lf_request (whole lf_request) = (Returned R, input')
    /\ parse_request_line lf_request (whole lf_request)
       = (Returned (Request.request_line R), input1)
    /\ ~ is_prefix
          (span_bytes lf_request (Request.raw_request_line R)
           ++ span_bytes lf_request (consumed_region input1 input'))
          (span_bytes lf_request (whole lf_request)).
Proof.
  eexists. eexists. eexists.
  split; [vm_compute; reflexivity|]. split; [vm_compute; reflexivity|].
  intros [tail H]. vm_compute in H. discriminate.
Qed.

Lemma whole_wf (buf : buffer) : span_wf buf (whole buf).
Proof. unfold span_wf, whole. cbn. lia. Qed.


Section AuthorityClaims.
Import Authority ParseAuthority.

(** The iterator [parse_indirect] starts the grammar at. *)
Lemma parse_authority_run (buf : buffer) (input : span_t) :
  exists R it',
    parse_authority buf input = (Returned R, span (pos it') (span_end input))
    /\ span_begin input <= pos it'
    /\ match Qi.parse buf (span_begin input) (span_end input)
               userinfo_branch R0 with
       | Matched st1 _ _ =>
           username R = username st1 /\ password R = password st1
           /\ host R = host st1 /\ span_begin input < pos it'
       | _ =>
           username R = span_default /\ password R = span_default
           /\ span_begin (host R) = span_begin input
           /\ (pos it' = span_begin input ->
               R = Authority.mk span_default span_default
                     (span (span_begin input) (span_begin input))
                     span_default)
       end.
Proof.
  unfold parse_authority, parse_indirect, Qi.parse.
  destruct (grammar_run (mk_iter (span_begin input)
              (span_bytes buf (span (span_begin input) (span_end input)))))
    as (R & it' & E & L & H).
  rewrite E. exists R, it'. split; [reflexivity|].
  split; [apply iter_le_pos in L; exact L | exact H].
Qed.

(** C5, as the spec has it: no result with an empty [username] and a
    password.  On [:pass@host] the first alternative matches with an empty
    word for the user name. *)
Lemma empty_username_with_password :
  exists R input',
    parse_authority password_only_authority (whole password_only_authority)
    = (Returned R, input')
    /\ span_empty (username R) = true
    /\ span_empty (password R) = false
    /\ span_string password_only_authority (password R) = "pass"%string
    /\ span_string password_only_authority (host R) = "host"%string.
Proof.
  eexists. eexists. split; [vm_compute; reflexivity|].
  repeat split; vm_compute; reflexivity.
Qed.




(** C9.  [parse_authority] returns on every input and never throws; when
    it consumes nothing, as on the empty input, the result is an empty
    host and every other span empty too. *)
Theorem parse_authority_always_returns (buf : buffer) (input : span_t) :
  exists R input',
    parse_authority buf input = (Returned R, input')
    /\ span_end input' = span_end input
    /\ (span_begin input' = span_begin input ->
        host R = span (span_begin input) (span_begin input)
        /\ span_empty (username R) = true
        /\ span_empty (password R) = true
        /\ span_empty (host R) = true
        /\ span_empty (port R) = true).
Proof.
  destruct (parse_authority_run buf input) as (R & it' & E & _ & H).
  exists R. eexists. split; [exact E|]. split; [reflexivity|].
  cbn [span_begin]. intros Q.
  destruct (Qi.parse buf (span_begin input) (span_end input)
              userinfo_branch R0) as [st1 u it1|st1| |].
  - destruct H as (_ & _ & _ & P). lia.
  - destruct H as (_ & _ & _ & N). rewrite (N Q). cbn.
    rewrite Nat.eqb_refl. auto.
  - destruct H as (_ & _ & _ & N). rewrite (N Q). cbn.
    rewrite Nat.eqb_refl. auto.
  - destruct H as (_ & _ & _ & N). rewrite (N Q). cbn.
    rewrite Nat.eqb_refl. auto.
Qed.

Lemma parse_authority_always_returns_witness :
  exists R input',
    parse_authority [] (whole []) = (Returned R, input')
    /\ span_end input' = 0
    /\ (span_begin input' = 0 ->
        host R = span 0 0
        /\ span_empty (username R) = true
        /\ span_empty (password R) = true
        /\ span_empty (host R) = true
        /\ span_empty (port R) = true).
Proof. exact (parse_authority_always_returns [] (whole [])). Defined.

End AuthorityClaims.

(* ================================================================== *)
(** ** A failed parse and the input cursor *)

(** C10.  When [parse_headers], [parse_request_line],
    [parse_response_line], [parse_uri] or [parse_path] throws, the caller's
    input span is what it was before the call. *)
Theorem failed_parse_leaves_input (buf : buffer) (input : span_t) :
  (forall e input',
     parse_headers buf input = (Thrown e, input') -> input' = input)
  /\ (forall e input',
     parse_request_line buf input = (Thrown e, input') -> input' = input)
  /\ (forall e input',
     parse_response_line buf input = (Thrown e, input') -> input' = input)
  /\ (forall e input',
     parse_uri buf input = (Thrown e, input') -> input' = input)
  /\ (forall dsep esep e input',
     parse_path buf input dsep esep = (Thrown e, input') -> input' = input).
Proof.
  repeat split; intros until input'.
  - unfold parse_headers, parse_indirect.
    destruct (Qi.parse _ _ _ _ _); intros E; inversion E; reflexivity.
  - unfold parse_request_line, parse_direct.
    destruct (Qi.parse _ _ _ _ _); intros E; inversion E; reflexivity.
  - unfold parse_response_line, parse_direct.
    destruct (Qi.parse _ _ _ _ _); intros E; inversion E; reflexivity.
  - unfold parse_uri.
    destruct (Qi.parse _ _ _ _ _); intros E; inversion E; reflexivity.
  - unfold parse_path, parse_direct.
    destruct (Qi.parse _ _ _ _ _) as [st [[d b] x] it| | |];
      intros E; inversion E; reflexivity.
Qed.

Lemma failed_parse_leaves_input_witness :
  snd (parse_headers [] (whole [])) = whole []
  /\ snd (parse_request_line one_word_line (whole one_word_line))
     = whole one_word_line
  /\ snd (parse_response_line one_word_line (whole one_word_line))
     = whole one_word_line
  /\ snd (parse_uri spaced_uri (whole spaced_uri)) = whole spaced_uri.
Proof.
  split; [|split; [|split]].
  - eapply (proj1 (failed_parse_leaves_input [] (whole []))).
    vm_compute. reflexivity.
  - eapply (proj1 (proj2
      (failed_parse_leaves_input one_word_line (whole one_word_line)))).
    vm_compute. reflexivity.
  - eapply (proj1 (proj2 (proj2
      (failed_parse_leaves_input one_word_line (whole one_word_line))))).
    vm_compute. reflexivity.
  - eapply (proj1 (proj2 (proj2 (proj2
      (failed_parse_leaves_input spaced_uri (whole spaced_uri)))))).
    vm_compute. reflexivity.
Defined.

(* ================================================================== *)
(** ** Runs of bytes and the loops over character parsers *)

Lemma take_drop_while (test : ascii -> bool) (l : list ascii) :
  take_while test l ++ drop_while test l = l.
Proof.
  induction l as [|c tl IH]; simpl; [reflexivity|].
  destruct (test c); simpl; [rewrite IH|]; reflexivity.
Qed.

Lemma take_while_all (test : ascii -> bool) (l : list ascii) :
  Forall (fun c => test c = true) (take_while test l).
Proof.
  induction l as [|c tl IH]; simpl; [constructor|].
  destruct (test c) eqn:T; constructor; assumption.
Qed.

Lemma drop_while_stops (test : ascii -> bool) (l : list ascii) :
  stops_at test (drop_while test l).
Proof.
  induction l as [|c tl IH]; simpl; [exact I|].
  destruct (test c) eqn:T; [exact IH | exact T].
Qed.

Lemma take_while_length (test : ascii -> bool) (l : list ascii) :
  length (take_while test l) + length (drop_while test l) = length l.
Proof. rewrite <- length_app, take_drop_while. reflexivity. Qed.

Lemma drop_while_whole (test : ascii -> bool) (l : list ascii) :
  Forall (fun c => test c = true) l -> drop_while test l = [].
Proof.
  induction 1 as [|c tl T _ IH]; simpl; [reflexivity|].
  rewrite T. exact IH.
Qed.

Lemma drop_while_suffix (test : ascii -> bool) (P : ascii -> Prop)
    (l : list ascii) :
  Forall P l -> Forall P (drop_while test l).
Proof.
  intros H. rewrite <- (take_drop_while test l) in H.
  apply Forall_app in H. tauto.
Qed.

Lemma take_while_firstn (test : ascii -> bool) (l : list ascii) :
  firstn (length (take_while test l)) l = take_while test l.
Proof.
  rewrite <- (take_drop_while test l) at 2.
  rewrite firstn_app, Nat.sub_diag, firstn_all. simpl.
  apply app_nil_r.
Qed.

Lemma skip_le (test : ascii -> bool) (it : iter) : iter_le it (skip test it).
Proof.
  exists (take_while test (rest it)). unfold skip. simpl.
  split; [symmetry; apply take_drop_while | reflexivity].
Qed.

Section CharLoops.
Variable St : Type.

Lemma difference_char_like (set : string) :
  char_like (outside set) (difference (@char_ St) (char_set set)).
Proof.
  intros st it. unfold difference, char_, char_set, char_parser, outside.
  destruct (rest it) as [|c tl]; [reflexivity|].
  destruct (ischar c); destruct (chset set c); reflexivity.
Qed.

Lemma char_set_char_like (set : string) :
  char_like (inside set) (@char_set St set).
Proof. intros st it. reflexivity. Qed.

Lemma char_char_like : char_like ischar (@char_ St).
Proof. intros st it. reflexivity. Qed.

(** A loop over a character parser takes the longest run of bytes that
    pass the test. *)
Lemma kleene_loop_char (test : ascii -> bool) (p : parser St ascii) :
  char_like test p ->
  forall fuel st it,
    length (rest it) < fuel ->
    kleene_loop fuel p st it
    = Matched st (take_while test (rest it)) (skip test it).
Proof.
  intros Hp. induction fuel as [|n IH]; intros st it Hn; [lia|].
  simpl. rewrite Hp. unfold char_parser, skip.
  destruct it as [q r]. simpl in *. destruct r as [|c tl]; simpl.
  - rewrite Nat.add_0_r. reflexivity.
  - destruct (test c) eqn:T; simpl.
    + assert (L : (length tl <? S (length tl)) = true)
        by (apply Nat.ltb_lt; lia).
      rewrite L. unfold advance. simpl.
      rewrite IH by (simpl in *; lia). unfold skip. simpl.
      f_equal. f_equal. lia.
    + rewrite Nat.add_0_r. reflexivity.
Qed.

Lemma kleene_char (test : ascii -> bool) (p : parser St ascii)
    (st : St) (it : iter) :
  char_like test p ->
  kleene p st it = Matched st (take_while test (rest it)) (skip test it).
Proof. intros Hp. unfold kleene. apply kleene_loop_char; [exact Hp | lia]. Qed.

Lemma plus_char (test : ascii -> bool) (p : parser St ascii)
    (st : St) (it : iter) :
  char_like test p ->
  plus p st it
  = match rest it with
    | c :: _ =>
        if test c then Matched st (take_while test (rest it)) (skip test it)
        else Failed st
    | [] => Failed st
    end.
Proof.
  intros Hp. unfold plus, bind. rewrite Hp. unfold char_parser.
  destruct it as [q r]. simpl. destruct r as [|c tl]; [reflexivity|].
  destruct (test c) eqn:T; [|reflexivity].
  rewrite (kleene_char _ _ Hp). unfold ret, skip, advance. simpl.
  rewrite T. simpl. f_equal. f_equal. lia.
Qed.

Lemma raw_kleene_char (test : ascii -> bool) (p : parser St ascii)
    (st : St) (it : iter) :
  char_like test p ->
  raw (kleene p) st it
  = Matched st (span (pos it) (pos (skip test it))) (skip test it).
Proof. intros Hp. unfold raw. rewrite (kleene_char _ _ Hp). reflexivity. Qed.

Lemma raw_plus_char (test : ascii -> bool) (p : parser St ascii)
    (st : St) (it : iter) :
  char_like test p ->
  raw (plus p) st it
  = match rest it with
    | c :: _ =>
        if test c
        then Matched st (span (pos it) (pos (skip test it))) (skip test it)
        else Failed st
    | [] => Failed st
    end.
Proof.
  intros Hp. unfold raw. rewrite (plus_char _ _ Hp).
  destruct (rest it) as [|c tl]; [reflexivity|].
  destruct (test c); reflexivity.
Qed.

Lemma omit_kleene_char (test : ascii -> bool) (p : parser St ascii)
    (st : St) (it : iter) :
  char_like test p ->
  omit (kleene p) st it = Matched st tt (skip test it).
Proof.
  intros Hp. unfold omit, bind. rewrite (kleene_char _ _ Hp). reflexivity.
Qed.

End CharLoops.

(* ================================================================== *)
(** ** Iterators and the buffer *)

Lemma iter_in_start (buf : buffer) (input : span_t) :
  span_wf buf input ->
  iter_in buf (span_end input)
    (mk_iter (span_begin input)
       (span_bytes buf (span (span_begin input) (span_end input)))).
Proof. intros [H1 H2]. unfold iter_in. simpl. auto. Qed.

Lemma iter_in_length (buf : buffer) (last : nat) (it : iter) :
  iter_in buf last it -> pos it + length (rest it) = last.
Proof.
  intros (H1 & H2 & H3). rewrite H3.
  rewrite (@span_bytes_length buf (span (pos it) last)); [simpl; lia|].
  unfold span_wf. simpl. lia.
Qed.

Lemma app_same_length {A} (a b c d : list A) :
  length a = length b -> a ++ c = b ++ d -> a = b /\ c = d.
Proof.
  revert b. induction a as [|x a IH]; intros [|y b] L E;
    try discriminate L.
  - split; [reflexivity | exact E].
  - simpl in *. inversion E; subst.
    destruct (IH b) as [-> ->]; [lia | assumption | split; reflexivity].
Qed.

(** Moving an iterator forward keeps it in the buffer, and the span between
    the two positions holds the bytes moved over. *)
Lemma iter_in_le (buf : buffer) (last : nat) (it it' : iter) :
  iter_in buf last it -> iter_le it it' ->
  iter_in buf last it'
  /\ span_bytes buf (span (pos it) (pos it')) ++ rest it' = rest it.
Proof.
  intros Hin Hle. pose proof (iter_in_length Hin) as Len.
  pose proof (iter_le_bound Hle) as B.
  destruct Hin as (H1 & H2 & H3). destruct Hle as (consumed & Hc & Hp).
  assert (P' : pos it' <= last) by lia.
  assert (S1 : span_bytes buf (span (pos it) (pos it'))
               ++ span_bytes buf (span (pos it') last)
               = span_bytes buf (span (pos it) last))
    by (apply span_bytes_app; lia).
  assert (L1 : length (span_bytes buf (span (pos it) (pos it')))
               = length consumed).
  { rewrite (@span_bytes_length buf (span (pos it) (pos it')));
      [simpl; lia | unfold span_wf; simpl; lia]. }
  rewrite <- H3, Hc in S1.
  destruct (app_same_length _ _ _ _ L1 S1) as [E1 E2].
  split; [unfold iter_in; auto|].
  rewrite E1, Hc. reflexivity.
Qed.

Lemma iter_in_span (buf : buffer) (last : nat) (it it' : iter) :
  iter_in buf last it -> iter_le it it' ->
  forall consumed, rest it = consumed ++ rest it' ->
  span_bytes buf (span (pos it) (pos it')) = consumed.
Proof.
  intros Hin Hle consumed Hc.
  destruct (iter_in_le Hin Hle) as [_ E]. rewrite Hc in E.
  apply app_inv_tail in E. exact E.
Qed.

Lemma iter_in_skip (buf : buffer) (last : nat) (test : ascii -> bool)
    (it : iter) :
  iter_in buf last it ->
  iter_in buf last (skip test it)
  /\ span_bytes buf (span (pos it) (pos (skip test it)))
     = take_while test (rest it).
Proof.
  intros Hin. pose proof (skip_le test it) as L.
  split; [apply (iter_in_le Hin L)|].
  apply (iter_in_span Hin L). unfold skip. simpl.
  symmetry. apply take_drop_while.
Qed.

Lemma all_bytes_skip (buf : buffer) (last : nat) (test : ascii -> bool)
    (it : iter) :
  iter_in buf last it ->
  all_bytes test buf (span (pos it) (pos (skip test it))).
Proof.
  intros Hin. unfold all_bytes.
  rewrite (proj2 (iter_in_skip test Hin)). apply take_while_all.
Qed.


Lemma iter_in_head (buf : buffer) (last : nat) (it : iter) (c : ascii)
    (tl : list ascii) :
  iter_in buf last it -> rest it = c :: tl ->
  nth_error buf (pos it) = Some c /\ pos it < last.
Proof.
  intros Hin R. pose proof (iter_in_length Hin) as Len.
  destruct Hin as (H1 & H2 & H3). rewrite R in Len, H3. simpl in Len.
  split; [|lia].
  unfold span_bytes in H3. cbn [span_begin span_end] in H3.
  assert (E : nth_error (firstn (last - pos it) (skipn (pos it) buf)) 0
              = Some c) by (rewrite <- H3; reflexivity).
  rewrite nth_error_firstn in E.
  destruct (0 <? last - pos it) eqn:B; [|discriminate].
  rewrite nth_error_skipn, Nat.add_0_r in E. exact E.
Qed.


(** Moving over one byte. *)
Lemma iter_in_advance (buf : buffer) (last : nat) (it : iter) (c : ascii)
    (tl : list ascii) :
  iter_in buf last it -> rest it = c :: tl ->
  iter_in buf last (advance it)
  /\ span_bytes buf (span (pos it) (pos (advance it))) = [c].
Proof.
  intros Hin R. destruct (iter_le_advance it R) as [L _].
  split; [apply (iter_in_le Hin L)|].
  apply (iter_in_span Hin L). unfold advance. simpl. rewrite R. reflexivity.
Qed.


Lemma span_bytes_empty (buf : buffer) (b : nat) :
  span_bytes buf (span b b) = [].
Proof. unfold span_bytes. cbn [span_begin span_end]. rewrite Nat.sub_diag. reflexivity. Qed.


Lemma all_bytes_default (buf : buffer) (test : ascii -> bool) :
  all_bytes test buf span_default.
Proof. unfold all_bytes, span_bytes. simpl. constructor. Qed.

(* ================================================================== *)
(** ** The line grammars, step by step *)

Section LineRuns.

Lemma blanks_run (St : Type) (st : St) (it : iter) :
  omit (kleene sp) st it = Matched st tt (skip blank it).
Proof. apply omit_kleene_char, char_set_char_like. Qed.

Lemma line_word_run (st : unit) (it : iter) :
  ParseLine.word st it
  = match rest it with
    | c :: _ =>
        if word_byte c
        then Matched st (span (pos it) (pos (skip word_byte it)))
               (skip word_byte it)
        else Failed st
    | [] => Failed st
    end.
Proof. apply raw_plus_char, difference_char_like. Qed.

Lemma skip_strict (test : ascii -> bool) (it : iter) (c : ascii)
    (tl : list ascii) :
  rest it = c :: tl -> test c = true -> pos it < pos (skip test it).
Proof.
  intros R T. unfold skip. simpl. rewrite R. simpl. rewrite T. simpl. lia.
Qed.

Lemma skip_stops (test : ascii -> bool) (it : iter) :
  stops_at test (rest (skip test it)).
Proof. unfold skip. simpl. apply drop_while_stops. Qed.

(** Blanks skipped before a byte that the previous run stopped at: when a
    word follows a word, at least one blank separates them. *)
Lemma blank_between_words (it : iter) (c : ascii) (tl : list ascii) :
  stops_at word_byte (rest it) ->
  rest (skip blank it) = c :: tl -> word_byte c = true ->
  pos it < pos (skip blank it).
Proof.
  intros S R T. unfold skip in *. simpl in *.
  destruct (rest it) as [|c0 tl0]; simpl in *; [discriminate|].
  destruct (blank c0); simpl in *; [lia|].
  inversion R; subst. congruence.
Qed.

Lemma line_end_Matched (St : Type) (st st' : St) (u : unit) (it it' : iter) :
  (eol <|> eoi) st it = Matched st' u it' ->
  iter_le it it'
  /\ (rest it = [] /\ it' = it
      \/ exists c tl, rest it = c :: tl /\ (c = CR \/ c = LF)
                      /\ pos it < pos it').
Proof.
  intros E. split.
  { eapply advancing_alt; [apply consuming_advancing, consuming_eol
                          | apply advancing_eoi | exact E]. }
  unfold alt in E.
  destruct (eol st it) as [st1 a1 it1|st1| |] eqn:E1; try discriminate.
  - inversion E; subst. right.
    destruct (@consuming_eol St _ _ _ _ _ E1) as [_ P].
    unfold eol in E1. destruct (rest it) as [|c tl] eqn:R.
    + simpl in E1. rewrite R in E1. discriminate.
    + exists c, tl. split; [reflexivity|]. split; [|exact P].
      destruct (Ascii.eqb c CR) eqn:C; [left; apply Ascii.eqb_eq; exact C|].
      rewrite R in E1. destruct (Ascii.eqb c LF) eqn:L;
        [right; apply Ascii.eqb_eq; exact L | discriminate].
  - unfold eoi in E. destruct (rest it); [|discriminate].
    inversion E; subst. left. split; reflexivity.
Qed.

(** What a match of the request line is made of. *)
Lemma request_line_Matched (st st' : unit) (it it' : iter)
    (R : RequestLine.parse_request_line_result_t) :
  ParseLine.request_line st it = Matched st' R it' ->
  let it1 := skip blank it in
  let it2 := skip word_byte it1 in
  let it3 := skip blank it2 in
  let it4 := skip word_byte it3 in
  let it5 := skip blank it4 in
  exists it6,
    pos it1 < pos it2 /\ pos it2 < pos it3 /\ pos it3 < pos it4
    /\ RequestLine.method R = span (pos it1) (pos it2)
    /\ RequestLine.uri R = span (pos it3) (pos it4)
    /\ (RequestLine.version R = span_default /\ it6 = it5
        \/ RequestLine.version R = span (pos it5) (pos it6)
           /\ it6 = skip word_byte it5
           /\ pos it4 < pos it5 /\ pos it5 < pos it6)
    /\ (eol <|> eoi) st it6 = Matched st' tt it'.
Proof.
  intros E. cbv zeta. unfold ParseLine.request_line in E.
  unfold bind at 1 in E. rewrite blanks_run in E.
  unfold bind at 1 in E. rewrite line_word_run in E.
  destruct (rest (skip blank it)) as [|c1 tl1] eqn:R1; [discriminate|].
  destruct (word_byte c1) eqn:T1; [|discriminate].
  unfold bind at 1 in E. rewrite blanks_run in E.
  unfold bind at 1 in E. rewrite line_word_run in E.
  destruct (rest (skip blank (skip word_byte (skip blank it))))
    as [|c3 tl3] eqn:R3; [discriminate|].
  destruct (word_byte c3) eqn:T3; [|discriminate].
  unfold bind at 1 in E. rewrite blanks_run in E.
  unfold bind at 1 in E. unfold optional in E. rewrite line_word_run in E.
  pose proof (skip_strict word_byte _ R1 T1) as P1.
  pose proof (blank_between_words _ (skip_stops word_byte _) R3 T3) as P2.
  pose proof (skip_strict word_byte _ R3 T3) as P3.
  destruct (rest (skip blank (skip word_byte (skip blank
              (skip word_byte (skip blank it)))))) as [|c5 tl5] eqn:R5.
  - unfold omit, bind, ret in E.
    destruct ((eol <|> eoi) st _) as [st7 [] it7| | |] eqn:E7;
      try discriminate.
    inversion E; subst. eexists. repeat split; try eassumption.
    left. split; reflexivity.
  - destruct (word_byte c5) eqn:T5.
    + unfold omit, bind, ret in E.
      destruct ((eol <|> eoi) st _) as [st7 [] it7| | |] eqn:E7;
        try discriminate.
      inversion E; subst. eexists. repeat split; try eassumption.
      right. split; [reflexivity|]. split; [reflexivity|].
      split; [|apply (skip_strict word_byte _ R5 T5)].
      apply (blank_between_words _ (skip_stops word_byte _) R5 T5).
    + unfold omit, bind, ret in E.
      destruct ((eol <|> eoi) st _) as [st7 [] it7| | |] eqn:E7;
        try discriminate.
      inversion E; subst. eexists. repeat split; try eassumption.
      left. split; reflexivity.
Qed.

End LineRuns.

Section ResponseRun.

Lemma message_run (st : unit) (it : iter) :
  raw (kleene (difference char_ (char_set (cr ++ lf)%string))) st it
  = Matched st (span (pos it) (pos (skip line_byte it))) (skip line_byte it).
Proof. apply raw_kleene_char, difference_char_like. Qed.

(** What a match of the response line is made of. *)
Lemma response_line_Matched (st st' : unit) (it it' : iter)
    (R : ResponseLine.parse_response_line_result_t) :
  ParseLine.response_line st it = Matched st' R it' ->
  let it1 := skip blank it in
  let it2 := skip word_byte it1 in
  let it3 := skip blank it2 in
  let it4 := skip word_byte it3 in
  let it5 := skip blank it4 in
  let it6 := skip line_byte it5 in
  pos it1 < pos it2 /\ pos it2 < pos it3 /\ pos it3 < pos it4
  /\ ResponseLine.version R = span (pos it1) (pos it2)
  /\ ResponseLine.status R = span (pos it3) (pos it4)
  /\ ResponseLine.message R = span (pos it5) (pos it6)
  /\ (eol <|> eoi) st it6 = Matched st' tt it'.
Proof.
  intros E. cbv zeta. unfold ParseLine.response_line in E.
  unfold bind at 1 in E. rewrite blanks_run in E.
  unfold bind at 1 in E. rewrite line_word_run in E.
  destruct (rest (skip blank it)) as [|c1 tl1] eqn:R1; [discriminate|].
  destruct (word_byte c1) eqn:T1; [|discriminate].
  unfold bind at 1 in E. rewrite blanks_run in E.
  unfold bind at 1 in E. rewrite line_word_run in E.
  destruct (rest (skip blank (skip word_byte (skip blank it))))
    as [|c3 tl3] eqn:R3; [discriminate|].
  destruct (word_byte c3) eqn:T3; [|discriminate].
  unfold bind at 1 in E. rewrite blanks_run in E.
  unfold bind at 1 in E. rewrite message_run in E.
  pose proof (skip_strict word_byte _ R1 T1) as P1.
  pose proof (blank_between_words _ (skip_stops word_byte _) R3 T3) as P2.
  pose proof (skip_strict word_byte _ R3 T3) as P3.
  unfold omit, bind, ret in E.
  destruct ((eol <|> eoi) st _) as [st7 [] it7| | |] eqn:E7;
    try discriminate.
  inversion E; subst. repeat split; assumption.
Qed.

End ResponseRun.

(** X6.  Where the fields of a parsed response line lie: [version] and [status]
    are not empty and at least one byte apart, [message] follows [status]
    and may be empty, and it runs to the end of the line: it ends at the
    end of the input, or at a CR or LF that the parse consumed. *)
Theorem response_line_layout (buf : buffer) (input : span_t)
    (R : ResponseLine.parse_response_line_result_t) (input' : span_t) :
  span_wf buf input ->
  parse_response_line buf input = (Returned R, input') ->
  span_begin input <= span_begin (ResponseLine.version R)
  /\ span_begin (ResponseLine.version R) < span_end (ResponseLine.version R)
  /\ span_end (ResponseLine.version R) < span_begin (ResponseLine.status R)
  /\ span_begin (ResponseLine.status R) < span_end (ResponseLine.status R)
  /\ span_end (ResponseLine.status R) <= span_begin (ResponseLine.message R)
  /\ span_begin (ResponseLine.message R) <= span_end (ResponseLine.message R)
  /\ (span_end (ResponseLine.message R) = span_end input
      /\ span_begin input' = span_end input
      \/ exists c,
           nth_error buf (span_end (ResponseLine.message R)) = Some c
           /\ (c = CR \/ c = LF)
           /\ span_end (ResponseLine.message R) < span_begin input').
Proof.
  intros Hwf E. apply parse_direct_Returned in E.
  destruct E as (it' & E & ->). unfold Qi.parse in E.
  apply response_line_Matched in E. cbv zeta in E.
  destruct E as (P1 & P2 & P3 & -> & -> & -> & E7).
  pose proof (iter_in_start Hwf) as I0.
  set (it0 := mk_iter (span_begin input)
                (span_bytes buf (span (span_begin input) (span_end input))))
    in *.
  pose proof (proj1 (iter_in_skip blank I0)) as I1.
  pose proof (proj1 (iter_in_skip word_byte I1)) as I2.
  pose proof (proj1 (iter_in_skip blank I2)) as I3.
  pose proof (proj1 (iter_in_skip word_byte I3)) as I4.
  pose proof (proj1 (iter_in_skip blank I4)) as I5.
  pose proof (proj1 (iter_in_skip line_byte I5)) as I6.
  pose proof (iter_le_pos (skip_le blank it0)) as P0. cbn [pos it0] in P0.
  pose proof (iter_le_pos (skip_le blank
     (skip word_byte (skip blank (skip word_byte (skip blank it0)))))) as P4.
  pose proof (iter_le_pos (skip_le line_byte (skip blank
     (skip word_byte (skip blank (skip word_byte (skip blank it0)))))))
    as P5.
  apply line_end_Matched in E7. destruct E7 as [L7 C7].
  cbn [span_begin span_end].
  repeat (split; [lia|]).
  destruct C7 as [[R6 ->] | (c & tl & R6 & Hc & P7)].
  - left. pose proof (iter_in_length I6) as Len. rewrite R6 in Len.
    cbn [length] in Len. lia.
  - right. exists c. destruct (iter_in_head I6 R6) as [N _]. auto.
Qed.

Lemma response_line_layout_witness :
  exists c,
    nth_error crlf_response 15 = Some c /\ (c = CR \/ c = LF) /\ 15 < 17.
Proof.
  destruct (@response_line_layout crlf_response (whole crlf_response)
              (ResponseLine.mk (span 0 8) (span 9 12) (span 13 15))
              (span 17 23) (whole_wf crlf_response) eq_refl)
    as (_ & _ & _ & _ & _ & _ & [[H _] | H]).
  - discriminate H.
  - exact H.
Defined.

Lemma response_line_fields (buf : buffer) (input : span_t)
    (R : ResponseLine.parse_response_line_result_t) (input' : span_t) :
  span_wf buf input ->
  parse_response_line buf input = (Returned R, input') ->
  all_bytes word_byte buf (ResponseLine.version R)
  /\ all_bytes word_byte buf (ResponseLine.status R)
  /\ all_bytes line_byte buf (ResponseLine.message R)
  /\ stops_at blank (span_bytes buf (ResponseLine.message R)).
Proof.
  intros Hwf E. apply parse_direct_Returned in E.
  destruct E as (it' & E & ->). unfold Qi.parse in E.
  apply response_line_Matched in E. cbv zeta in E.
  destruct E as (P1 & P2 & P3 & -> & -> & -> & E7).
  pose proof (iter_in_start Hwf) as I0.
  set (it0 := mk_iter (span_begin input)
                (span_bytes buf (span (span_begin input) (span_end input))))
    in *.
  pose proof (proj1 (iter_in_skip blank I0)) as I1.
  pose proof (proj1 (iter_in_skip word_byte I1)) as I2.
  pose proof (proj1 (iter_in_skip blank I2)) as I3.
  pose proof (proj1 (iter_in_skip word_byte I3)) as I4.
  pose proof (proj1 (iter_in_skip blank I4)) as I5.
  split; [apply (all_bytes_skip word_byte I1)|].
  split; [apply (all_bytes_skip word_byte I3)|].
  split; [apply (all_bytes_skip line_byte I5)|].
  rewrite (proj2 (iter_in_skip line_byte I5)).
  pose proof (skip_stops blank
    (skip word_byte (skip blank (skip word_byte (skip blank it0))))) as S.
  destruct (rest (skip blank (skip word_byte (skip blank
              (skip word_byte (skip blank it0)))))) as [|c tl];
    simpl in *; [exact I|].
  destruct (line_byte c); simpl; [exact S | exact I].
Qed.

(** X7.  What the fields of a parsed response line hold: [version] and [status]
    consist of 7-bit bytes other than space, tab, CR and LF; [message]
    holds no CR and no LF, may hold spaces, and does not start with a space
    or a tab. *)
Theorem response_line_bytes (buf : buffer) (input : span_t)
    (R : ResponseLine.parse_response_line_result_t) (input' : span_t) :
  span_wf buf input ->
  parse_response_line buf input = (Returned R, input') ->
  all_bytes word_byte buf (ResponseLine.version R)
  /\ all_bytes word_byte buf (ResponseLine.status R)
  /\ all_bytes line_byte buf (ResponseLine.message R)
  /\ stops_at blank (span_bytes buf (ResponseLine.message R)).
Proof. intros Hwf E. exact (@response_line_fields _ _ _ _ Hwf E). Qed.

Lemma response_line_bytes_witness :
  all_bytes word_byte crlf_response (span 0 8)
  /\ all_bytes word_byte crlf_response (span 9 12)
  /\ all_bytes line_byte crlf_response (span 13 15)
  /\ stops_at blank (span_bytes crlf_response (span 13 15)).
Proof.
  exact (@response_line_bytes crlf_response (whole crlf_response)
           (ResponseLine.mk (span 0 8) (span 9 12) (span 13 15))
           (span 17 23) (whole_wf crlf_response) eq_refl).
Defined.

(* ================================================================== *)
(** ** The URI grammar on a word *)

Section UriOnWord.

Ltac by_cases_on_byte c :=
  destruct c as [[] [] [] [] [] [] [] []]; vm_compute;
  intros; try discriminate; auto.

Lemma word_byte_after_path (c : ascii) :
  word_byte c = true -> outside uri_path_set c = false ->
  c = "?"%char \/ c = "#"%char.
Proof. by_cases_on_byte c. Qed.

Lemma word_byte_after_query (c : ascii) :
  word_byte c = true -> outside uri_query_set c = false -> c = "#"%char.
Proof. by_cases_on_byte c. Qed.

Lemma word_byte_in_fragment (c : ascii) :
  word_byte c = true -> outside uri_fragment_set c = true.
Proof. by_cases_on_byte c. Qed.

Lemma rest_suffix (P : ascii -> Prop) (it it' : iter) :
  iter_le it it' -> Forall P (rest it) -> Forall P (rest it').
Proof.
  intros (consumed & E & _) H. rewrite E in H.
  apply Forall_app in H. tauto.
Qed.

Lemma optional_run (A : Type) (p : parser unit A) (st : unit) (it : iter) :
  defined p -> advancing p ->
  exists a it', optional p st it = Matched tt a it' /\ iter_le it it'.
Proof.
  intros Hd Ha.
  destruct (total_optional Hd st it) as ([] & a & it' & E).
  exists a, it'. split; [exact E|].
  eapply advancing_optional; eassumption.
Qed.

(** The scheme field, step by step: the run of scheme bytes is stored
    whether or not a colon follows it; the run is consumed, with the colon,
    only when the colon is there. *)
Lemma scheme_eq (st : unit) (it : iter) :
  ParseUri.scheme st it
  = match rest it with
    | c :: _ =>
        if inside uri_scheme_set c
        then
          let it1 := skip (inside uri_scheme_set) it in
          match rest it1 with
          | c1 :: _ =>
              if inside ":" c1
              then Matched st (Some (span (pos it) (pos it1))) (advance it1)
              else Matched st (Some (span (pos it) (pos it1))) it
          | [] => Matched st (Some (span (pos it) (pos it1))) it
          end
        else Matched st None it
    | [] => Matched st None it
    end.
Proof.
  unfold ParseUri.scheme, ParseUri.scheme_run.
  rewrite (raw_plus_char _ _ (@char_set_char_like unit uri_scheme_set)).
  destruct (rest it) as [|c tl]; [reflexivity|].
  destruct (inside uri_scheme_set c); [|reflexivity].
  cbv zeta. unfold omit, bind, char_set, char_parser, ret.
  destruct (rest (skip (inside uri_scheme_set) it)) as [|c1 tl1];
    [reflexivity|].
  change (ischar c1 && chset ":" c1) with (inside ":" c1).
  destruct (inside ":" c1); reflexivity.
Qed.

Lemma scheme_run_on (st : unit) (it : iter) :
  exists a it', ParseUri.scheme st it = Matched tt a it' /\ iter_le it it'.
Proof.
  destruct st. rewrite scheme_eq.
  destruct (rest it) as [|c tl];
    [eexists; eexists; split; [reflexivity | apply iter_le_refl]|].
  destruct (inside uri_scheme_set c);
    [|eexists; eexists; split; [reflexivity | apply iter_le_refl]].
  cbv zeta.
  destruct (rest (skip (inside uri_scheme_set) it)) as [|c1 tl1] eqn:R1;
    [eexists; eexists; split; [reflexivity | apply iter_le_refl]|].
  destruct (inside ":" c1);
    [|eexists; eexists; split; [reflexivity | apply iter_le_refl]].
  eexists. eexists. split; [reflexivity|].
  eapply iter_le_trans; [apply skip_le|].
  apply (iter_le_advance _ R1).
Qed.

Lemma scheme_advancing : advancing ParseUri.scheme.
Proof.
  intros st it st' a it' E.
  destruct (scheme_run_on st it) as (a1 & it1 & E1 & L).
  assert (it' = it1) by congruence. subst it1. exact L.
Qed.

Lemma authority_defined : defined ParseUri.authority.
Proof.
  unfold ParseUri.authority. apply defined_bind;
    [apply defined_omit, defined_lit|].
  intros _. apply defined_raw, total_defined, total_kleene.
  - apply defined_difference; apply defined_char_parser.
  - apply consuming_difference, consuming_char_parser.
Qed.

Lemma authority_advancing : advancing ParseUri.authority.
Proof. unfold ParseUri.authority, char_set. qi_progress. Qed.

Lemma uri_path_step (st : unit) (it : iter) :
  optional ParseUri.path st it
  = Matched st
      (Some (span (pos it) (pos (skip (outside uri_path_set) it))))
      (skip (outside uri_path_set) it).
Proof.
  unfold optional, ParseUri.path.
  rewrite (raw_kleene_char _ _ (@difference_char_like unit uri_path_set)).
  reflexivity.
Qed.

Lemma uri_query_step (st : unit) (it : iter) :
  Forall (fun c => word_byte c = true) (rest it) ->
  stops_at (outside uri_path_set) (rest it) ->
  exists a it',
    optional ParseUri.query st it = Matched st a it'
    /\ iter_le it it'
    /\ (rest it' = [] \/ exists tl, rest it' = "#"%char :: tl).
Proof.
  intros W S. unfold optional, ParseUri.query. unfold bind at 1.
  unfold omit, bind at 1, char_set, char_parser.
  destruct (rest it) as [|c tl] eqn:R.
  - eexists. exists it. split; [reflexivity|].
    split; [apply iter_le_refl | left; exact R].
  - simpl in S. inversion W as [|c0 tl0 Wc Wtl]; subst.
    destruct (word_byte_after_path c Wc S) as [-> | ->].
    + change (ischar "?" && chset "?" "?") with true. cbv iota.
      unfold ret at 1.
      rewrite (raw_kleene_char _ _ (@difference_char_like unit uri_query_set)).
      eexists. eexists. split; [reflexivity|].
      destruct (iter_le_advance it R) as [L1 _].
      split; [eapply iter_le_trans; [exact L1 | apply skip_le]|].
      pose proof (skip_stops (outside uri_query_set) (advance it)) as S2.
      assert (W2 : Forall (fun c => word_byte c = true)
                     (rest (skip (outside uri_query_set) (advance it)))).
      { apply (rest_suffix (skip_le _ (advance it))).
        unfold advance. simpl. rewrite R. exact Wtl. }
      destruct (rest (skip (outside uri_query_set) (advance it)))
        as [|c2 tl2]; [left; reflexivity|].
      right. exists tl2. inversion W2; subst. simpl in S2.
      rewrite (word_byte_after_query c2); auto.
    + change (ischar "#" && chset "?" "#") with false. cbv iota.
      eexists. exists it. split; [reflexivity|].
      split; [apply iter_le_refl|]. right. exists tl. exact R.
Qed.

Lemma uri_fragment_step (st : unit) (it : iter) :
  Forall (fun c => word_byte c = true) (rest it) ->
  (rest it = [] \/ exists tl, rest it = "#"%char :: tl) ->
  exists a it',
    optional ParseUri.fragment st it = Matched st a it'
    /\ iter_le it it' /\ rest it' = [].
Proof.
  intros W H. unfold optional, ParseUri.fragment. unfold bind at 1.
  unfold omit, bind at 1, char_set, char_parser.
  destruct H as [R | (tl & R)]; rewrite R.
  - eexists. exists it. split; [reflexivity|].
    split; [apply iter_le_refl | exact R].
  - change (ischar "#" && chset "#" "#") with true. cbv iota.
    unfold ret at 1.
    rewrite (raw_kleene_char _ _
               (@difference_char_like unit uri_fragment_set)).
    eexists. eexists. split; [reflexivity|].
    destruct (iter_le_advance it R) as [L1 _].
    split; [eapply iter_le_trans; [exact L1 | apply skip_le]|].
    unfold skip, advance. simpl. rewrite R. simpl.
    apply drop_while_whole. rewrite R in W. inversion W; subst.
    eapply Forall_impl; [|eassumption].
    intros c Hc. apply word_byte_in_fragment. exact Hc.
Qed.

(** On bytes that could be a word of the request line, the URI grammar
    matches and leaves nothing. *)
Lemma uri_grammar_on_word (st : unit) (it : iter) :
  Forall (fun c => word_byte c = true) (rest it) ->
  exists R it',
    ParseUri.grammar st it = Matched st R it' /\ iter_le it it'
    /\ rest it' = [].
Proof.
  intros W. destruct st. unfold ParseUri.grammar.
  destruct (scheme_run_on tt it) as (a1 & it1 & E1 & L1).
  unfold bind at 1. rewrite E1.
  destruct (optional_run tt it1 authority_defined authority_advancing)
    as (a2 & it2 & E2 & L2).
  unfold bind at 1. rewrite E2.
  unfold bind at 1. rewrite uri_path_step.
  pose proof (rest_suffix L1 W) as W1. pose proof (rest_suffix L2 W1) as W2.
  pose proof (skip_le (outside uri_path_set) it2) as L3.
  pose proof (rest_suffix L3 W2) as W3.
  destruct (@uri_query_step tt _ W3 (skip_stops _ it2))
    as (a4 & it4 & E4 & L4 & H4).
  unfold bind at 1. rewrite E4.
  pose proof (rest_suffix L4 W3) as W4.
  destruct (@uri_fragment_step tt _ W4 H4) as (a5 & it5 & E5 & L5 & R5).
  unfold bind at 1. rewrite E5.
  unfold bind at 1, omit, bind at 1, alt, eol, eoi. rewrite R5. simpl.
  rewrite R5. unfold ret. eexists. exists it5.
  split; [reflexivity|]. split; [|exact R5].
  exact (iter_le_trans L1 (iter_le_trans L2 (iter_le_trans L3
           (iter_le_trans L4 L5)))).
Qed.

End UriOnWord.

(* ================================================================== *)
(** ** The authority grammar, step by step *)

Section AuthorityRun.
Import Authority ParseAuthority.

Lemma authority_word_eq (f : span_t -> St -> option St)
    (g : span_t -> St -> St) (st : St) (it : iter) :
  (forall s R, f s R = Some (g s R)) ->
  action word f st it
  = Matched (g (span (pos it) (pos (skip authority_byte it))) st)
      (span (pos it) (pos (skip authority_byte it)))
      (skip authority_byte it).
Proof.
  intros Hf. unfold action, word.
  rewrite (raw_kleene_char _ _
             (@difference_char_like St ("@: " ++ tab ++ cr ++ lf)%string)).
  rewrite Hf. reflexivity.
Qed.

Lemma omit_lit_one (ch : ascii) (st : St) (it : iter) :
  omit (lit (String ch EmptyString)) st it
  = match rest it with
    | c :: _ =>
        if Ascii.eqb c ch then Matched st tt (advance it) else Failed st
    | [] => Failed st
    end.
Proof.
  unfold omit, lit, lit_char, bind, char_parser, ret.
  destruct (rest it) as [|c tl]; [reflexivity|].
  destruct (Ascii.eqb c ch); reflexivity.
Qed.

(** The optional port. *)
Lemma port_part_eq (st : St) (it : iter) :
  (optional (omit (lit ":") >> action word set_port) >> ret tt) st it
  = match rest it with
    | c :: _ =>
        if Ascii.eqb c ":"
        then Matched
               (Authority.mk (username st) (password st) (host st)
                  (span (pos (advance it))
                        (pos (skip authority_byte (advance it)))))
               tt (skip authority_byte (advance it))
        else Matched st tt it
    | [] => Matched st tt it
    end.
Proof.
  unfold bind at 1. unfold optional. unfold bind at 1.
  rewrite omit_lit_one.
  destruct (rest it) as [|c tl]; [reflexivity|].
  destruct (Ascii.eqb c ":"); [|reflexivity].
  rewrite (@authority_word_eq set_port
             (fun s R => Authority.mk (username R) (password R) (host R) s));
    reflexivity.
Qed.

(** The first alternative. *)
Lemma userinfo_branch_eq (it : iter) :
  let it1 := skip authority_byte it in
  let R1 := Authority.mk (span (pos it) (pos it1))
              span_default span_default span_default in
  let after_password :=
    match rest it1 with
    | c :: _ =>
        if Ascii.eqb c ":"
        then (Authority.mk (username R1)
                (span (pos (advance it1))
                      (pos (skip authority_byte (advance it1))))
                (host R1) (port R1),
              skip authority_byte (advance it1))
        else (R1, it1)
    | [] => (R1, it1)
    end in
  let R2 := fst after_password in
  let it2 := snd after_password in
  userinfo_branch R0 it
  = match rest it2 with
    | c :: _ =>
        if Ascii.eqb c "@"
        then Matched
               (Authority.mk (username R2) (password R2)
                  (span (pos (advance it2))
                        (pos (skip authority_byte (advance it2))))
                  (port R2))
               tt (skip authority_byte (advance it2))
        else Failed R2
    | [] => Failed R2
    end.
Proof.
  cbv zeta. unfold userinfo_branch.
  unfold bind at 1. unfold optional at 1.
  rewrite (@authority_word_eq set_username
             (fun s R => Authority.mk s (password R) (host R) (port R)))
    by reflexivity.
  unfold bind at 1. unfold optional. unfold bind at 1.
  rewrite omit_lit_one.
  destruct (rest (skip authority_byte it)) as [|c1 tl1] eqn:R1.
  - cbn [fst snd R0 username password host port].
    unfold bind at 1. rewrite omit_lit_one. rewrite R1. reflexivity.
  - destruct (Ascii.eqb c1 ":") eqn:C1.
    + rewrite (@authority_word_eq set_password
                 (fun s R => Authority.mk (username R) s (host R) (port R)))
        by reflexivity.
      cbn [fst snd R0 username password host port].
      unfold bind at 1. rewrite omit_lit_one.
      destruct (rest (skip authority_byte (advance (skip authority_byte it))))
        as [|c2 tl2]; [reflexivity|].
      destruct (Ascii.eqb c2 "@"); [|reflexivity].
      unfold bind at 1.
      rewrite (@authority_word_eq set_host
                 (fun s R => Authority.mk (username R) (password R) s (port R)))
        by reflexivity.
      reflexivity.
    + cbn [fst snd R0 username password host port].
      unfold bind at 1. rewrite omit_lit_one. rewrite R1.
      destruct (Ascii.eqb c1 "@"); [|reflexivity].
      unfold bind at 1.
      rewrite (@authority_word_eq set_host
                 (fun s R => Authority.mk (username R) (password R) s (port R)))
        by reflexivity.
      reflexivity.
Qed.

(** The second alternative. *)
Lemma host_branch_eq (st : St) (it : iter) :
  host_branch st it
  = Matched
      (Authority.mk span_default span_default
         (span (pos it) (pos (skip authority_byte it))) span_default)
      tt (skip authority_byte it).
Proof.
  unfold host_branch, bind.
  rewrite (@authority_word_eq only_host
             (fun s _ => Authority.mk span_default span_default s
                           span_default)) by reflexivity.
  reflexivity.
Qed.

End AuthorityRun.

(* ================================================================== *)
(** ** States, attributes and the buffer *)

Section HoareIn.
Variable St : Type.
Variable buf : buffer.
Variable last : nat.

Lemma hoare_in_weaken {A} (P P' Q Q' Qf Qf' : St -> Prop)
    (Qa Qa' : A -> Prop) (p : parser St A) :
  hoare_in buf last P p Qa Q Qf ->
  (forall st, P' st -> P st) -> (forall st, Q st -> Q' st) ->
  (forall st, Qf st -> Qf' st) -> (forall a, Qa a -> Qa' a) ->
  hoare_in buf last P' p Qa' Q' Qf'.
Proof.
  intros H HP HQ HF HA st it Hst Hit. specialize (H st it (HP _ Hst) Hit).
  destruct (p st it); auto; try (destruct H as (H1 & H2 & H3); auto).
Qed.

(** A parser without semantic actions: the state stays, and the attribute
    is whatever the parser gives on an iterator in the buffer. *)
Lemma hoare_in_stateless {A} (P : St -> Prop) (Qa : A -> Prop)
    (p : parser St A) :
  stateless p -> advancing p ->
  (forall st it st' a it',
     iter_in buf last it -> p st it = Matched st' a it' -> Qa a) ->
  hoare_in buf last P p Qa P P.
Proof.
  intros Hs Ha Hq st it Hst Hit. specialize (Hs st it).
  destruct (p st it) as [st' a it'|st'| |] eqn:E; subst; auto.
  split; [exact Hst|]. split; [eapply Hq; eassumption|].
  apply (iter_in_le Hit (Ha _ _ _ _ _ E)).
Qed.

Lemma hoare_in_ret {A} (P Qf : St -> Prop) (Qa : A -> Prop) (a : A) :
  Qa a -> hoare_in buf last P (ret a) Qa P Qf.
Proof. intros Ha st it Hst Hit. simpl. auto. Qed.

Lemma hoare_in_bind {A B} (P Q Q' Qf : St -> Prop) (Qa : A -> Prop)
    (Qb : B -> Prop) (p : parser St A) (f : A -> parser St B) :
  hoare_in buf last P p Qa Q Qf ->
  (forall a, Qa a -> hoare_in buf last Q (f a) Qb Q' Qf) ->
  hoare_in buf last P (bind p f) Qb Q' Qf.
Proof.
  intros Hp Hf st it Hst Hit. unfold bind. specialize (Hp st it Hst Hit).
  destruct (p st it) as [st1 a it1|st1| |]; auto.
  destruct Hp as (H1 & H2 & H3). apply (Hf a H2 st1 it1 H1 H3).
Qed.

Lemma hoare_in_alt {A} (P Q R Qf : St -> Prop) (Qa : A -> Prop)
    (p q : parser St A) :
  hoare_in buf last P p Qa Q R -> hoare_in buf last R q Qa Q Qf ->
  hoare_in buf last P (alt p q) Qa Q Qf.
Proof.
  intros Hp Hq st it Hst Hit. unfold alt. specialize (Hp st it Hst Hit).
  destruct (p st it) as [st1 a it1|st1| |]; auto.
  apply (Hq st1 it Hp Hit).
Qed.

Lemma hoare_in_optional {A} (P Q Qf : St -> Prop) (Qa : A -> Prop)
    (p : parser St A) :
  hoare_in buf last P p Qa Q Q ->
  hoare_in buf last P (optional p) (fun _ => True) Q Qf.
Proof.
  intros Hp st it Hst Hit. unfold optional. specialize (Hp st it Hst Hit).
  destruct (p st it) as [st1 a it1|st1| |]; auto;
    try (destruct Hp as (H1 & H2 & H3); auto).
Qed.

Lemma hoare_in_action {A} (P Q Q' Qf : St -> Prop) (Qa : A -> Prop)
    (p : parser St A) (act : A -> St -> option St) :
  hoare_in buf last P p Qa Q Qf ->
  (forall a st st', Qa a -> Q st -> act a st = Some st' -> Q' st') ->
  hoare_in buf last P (action p act) Qa Q' Qf.
Proof.
  intros Hp Hact st it Hst Hit. unfold action. specialize (Hp st it Hst Hit).
  destruct (p st it) as [st1 a it1|st1| |]; auto.
  destruct Hp as (H1 & H2 & H3).
  destruct (act a st1) as [st2|] eqn:E; [|exact I].
  split; [eapply Hact; eassumption | auto].
Qed.

Lemma hoare_in_kleene_loop {A} (P Qf Qf' : St -> Prop) (Qa : A -> Prop)
    (p : parser St A) (fuel : nat) :
  hoare_in buf last P p Qa P Qf ->
  hoare_in buf last P (kleene_loop fuel p) (fun _ => True) Qf Qf'.
Proof.
  intros Hp. induction fuel as [|n IH]; intros st it Hst Hit; simpl;
    [exact I|].
  specialize (Hp st it Hst Hit).
  destruct (p st it) as [st1 a it1|st1| |]; auto.
  destruct Hp as (H1 & H2 & H3).
  destruct (length (rest it1) <? length (rest it)); [|exact I].
  specialize (IH st1 it1 H1 H3).
  destruct (kleene_loop n p st1 it1); auto;
    try (destruct IH as (K1 & K2 & K3); auto).
Qed.

Lemma hoare_in_plus {A} (P Qf : St -> Prop) (Qa : A -> Prop)
    (p : parser St A) :
  hoare_in buf last P p Qa P Qf ->
  hoare_in buf last P (plus p) (fun _ => True) Qf Qf.
Proof.
  intros Hp. unfold plus. eapply hoare_in_bind; [exact Hp|]. intros a _.
  eapply hoare_in_bind with (Qa := fun _ => True).
  - unfold kleene. intros st it. apply hoare_in_kleene_loop with (Qa := Qa).
    exact Hp.
  - intros l _. apply hoare_in_ret. exact I.
Qed.

End HoareIn.

(* ================================================================== *)
(** ** The spans of a header block *)

Section HeaderSpans.
Import ParseHeaders.
Variable buf : buffer.
Variable last : nat.

Lemma key_attribute (st st' : St) (it it' : iter) (k : span_t) :
  iter_in buf last it -> key st it = Matched st' k it' -> key_ok buf k.
Proof.
  intros Hin E. unfold key in E. unfold bind at 1 in E.
  rewrite (raw_kleene_char _ _
             (@difference_char_like St
                (" " ++ tab ++ ":" ++ cr ++ lf)%string)) in E.
  apply bind_Matched in E. destruct E as (st1 & [] & it1 & E1 & E2).
  unfold ret in E2.
  assert (Ek : k = span (pos it) (pos (skip key_byte it)))
    by (unfold key_byte; congruence).
  subst k. clear E2.
  unfold omit in E1. apply bind_Matched in E1.
  destruct E1 as (st2 & [] & it2 & E1 & _).
  simpl in E1. apply bind_Matched in E1.
  destruct E1 as (st3 & [] & it3 & E1 & _).
  apply lit_char_Matched in E1. destruct E1 as (_ & _ & tl & R).
  destruct (iter_in_skip key_byte Hin) as [I1 _].
  split; [apply (all_bytes_skip key_byte Hin)|].
  cbn [span_end]. apply (iter_in_head I1 R).
Qed.

Lemma value_attribute (st st' : St) (it it' : iter) (v : span_t) :
  iter_in buf last it -> value st it = Matched st' v it' -> value_ok buf v.
Proof.
  intros Hin E. unfold value in E.
  rewrite (raw_plus_char _ _ (@difference_char_like St (cr ++ lf)%string))
    in E.
  destruct (rest it) as [|c tl] eqn:R; [discriminate|].
  destruct (outside (cr ++ lf) c) eqn:T; [|discriminate].
  assert (Ev : v = span (pos it) (pos (skip line_byte it)))
    by (unfold line_byte; congruence).
  subst v. split; [|apply (all_bytes_skip line_byte Hin)].
  cbn [span_begin span_end]. apply (skip_strict line_byte it R T).
Qed.

Lemma key_advancing : advancing key.
Proof. unfold key, char_set. qi_progress. Qed.

Lemma value_advancing : advancing value.
Proof. unfold value, char_set. qi_progress. Qed.

Lemma new_header_ok (k : span_t) (R R' : parse_headers_result_t) :
  key_ok buf k -> entries_ok buf R -> new_header k R = Some R' ->
  entries_ok buf R'.
Proof.
  unfold new_header, entries_ok. intros Hk HR E.
  assert (ER : R' = Headers.mk (headers R ++ [Header.mk k []])
                      (terminated R)) by congruence.
  subst R'. cbn [headers]. apply Forall_app. split; [exact HR|].
  constructor; [|constructor]. split; [exact Hk | constructor].
Qed.

Lemma push_value_ok (v : span_t) (R R' : parse_headers_result_t) :
  value_ok buf v -> entries_ok buf R -> push_value v R = Some R' ->
  entries_ok buf R'.
Proof.
  unfold push_value, entries_ok. intros Hv HR E.
  destruct (back_push_back (headers R) v) as [hs|] eqn:B; [|discriminate].
  assert (ER : R' = Headers.mk hs (terminated R)) by congruence.
  subst R'. cbn [headers]. apply back_push_back_Some in B.
  destruct B as (l & x & El & ->). rewrite El in HR.
  apply Forall_app in HR. destruct HR as [Hl Hx].
  apply Forall_app. split; [exact Hl|].
  inversion Hx as [|x0 l0 [Kx Vx] _]; subst.
  constructor; [|constructor]. split; [exact Kx|].
  cbn [Header.value]. apply Forall_app. split; [exact Vx|].
  constructor; [exact Hv | constructor].
Qed.

Lemma quiet {A} (p : parser St A) :
  stateless p -> advancing p ->
  hoare_in buf last (entries_ok buf) p any (entries_ok buf) (entries_ok buf).
Proof.
  intros Hs Ha. apply hoare_in_stateless; [exact Hs | exact Ha|].
  intros; exact I.
Qed.

Lemma line_end_advancing : advancing (@eol St <|> eoi).
Proof.
  apply advancing_alt;
    [apply consuming_advancing, consuming_eol | apply advancing_eoi].
Qed.

Lemma value_pushed :
  hoare_in buf last (entries_ok buf) (action value push_value) any
    (entries_ok buf) (entries_ok buf).
Proof.
  eapply hoare_in_weaken with (Qa := value_ok buf).
  - eapply hoare_in_action with (Q := entries_ok buf).
    + apply hoare_in_stateless;
        [apply value_stateless | apply value_advancing|].
      intros st it st' a it' Hin E.
      exact (@value_attribute _ _ _ _ _ Hin E).
    + intros a st st' Ha Hst E.
      exact (@push_value_ok _ _ _ Ha Hst E).
  - auto.
  - auto.
  - auto.
  - intros; exact I.
Qed.

Lemma keyed_line_spans :
  hoare_in buf last (entries_ok buf) keyed_line any
    (entries_ok buf) (entries_ok buf).
Proof.
  unfold keyed_line.
  eapply hoare_in_bind with (Qa := key_ok buf) (Q := entries_ok buf).
  - eapply hoare_in_action with (Q := entries_ok buf).
    + apply hoare_in_stateless;
        [apply key_stateless | apply key_advancing|].
      intros st it st' a it' Hin E.
      exact (@key_attribute _ _ _ _ _ Hin E).
    + intros a st st' Ha Hst E.
      exact (@new_header_ok _ _ _ Ha Hst E).
  - intros _ _. eapply hoare_in_bind with (Qa := any) (Q := entries_ok buf).
    + apply quiet; [apply stateless_kleene, sp_stateless|].
      apply advancing_kleene, consuming_advancing, consuming_char_parser.
    + intros _ _.
      eapply hoare_in_bind with (Qa := any) (Q := entries_ok buf);
        [apply value_pushed|].
      intros _ _. apply quiet;
        [apply line_end_stateless | apply line_end_advancing].
Qed.

Lemma continuation_line_spans :
  hoare_in buf last (entries_ok buf) continuation_line any
    (entries_ok buf) (entries_ok buf).
Proof.
  unfold continuation_line.
  eapply hoare_in_bind with (Qa := any) (Q := entries_ok buf).
  - apply quiet; [apply stateless_plus, stateless_char_parser|].
    apply consuming_advancing, consuming_plus, consuming_char_parser.
  - intros _ _.
    eapply hoare_in_bind with (Qa := any) (Q := entries_ok buf);
      [apply value_pushed|].
    intros _ _. apply quiet;
      [apply line_end_stateless | apply line_end_advancing].
Qed.

Lemma grammar_spans :
  hoare_in buf last (entries_ok buf) grammar any
    (entries_ok buf) (entries_ok buf).
Proof.
  unfold grammar.
  eapply hoare_in_bind with (Qa := any) (Q := entries_ok buf).
  - apply hoare_in_plus with (Qa := any).
    unfold header. eapply hoare_in_alt;
      [apply keyed_line_spans | apply continuation_line_spans].
  - intros _ _. eapply hoare_in_bind with (Qa := any) (Q := entries_ok buf).
    + apply hoare_in_optional with (Qa := any).
      eapply hoare_in_action with (Q := entries_ok buf).
      * apply quiet; [apply terminator_stateless|].
        unfold terminator, sp, char_set. qi_progress.
      * intros a st st' _ Hst E. unfold set_terminated in E.
        assert (ER : st' = Headers.mk (headers st) true) by congruence.
        subst st'. exact Hst.
    + intros _ _. apply hoare_in_ret. exact I.
Qed.

End HeaderSpans.

(* ================================================================== *)
(** ** Line ends *)

Section LineEnds.
Variable St : Type.
Variable buf : buffer.
Variable last : nat.

(** What [eol] consumes. *)
Lemma eol_consumed (st st' : St) (u : unit) (it it' : iter) :
  iter_in buf last it -> eol st it = Matched st' u it' ->
  iter_in buf last it'
  /\ pos it < pos it'
  /\ is_eol (span_bytes buf (span (pos it) (pos it')))
  /\ exists c, nth_error buf (pos it' - 1) = Some c /\ (c = CR \/ c = LF).
Proof.
  intros Hin E. unfold eol in E.
  destruct (rest it) as [|c tl] eqn:R; [rewrite R in E; discriminate|].
  destruct (iter_in_advance Hin R) as [I1 B1].
  destruct (iter_in_head Hin R) as [N1 _].
  destruct (Ascii.eqb c CR) eqn:C.
  - apply Ascii.eqb_eq in C. subst c.
    destruct (rest (advance it)) as [|c2 tl2] eqn:R2.
    + assert (Ei : it' = advance it) by congruence. subst it'.
      split; [exact I1|]. split; [simpl; lia|].
      split; [left; exact B1|].
      exists CR. cbn [pos advance]. rewrite Nat.sub_succ, Nat.sub_0_r. auto.
    + destruct (Ascii.eqb c2 LF) eqn:C2.
      * apply Ascii.eqb_eq in C2. subst c2.
        assert (Ei : it' = advance (advance it)) by congruence. subst it'.
        destruct (iter_in_advance I1 R2) as [I2 B2].
        destruct (iter_in_head I1 R2) as [N2 _].
        split; [exact I2|]. split; [simpl; lia|].
        split.
        { right. right.
          rewrite <- (@span_bytes_app buf (pos it) (pos (advance it))
                        (pos (advance (advance it)))) by (simpl; lia).
          rewrite B1, B2. reflexivity. }
        exists LF. cbn [pos advance] in *.
        rewrite Nat.sub_succ, Nat.sub_0_r. auto.
      * assert (Ei : it' = advance it) by congruence. subst it'.
        split; [exact I1|]. split; [simpl; lia|].
        split; [left; exact B1|].
        exists CR. cbn [pos advance]. rewrite Nat.sub_succ, Nat.sub_0_r.
        auto.
  - rewrite R in E. destruct (Ascii.eqb c LF) eqn:C2; [|discriminate].
    apply Ascii.eqb_eq in C2. subst c.
    assert (Ei : it' = advance it) by congruence. subst it'.
    split; [exact I1|]. split; [simpl; lia|].
    split; [right; left; exact B1|].
    exists LF. cbn [pos advance]. rewrite Nat.sub_succ, Nat.sub_0_r. auto.
Qed.

(** After [eol | eoi] the iterator is at the start of a line. *)
Lemma line_end_consumed (st st' : St) (u : unit) (it it' : iter) :
  iter_in buf last it -> (eol <|> eoi) st it = Matched st' u it' ->
  iter_in buf last it'
  /\ pos it <= pos it'
  /\ (span_bytes buf (span (pos it) (pos it')) = [] /\ rest it' = []
      \/ is_eol (span_bytes buf (span (pos it) (pos it'))))
  /\ at_line_start buf (pos it') (rest it').
Proof.
  intros Hin E. unfold alt in E.
  destruct (eol st it) as [st1 a1 it1|st1| |] eqn:E1; try discriminate.
  - assert (it' = it1) by congruence. subst it1.
    destruct (@eol_consumed _ _ _ _ _ Hin E1) as (I & P & B & c & N & C).
    split; [exact I|]. split; [lia|]. split; [right; exact B|].
    right. exists c. split; [lia | auto].
  - unfold eoi in E. destruct (rest it) as [|c tl] eqn:R; [|discriminate].
    assert (it' = it) by congruence. subst it'.
    split; [exact Hin|]. split; [lia|].
    split; [left; split; [apply span_bytes_empty | exact R]|].
    left. exact R.
Qed.

(** Where a loop ends: where it began, or where a match of its subject
    ended. *)
Lemma kleene_loop_end {A} (I : iter -> Prop) (p : parser St A) (fuel : nat) :
  (forall st it st' a it',
     iter_in buf last it -> p st it = Matched st' a it' ->
     iter_in buf last it' /\ I it') ->
  forall st it st' l it',
    iter_in buf last it -> I it ->
    kleene_loop fuel p st it = Matched st' l it' ->
    iter_in buf last it' /\ I it'.
Proof.
  intros Hp. induction fuel as [|n IH]; intros st it st' l it' Hin Hi E;
    simpl in E; [discriminate|].
  destruct (p st it) as [st1 a it1|st1| |] eqn:E1; try discriminate.
  - destruct (length (rest it1) <? length (rest it)); [|discriminate].
    destruct (kleene_loop n p st1 it1) as [st2 l2 it2| | |] eqn:K;
      try discriminate.
    assert (it' = it2) by congruence. subst it2.
    destruct (Hp _ _ _ _ _ Hin E1) as [I1 J1].
    exact (IH _ _ _ _ _ I1 J1 K).
  - assert (it' = it) by congruence. subst it'. split; assumption.
Qed.

End LineEnds.

Section HeaderLines.
Import ParseHeaders.
Variable buf : buffer.
Variable last : nat.

Lemma header_ends_line (st st' : St) (u : unit) (it it' : iter) :
  iter_in buf last it -> header st it = Matched st' u it' ->
  iter_in buf last it' /\ at_line_start buf (pos it') (rest it').
Proof.
  intros Hin E. unfold header, alt in E.
  assert (K : forall st0, keyed_line st0 it = Matched st' u it' ->
            iter_in buf last it' /\ at_line_start buf (pos it') (rest it')).
  { intros st0 E0. unfold keyed_line in E0.
    apply bind_Matched in E0. destruct E0 as (st1 & a1 & it1 & E1 & E0).
    apply bind_Matched in E0. destruct E0 as (st2 & a2 & it2 & E2 & E0).
    apply bind_Matched in E0. destruct E0 as (st3 & a3 & it3 & E3 & E0).
    assert (L1 : iter_le it it1)
      by (eapply advancing_action; [apply key_advancing | exact E1]).
    assert (L2 : iter_le it1 it2).
    { eapply advancing_kleene; [|exact E2].
      apply consuming_advancing, consuming_char_parser. }
    assert (L3 : iter_le it2 it3)
      by (eapply advancing_action; [apply value_advancing | exact E3]).
    pose proof (proj1 (iter_in_le (proj1 (iter_in_le
                  (proj1 (iter_in_le Hin L1)) L2)) L3)) as I3.
    destruct (@line_end_consumed _ _ _ _ _ _ _ _ I3 E0) as (I & _ & _ & S). auto. }
  assert (C : forall st0, continuation_line st0 it = Matched st' u it' ->
            iter_in buf last it' /\ at_line_start buf (pos it') (rest it')).
  { intros st0 E0. unfold continuation_line in E0.
    apply bind_Matched in E0. destruct E0 as (st1 & a1 & it1 & E1 & E0).
    apply bind_Matched in E0. destruct E0 as (st2 & a2 & it2 & E2 & E0).
    assert (L1 : iter_le it it1).
    { eapply consuming_advancing; [|exact E1].
      apply consuming_plus, consuming_char_parser. }
    assert (L2 : iter_le it1 it2)
      by (eapply advancing_action; [apply value_advancing | exact E2]).
    pose proof (proj1 (iter_in_le (proj1 (iter_in_le Hin L1)) L2)) as I2.
    destruct (@line_end_consumed _ _ _ _ _ _ _ _ I2 E0) as (I & _ & _ & S). auto. }
  destruct (keyed_line st it) as [st1 a1 it1|st1| |] eqn:E1;
    try discriminate.
  - apply (K st). rewrite E1. exact E.
  - apply (C st1). exact E.
Qed.

Lemma grammar_ends_line (st st' : St) (u : unit) (it it' : iter) :
  iter_in buf last it -> grammar st it = Matched st' u it' ->
  iter_in buf last it' /\ at_line_start buf (pos it') (rest it').
Proof.
  intros Hin E. unfold grammar in E.
  apply bind_Matched in E. destruct E as (st1 & a1 & it1 & E1 & E).
  apply bind_Matched in E. destruct E as (st2 & a2 & it2 & E2 & E).
  unfold ret in E. assert (it' = it2) by congruence. subst it2. clear E.
  assert (H1 : iter_in buf last it1
               /\ at_line_start buf (pos it1) (rest it1)).
  { unfold plus in E1.
    apply bind_Matched in E1. destruct E1 as (st3 & a3 & it3 & E3 & E1).
    apply bind_Matched in E1. destruct E1 as (st4 & a4 & it4 & E4 & E1).
    unfold ret in E1. assert (it1 = it4) by congruence. subst it4.
    destruct (@header_ends_line _ _ _ _ _ Hin E3) as [I3 S3].
    unfold kleene in E4.
    apply (@kleene_loop_end St buf last unit
             (fun i => at_line_start buf (pos i) (rest i)) header
             _ (fun s i s' a i' Hi Ei => @header_ends_line s s' a i i' Hi Ei)
             _ _ _ _ _ I3 S3 E4). }
  destruct H1 as [I1 S1]. unfold optional in E2.
  destruct (action terminator set_terminated st1 it1)
    as [st5 a5 it5|st5| |] eqn:E5; try discriminate.
  - assert (it' = it5) by congruence. subst it5.
    apply action_Matched in E5. destruct E5 as (st6 & E5 & _).
    unfold terminator in E5.
    apply bind_Matched in E5. destruct E5 as (st7 & a7 & it7 & E7 & E5).
    assert (L7 : iter_le it1 it7).
    { eapply advancing_kleene; [|exact E7].
      apply consuming_advancing, consuming_char_parser. }
    destruct (@eol_consumed _ _ _ _ _ _ _ _ (proj1 (iter_in_le I1 L7)) E5)
      as (I & P & _ & c & N & C).
    split; [exact I|]. right. exists c. split; [lia | auto].
  - assert (it' = it1) by congruence. subst it'. split; assumption.
Qed.

End HeaderLines.

(* ================================================================== *)
(** ** The URI grammar, field by field *)

Section UriFields.
Variable buf : buffer.
Variable last : nat.

Lemma inside_one (ch c : ascii) :
  inside (String ch EmptyString) c = true -> c = ch.
Proof.
  unfold inside. intros H. apply andb_prop in H. destruct H as [_ H].
  simpl in H. apply Ascii.eqb_eq. exact H.
Qed.

(** [omit[char_("c")]] consumes the byte [c]. *)
Lemma omit_char_consumed (ch : ascii) (st st' : unit) (u : unit)
    (it it' : iter) :
  iter_in buf last it ->
  omit (char_set (String ch EmptyString)) st it = Matched st' u it' ->
  iter_in buf last it' /\ pos it <= pos it'
  /\ span_bytes buf (span (pos it) (pos it')) = [ch].
Proof.
  intros Hin E. unfold omit in E. apply bind_Matched in E.
  destruct E as (st1 & c & it1 & E1 & E2).
  unfold ret in E2. assert (it' = it1) by congruence. subst it1.
  apply char_parser_Matched in E1. destruct E1 as (_ & -> & T & tl & R).
  apply (inside_one ch c) in T. subst c.
  destruct (iter_in_advance Hin R) as [I B].
  split; [exact I|]. split; [simpl; lia | exact B].
Qed.

(** [omit[lit("//")]] consumes two slashes. *)
Lemma omit_slashes_consumed (st st' : unit) (u : unit) (it it' : iter) :
  iter_in buf last it ->
  omit (lit "//") st it = Matched st' u it' ->
  iter_in buf last it' /\ pos it <= pos it'
  /\ span_bytes buf (span (pos it) (pos it')) = ["/"%char; "/"%char].
Proof.
  intros Hin E. unfold omit in E. apply bind_Matched in E.
  destruct E as (st1 & a1 & it1 & E1 & E2).
  unfold ret in E2. assert (it' = it1) by congruence. subst it1.
  simpl in E1. apply bind_Matched in E1.
  destruct E1 as (st2 & a2 & it2 & E3 & E1).
  apply bind_Matched in E1. destruct E1 as (st3 & a3 & it3 & E4 & E1).
  unfold ret in E1. assert (it' = it3) by congruence. subst it3.
  apply lit_char_Matched in E3. destruct E3 as (_ & -> & tl & R).
  destruct (iter_in_advance Hin R) as [I B].
  apply lit_char_Matched in E4. destruct E4 as (_ & -> & tl2 & R2).
  destruct (iter_in_advance I R2) as [I2 B2].
  split; [exact I2|]. split; [simpl; lia|].
  rewrite <- (@span_bytes_app buf (pos it) (pos (advance it))
                (pos (advance (advance it)))) by (simpl; lia).
  rewrite B, B2. reflexivity.
Qed.

(** An optional field introduced by a delimiter. *)
Lemma optional_delimited (D : parser unit unit) (delim : list ascii)
    (set : string) (st st' : unit) (o : option span_t) (it it' : iter) :
  (forall s s' u i i',
     iter_in buf last i -> D s i = Matched s' u i' ->
     iter_in buf last i' /\ pos i <= pos i'
     /\ span_bytes buf (span (pos i) (pos i')) = delim) ->
  iter_in buf last it ->
  optional (D >> raw (kleene (difference char_ (char_set set)))) st it
  = Matched st' o it' ->
  iter_in buf last it' /\ pos it <= pos it'
  /\ all_bytes (outside set) buf (span_of o)
  /\ (span_bytes buf (span (pos it) (pos it')) = [] /\ o = None
      \/ span_bytes buf (span (pos it) (pos it'))
         = delim ++ span_bytes buf (span_of o)).
Proof.
  intros HD Hin E. unfold optional in E.
  destruct ((D >> raw (kleene (difference char_ (char_set set)))) st it)
    as [st1 a1 it1|st1| |] eqn:E1; try discriminate.
  - assert (it' = it1) by congruence. assert (o = Some a1) by congruence.
    subst it1 o. clear E.
    apply bind_Matched in E1. destruct E1 as (st2 & a2 & it2 & E2 & E3).
    destruct (HD _ _ _ _ _ Hin E2) as (I2 & P2 & B2).
    rewrite (raw_kleene_char _ _ (@difference_char_like unit set)) in E3.
    assert (Ea : a1 = span (pos it2) (pos (skip (outside set) it2)))
      by congruence.
    assert (Ei : it' = skip (outside set) it2) by congruence.
    subst a1 it'. clear E3.
    destruct (iter_in_skip (outside set) I2) as [I3 B3].
    pose proof (iter_le_pos (skip_le (outside set) it2)) as P3.
    split; [exact I3|]. split; [lia|]. cbn [span_of].
    split; [apply (all_bytes_skip (outside set) I2)|].
    right.
    rewrite <- (@span_bytes_app buf (pos it) (pos it2)
                  (pos (skip (outside set) it2))) by lia.
    rewrite B2. reflexivity.
  - assert (it' = it) by congruence. assert (o = None) by congruence.
    subst it' o. split; [exact Hin|]. split; [lia|].
    split; [apply all_bytes_default|].
    left. split; [apply span_bytes_empty | reflexivity].
Qed.

(** The scheme field: what is stored is a run of scheme bytes; what is
    consumed is nothing, or the run and the colon after it. *)
Lemma scheme_field (st st' : unit) (o : option span_t) (it it' : iter) :
  iter_in buf last it ->
  ParseUri.scheme st it = Matched st' o it' ->
  iter_in buf last it' /\ pos it <= pos it'
  /\ all_bytes (inside uri_scheme_set) buf (span_of o)
  /\ (span_bytes buf (span (pos it) (pos it')) = []
      \/ span_bytes buf (span (pos it) (pos it'))
         = span_bytes buf (span_of o) ++ [":"%char]
         /\ span_begin (span_of o) < span_end (span_of o)).
Proof.
  intros Hin E. rewrite scheme_eq in E.
  assert (Stay : forall o, all_bytes (inside uri_scheme_set) buf (span_of o) ->
            iter_in buf last it /\ pos it <= pos it
            /\ all_bytes (inside uri_scheme_set) buf (span_of o)
            /\ (span_bytes buf (span (pos it) (pos it)) = []
                \/ span_bytes buf (span (pos it) (pos it))
                   = span_bytes buf (span_of o) ++ [":"%char]
                   /\ span_begin (span_of o) < span_end (span_of o))).
  { intros o' A. split; [exact Hin|]. split; [lia|]. split; [exact A|].
    left. apply span_bytes_empty. }
  pose proof (all_bytes_skip (inside uri_scheme_set) Hin) as Run.
  destruct (rest it) as [|c tl] eqn:R.
  { assert (it' = it) by congruence. assert (o = None) by congruence.
    subst it' o. apply Stay, all_bytes_default. }
  destruct (inside uri_scheme_set c) eqn:T.
  2:{ assert (it' = it) by congruence. assert (o = None) by congruence.
      subst it' o. apply Stay, all_bytes_default. }
  cbv zeta in E.
  destruct (iter_in_skip (inside uri_scheme_set) Hin) as [I2 B2].
  pose proof (iter_le_pos (skip_le (inside uri_scheme_set) it)) as P2.
  destruct (rest (skip (inside uri_scheme_set) it)) as [|c1 tl1] eqn:R1.
  { assert (it' = it) by congruence.
    assert (o = Some (span (pos it) (pos (skip (inside uri_scheme_set) it))))
      by congruence.
    subst it' o. apply Stay. exact Run. }
  destruct (inside ":" c1) eqn:T1.
  2:{ assert (it' = it) by congruence.
      assert (o = Some (span (pos it)
                          (pos (skip (inside uri_scheme_set) it))))
        by congruence.
      subst it' o. apply Stay. exact Run. }
  assert (Ei : it' = advance (skip (inside uri_scheme_set) it))
    by congruence.
  assert (Eo : o = Some (span (pos it)
                           (pos (skip (inside uri_scheme_set) it))))
    by congruence.
  subst it' o. clear E.
  apply (inside_one ":" c1) in T1. subst c1.
  destruct (iter_in_advance I2 R1) as [I3 B3].
  split; [exact I3|]. split; [cbn [pos advance]; lia|].
  cbn [span_of span_begin span_end].
  split; [exact Run|].
  right. split; [|apply (skip_strict _ it R T)].
  rewrite <- (@span_bytes_app buf (pos it)
                (pos (skip (inside uri_scheme_set) it))
                (pos (advance (skip (inside uri_scheme_set) it))))
    by (cbn [pos advance]; lia).
  rewrite B3. reflexivity.
Qed.

Lemma uri_grammar_shape (st st' : unit) (it it' : iter)
    (R : Uri.parse_uri_result_t) :
  iter_in buf last it ->
  ParseUri.grammar st it = Matched st' R it' ->
  uri_shape buf R (span_bytes buf (span (pos it) (pos it')))
  /\ all_bytes (inside uri_scheme_set) buf (Uri.scheme R)
  /\ all_bytes (outside uri_authority_set) buf (Uri.authority R)
  /\ all_bytes (outside uri_path_set) buf (Uri.path R)
  /\ all_bytes (outside uri_query_set) buf (Uri.query R)
  /\ all_bytes (outside uri_fragment_set) buf (Uri.fragment R)
  /\ iter_in buf last it'
  /\ at_line_start buf (pos it') (rest it').
Proof.
  intros I0 E. unfold ParseUri.grammar in E.
  apply bind_Matched in E. destruct E as (st1 & o1 & it1 & E1 & E).
  apply bind_Matched in E. destruct E as (st2 & o2 & it2 & E2 & E).
  apply bind_Matched in E. destruct E as (st3 & o3 & it3 & E3 & E).
  apply bind_Matched in E. destruct E as (st4 & o4 & it4 & E4 & E).
  apply bind_Matched in E. destruct E as (st5 & o5 & it5 & E5 & E).
  apply bind_Matched in E. destruct E as (st6 & o6 & it6 & E6 & E).
  unfold ret in E.
  assert (ER : R = Uri.mk (span_of o1) (span_of o2) (span_of o3)
                     (span_of o4) (span_of o5)) by congruence.
  assert (Ei : it' = it6) by congruence. subst R it6. clear E.
  destruct (@scheme_field _ _ _ _ _ I0 E1) as (I1 & P1 & A1 & B1).
  unfold ParseUri.authority in E2.
  destruct (@optional_delimited (omit (lit "//")) ["/"%char; "/"%char]
              uri_authority_set _ _ _ _ _ omit_slashes_consumed I1 E2)
    as (I2 & P2 & A2 & B2).
  rewrite uri_path_step in E3.
  assert (Eo3 : o3 = Some (span (pos it2)
                             (pos (skip (outside uri_path_set) it2))))
    by congruence.
  assert (Ei3 : it3 = skip (outside uri_path_set) it2) by congruence.
  subst o3 it3. clear E3.
  destruct (iter_in_skip (outside uri_path_set) I2) as [I3 B3].
  pose proof (iter_le_pos (skip_le (outside uri_path_set) it2)) as P3.
  unfold ParseUri.query in E4.
  destruct (@optional_delimited (omit (char_set "?")) ["?"%char]
              uri_query_set _ _ _ _ _ (omit_char_consumed "?") I3 E4)
    as (I4 & P4 & A4 & B4).
  unfold ParseUri.fragment in E5.
  destruct (@optional_delimited (omit (char_set "#")) ["#"%char]
              uri_fragment_set _ _ _ _ _ (omit_char_consumed "#") I4 E5)
    as (I5 & P5 & A5 & B5).
  unfold omit in E6. apply bind_Matched in E6.
  destruct E6 as (st7 & a7 & it7 & E7 & E8).
  unfold ret in E8. assert (it' = it7) by congruence. subst it7. clear E8.
  destruct (@line_end_consumed _ buf last _ _ _ _ _ I5 E7)
    as (I6 & P6 & B6 & S6).
  cbn [Uri.scheme Uri.authority Uri.path Uri.query Uri.fragment span_of].
  split.
  { exists (span_bytes buf (span (pos it) (pos it1))),
           (span_bytes buf (span (pos it1) (pos it2))),
           (span_bytes buf (span (pos (skip (outside uri_path_set) it2))
                                 (pos it4))),
           (span_bytes buf (span (pos it4) (pos it5))),
           (span_bytes buf (span (pos it5) (pos it'))).
    cbn [Uri.scheme Uri.authority Uri.path Uri.query Uri.fragment span_of].
    split.
    { rewrite (@span_bytes_app buf (pos it4) (pos it5) (pos it')) by lia.
      rewrite (@span_bytes_app buf
                 (pos (skip (outside uri_path_set) it2)) (pos it4) (pos it'))
        by lia.
      rewrite (@span_bytes_app buf (pos it2)
                 (pos (skip (outside uri_path_set) it2)) (pos it')) by lia.
      rewrite (@span_bytes_app buf (pos it1) (pos it2) (pos it')) by lia.
      rewrite (@span_bytes_app buf (pos it) (pos it1) (pos it')) by lia.
      reflexivity. }
    split; [destruct B1 as [B1 | [B1 _]]; [left | right]; exact B1|].
    split.
    { destruct B2 as [[B2 ->] | B2]; [left; split; [exact B2 | reflexivity]|].
      right. exact B2. }
    split.
    { destruct B4 as [[B4 ->] | B4]; [left; split; [exact B4 | reflexivity]|].
      right. exact B4. }
    split.
    { destruct B5 as [[B5 ->] | B5]; [left; split; [exact B5 | reflexivity]|].
      right. exact B5. }
    destruct B6 as [[B6 _] | B6]; [left | right]; exact B6. }
  split; [exact A1|]. split; [exact A2|].
  split; [apply (all_bytes_skip (outside uri_path_set) I2)|].
  split; [exact A4|]. split; [exact A5|]. split; [exact I6 | exact S6].
Qed.

End UriFields.

(* ================================================================== *)
(** ** Rendering *)

Lemma split_at_lf (l1 r1 l2 r2 : list ascii) :
  ~ In LF l1 -> ~ In LF l2 ->
  l1 ++ LF :: r1 = l2 ++ LF :: r2 -> l1 = l2 /\ r1 = r2.
Proof.
  revert l2. induction l1 as [|c l1 IH]; intros [|d l2] N1 N2 E;
    simpl in *.
  - inversion E. auto.
  - inversion E; subst. exfalso. apply N2. left. reflexivity.
  - inversion E; subst. exfalso. apply N1. left. reflexivity.
  - inversion E; subst.
    destruct (IH l2) as [-> ->]; auto.
Qed.

Lemma no_lf (test : ascii -> bool) (buf : buffer) (s : span_t) :
  test LF = false -> all_bytes test buf s -> ~ In LF (span_bytes buf s).
Proof.
  intros T H Hin. unfold all_bytes in H.
  rewrite Forall_forall in H. specialize (H _ Hin). congruence.
Qed.

Lemma line_count_app (a b : ostream) :
  line_count (a ++ b) = line_count a + line_count b.
Proof. unfold line_count. apply count_occ_app. Qed.

Lemma line_count_no_lf (l : list ascii) :
  ~ In LF l -> line_count l = 0.
Proof.
  unfold line_count. intros H. apply count_occ_not_In. exact H.
Qed.

Lemma field_lines_injective (labels : list string)
    (fields1 fields2 : list (list ascii)) :
  length fields1 = length labels -> length fields2 = length labels ->
  Forall lf_free fields1 -> Forall lf_free fields2 ->
  field_lines (combine labels fields1) = field_lines (combine labels fields2) ->
  fields1 = fields2.
Proof.
  revert fields1 fields2.
  induction labels as [|l labels IH]; intros [|f1 t1] [|f2 t2] L1 L2 N1 N2 E;
    try discriminate; [reflexivity|].
  inversion N1; inversion N2; subst.
  cbn [combine field_lines flat_map fst snd] in E.
  rewrite <- !app_assoc in E. apply app_inv_head in E.
  cbn [app] in E.
  apply split_at_lf in E; [|assumption|assumption].
  destruct E as [-> E]. f_equal.
  apply IH; auto.
Qed.

Lemma all_bytes_lf_free (test : ascii -> bool) (buf : buffer) (s : span_t) :
  test LF = false -> all_bytes test buf s -> lf_free (span_bytes buf s).
Proof. exact (@no_lf test buf s). Qed.

Lemma put_request_line_lines (buf : buffer) (o : ostream)
    (R : RequestLine.parse_request_line_result_t) :
  put_request_line buf o R
  = o ++ field_lines
           [("method="%string, span_bytes buf (RequestLine.method R));
            ("uri="%string, span_bytes buf (RequestLine.uri R));
            ("version="%string, span_bytes buf (RequestLine.version R))].
Proof.
  unfold put_request_line, endl, put_span, put_string, field_lines.
  cbn [flat_map fst snd]. rewrite <- !app_assoc. rewrite app_nil_r.
  reflexivity.
Qed.

Lemma put_response_line_lines (buf : buffer) (o : ostream)
    (R : ResponseLine.parse_response_line_result_t) :
  put_response_line buf o R
  = o ++ field_lines
           [("version="%string, span_bytes buf (ResponseLine.version R));
            ("status="%string, span_bytes buf (ResponseLine.status R));
            ("message="%string, span_bytes buf (ResponseLine.message R))].
Proof.
  unfold put_response_line, endl, put_span, put_string, field_lines.
  cbn [flat_map fst snd]. rewrite <- !app_assoc. rewrite app_nil_r.
  reflexivity.
Qed.

Lemma put_uri_lines (buf : buffer) (o : ostream) (R : Uri.parse_uri_result_t) :
  put_uri buf o R
  = o ++ field_lines
           [("scheme="%string, span_bytes buf (Uri.scheme R));
            ("authority="%string, span_bytes buf (Uri.authority R));
            ("path="%string, span_bytes buf (Uri.path R));
            ("query="%string, span_bytes buf (Uri.query R));
            ("fragment="%string, span_bytes buf (Uri.fragment R))].
Proof.
  unfold put_uri, endl, put_span, put_string, field_lines.
  cbn [flat_map fst snd]. rewrite <- !app_assoc. rewrite app_nil_r.
  reflexivity.
Qed.

Lemma put_authority_lines (buf : buffer) (o : ostream)
    (R : Authority.parse_authority_result_t) :
  put_authority buf o R
  = o ++ field_lines
           [("username="%string, span_bytes buf (Authority.username R));
            ("password="%string, span_bytes buf (Authority.password R));
            ("host="%string, span_bytes buf (Authority.host R));
            ("port="%string, span_bytes buf (Authority.port R))].
Proof.
  unfold put_authority, endl, put_span, put_string, field_lines.
  cbn [flat_map fst snd]. rewrite <- !app_assoc. rewrite app_nil_r.
  reflexivity.
Qed.

Lemma word_byte_lf : word_byte LF = false.
Proof. reflexivity. Qed.

Lemma line_byte_lf : line_byte LF = false.
Proof. reflexivity. Qed.

Lemma key_byte_lf : key_byte LF = false.
Proof. reflexivity. Qed.

Lemma authority_byte_lf : authority_byte LF = false.
Proof. reflexivity. Qed.

(** The values of a header entry and the line end: one LF, the last. *)
Lemma put_values_count (buf : buffer) (values : list span_t) :
  Forall (value_ok buf) values ->
  forall (o : ostream) (first : bool),
    line_count (put_values buf o first values) = line_count o.
Proof.
  induction 1 as [|v tl [_ Hv] _ IH]; intros o first; [reflexivity|].
  cbn [put_values]. rewrite IH. unfold put_span.
  rewrite line_count_app.
  rewrite (@line_count_no_lf _ (all_bytes_lf_free line_byte_lf Hv)).
  assert (B : line_count (list_ascii_of_string " ") = 0) by reflexivity.
  destruct first; cbn [negb]; unfold put_string;
    rewrite ?line_count_app, ?B; lia.
Qed.

Lemma put_header_count (buf : buffer) (o : ostream) (h : header_t) :
  entry_ok buf h -> line_count (put_header buf o h) = S (line_count o).
Proof.
  intros [[Hk _] Hv]. unfold put_header, endl.
  rewrite line_count_app, (put_values_count Hv).
  unfold put_string, put_span. rewrite !line_count_app.
  rewrite (@line_count_no_lf _ (all_bytes_lf_free key_byte_lf Hk)).
  change (line_count (list_ascii_of_string "=")) with 0.
  change (line_count [LF]) with 1. lia.
Qed.

Lemma put_headers_count (buf : buffer) (R : parse_headers_result_t)
    (o : ostream) :
  entries_ok buf R ->
  line_count (put_headers buf o R) = line_count o + length (headers R) + 1.
Proof.
  unfold entries_ok, put_headers. intros H.
  assert (F : forall o,
             line_count (fold_left (put_header buf) (headers R) o)
             = line_count o + length (headers R)).
  { induction H as [|h tl Hh _ IH]; intros o'; simpl; [lia|].
    rewrite IH, (put_header_count o' Hh). lia. }
  unfold endl, put_string. rewrite !line_count_app, F.
  change (line_count [LF]) with 1.
  change (line_count (list_ascii_of_string "terminated=")) with 0.
  assert (B : line_count (list_ascii_of_string
                            (if terminated R then "true" else "false")) = 0)
    by (destruct (terminated R); reflexivity).
  rewrite B. lia.
Qed.

(* ================================================================== *)
(** ** The request line and the response line *)

(** X4.  Where the fields of a parsed request line lie: [method] and [uri] are
    not empty, [method] starts at or after the input, at least one byte
    separates it from [uri], and [version] is either left value-initialised
    or a non-empty span at least one byte after [uri]; all of them end at
    or before the new start of the input. *)
Theorem request_line_layout (buf : buffer) (input : span_t)
    (R : RequestLine.parse_request_line_result_t) (input' : span_t) :
  span_wf buf input ->
  parse_request_line buf input = (Returned R, input') ->
  span_begin input <= span_begin (RequestLine.method R)
  /\ span_begin (RequestLine.method R) < span_end (RequestLine.method R)
  /\ span_end (RequestLine.method R) < span_begin (RequestLine.uri R)
  /\ span_begin (RequestLine.uri R) < span_end (RequestLine.uri R)
  /\ span_end (RequestLine.uri R) <= span_begin input'
  /\ (RequestLine.version R = span_default
      \/ span_end (RequestLine.uri R) < span_begin (RequestLine.version R)
         /\ span_begin (RequestLine.version R)
            < span_end (RequestLine.version R)
         /\ span_end (RequestLine.version R) <= span_begin input').
Proof.
  intros Hwf E. apply parse_direct_Returned in E.
  destruct E as (it' & E & ->). unfold Qi.parse in E.
  apply request_line_Matched in E. cbv zeta in E.
  destruct E as (it6 & P1 & P2 & P3 & -> & -> & V & E7).
  apply line_end_Matched in E7. destruct E7 as [L7 _].
  apply iter_le_pos in L7. cbn [span_begin span_end].
  set (it0 := mk_iter (span_begin input)
                (span_bytes buf (span (span_begin input) (span_end input))))
    in *.
  pose proof (iter_le_pos (skip_le blank it0)) as P0. cbn [pos it0] in P0.
  pose proof (iter_le_pos (skip_le blank
     (skip word_byte (skip blank (skip word_byte (skip blank it0)))))) as P4.
  destruct V as [[-> ->] | (-> & -> & P5 & P6)]; cbn [span_begin span_end].
  - repeat split; try lia; try (left; reflexivity).
  - repeat split; try lia; try (right; repeat split; lia).
Qed.

Lemma request_line_layout_witness :
  span_begin (whole lf_request) <= 0 /\ 0 < 3 /\ 3 < 4 /\ 4 < 5 /\ 5 <= 15
  /\ (span 6 14 = span_default \/ 5 < 6 /\ 6 < 14 /\ 14 <= 15).
Proof.
  exact (@request_line_layout lf_request (whole lf_request)
           (RequestLine.mk (span 0 3) (span 4 5) (span 6 14)) (span 15 20)
           (whole_wf lf_request) eq_refl).
Defined.

Lemma request_line_fields (buf : buffer) (input : span_t)
    (R : RequestLine.parse_request_line_result_t) (input' : span_t) :
  span_wf buf input ->
  parse_request_line buf input = (Returned R, input') ->
  all_bytes word_byte buf (RequestLine.method R)
  /\ all_bytes word_byte buf (RequestLine.uri R)
  /\ all_bytes word_byte buf (RequestLine.version R)
  /\ all_bytes blank buf
       (span (span_begin input) (span_begin (RequestLine.method R)))
  /\ all_bytes blank buf
       (span (span_end (RequestLine.method R))
             (span_begin (RequestLine.uri R))).
Proof.
  intros Hwf E. apply parse_direct_Returned in E.
  destruct E as (it' & E & ->). unfold Qi.parse in E.
  apply request_line_Matched in E. cbv zeta in E.
  destruct E as (it6 & P1 & P2 & P3 & -> & -> & V & E7).
  pose proof (iter_in_start Hwf) as I0.
  set (it0 := mk_iter (span_begin input)
                (span_bytes buf (span (span_begin input) (span_end input))))
    in *.
  pose proof (proj1 (iter_in_skip blank I0)) as I1.
  pose proof (proj1 (iter_in_skip word_byte I1)) as I2.
  pose proof (proj1 (iter_in_skip blank I2)) as I3.
  pose proof (proj1 (iter_in_skip word_byte I3)) as I4.
  pose proof (proj1 (iter_in_skip blank I4)) as I5.
  cbn [span_begin span_end].
  split; [apply (all_bytes_skip word_byte I1)|].
  split; [apply (all_bytes_skip word_byte I3)|].
  split; [|split; [apply (all_bytes_skip blank I0)
                  | apply (all_bytes_skip blank I2)]].
  destruct V as [[-> _] | (-> & -> & _)].
  - unfold all_bytes, span_bytes. simpl. constructor.
  - apply (all_bytes_skip word_byte I5).
Qed.

(** X5.  What the fields of a parsed request line hold: [method], [uri] and
    [version] consist of 7-bit bytes other than space, tab, CR and LF, and
    only spaces and tabs lie before [method] and between [method] and
    [uri]. *)
Theorem request_line_bytes (buf : buffer) (input : span_t)
    (R : RequestLine.parse_request_line_result_t) (input' : span_t) :
  span_wf buf input ->
  parse_request_line buf input = (Returned R, input') ->
  all_bytes word_byte buf (RequestLine.method R)
  /\ all_bytes word_byte buf (RequestLine.uri R)
  /\ all_bytes word_byte buf (RequestLine.version R)
  /\ all_bytes blank buf
       (span (span_begin input) (span_begin (RequestLine.method R)))
  /\ all_bytes blank buf
       (span (span_end (RequestLine.method R))
             (span_begin (RequestLine.uri R))).
Proof. intros Hwf E. exact (@request_line_fields _ _ _ _ Hwf E). Qed.

Lemma request_line_bytes_witness :
  all_bytes word_byte lf_request (span 0 3)
  /\ all_bytes word_byte lf_request (span 4 5)
  /\ all_bytes word_byte lf_request (span 6 14)
  /\ all_bytes blank lf_request (span 0 0)
  /\ all_bytes blank lf_request (span 3 4).
Proof.
  exact (@request_line_bytes lf_request (whole lf_request)
           (RequestLine.mk (span 0 3) (span 4 5) (span 6 14)) (span 15 20)
           (whole_wf lf_request) eq_refl).
Defined.

(* ================================================================== *)
(** ** The URI of a request *)

Lemma parse_uri_on_word (buf : buffer) (input : span_t) :
  span_wf buf input -> all_bytes word_byte buf input ->
  exists R,
    parse_uri buf input = (Returned R, span (span_end input) (span_end input)).
Proof.
  intros Hwf W. unfold parse_uri, Qi.parse.
  set (it0 := mk_iter (span_begin input)
                (span_bytes buf (span (span_begin input) (span_end input)))).
  assert (W0 : Forall (fun c => word_byte c = true) (rest it0))
    by (destruct input; exact W).
  destruct (uri_grammar_on_word tt it0 W0) as (R & it' & E & L & R').
  rewrite E. exists R. f_equal. f_equal.
  pose proof (iter_le_bound L) as B. rewrite R' in B.
  pose proof (iter_in_length (iter_in_start Hwf)) as Len.
  change (pos it0 + length (rest it0) = span_end input) in Len.
  cbn [length] in B. lia.
Qed.

(** The [uri] of a parsed request line is a span of the buffer made of
    word bytes. *)
Lemma request_line_uri_word (buf : buffer) (input : span_t)
    (R : RequestLine.parse_request_line_result_t) (input' : span_t) :
  span_wf buf input ->
  parse_request_line buf input = (Returned R, input') ->
  span_wf buf (RequestLine.uri R)
  /\ all_bytes word_byte buf (RequestLine.uri R).
Proof.
  intros Hwf E. apply parse_direct_Returned in E.
  destruct E as (it' & E & ->). unfold Qi.parse in E.
  apply request_line_Matched in E. cbv zeta in E.
  destruct E as (it6 & P1 & P2 & P3 & _ & -> & _ & _).
  pose proof (iter_in_start Hwf) as I0.
  set (it0 := mk_iter (span_begin input)
                (span_bytes buf (span (span_begin input) (span_end input))))
    in *.
  pose proof (proj1 (iter_in_skip blank I0)) as I1.
  pose proof (proj1 (iter_in_skip word_byte I1)) as I2.
  pose proof (proj1 (iter_in_skip blank I2)) as I3.
  pose proof (proj1 (iter_in_skip word_byte I3)) as I4.
  split; [|apply (all_bytes_skip word_byte I3)].
  destruct I4 as (A & B & _). unfold span_wf. cbn [span_begin span_end].
  lia.
Qed.

(** X8.  On an input made of 7-bit bytes other than space, tab, CR and LF,
    [parse_uri] does not throw and consumes the whole input. *)
Theorem parse_uri_consumes_word (buf : buffer) (input : span_t) :
  span_wf buf input -> all_bytes word_byte buf input ->
  exists R input',
    parse_uri buf input = (Returned R, input')
    /\ span_empty input' = true
    /\ span_begin input' = span_end input.
Proof.
  intros Hwf W. destruct (@parse_uri_on_word _ _ Hwf W) as (R & E).
  exists R. eexists. split; [exact E|]. cbn. rewrite Nat.eqb_refl. auto.
Qed.

Lemma plain_uri_word : all_bytes word_byte plain_uri (whole plain_uri).
Proof.
  unfold all_bytes. vm_compute.
  repeat (constructor; [reflexivity|]). constructor.
Qed.

Lemma parse_uri_consumes_word_witness :
  exists R input',
    parse_uri plain_uri (whole plain_uri) = (Returned R, input')
    /\ span_empty input' = true
    /\ span_begin input' = span_end (whole plain_uri).
Proof.
  exact (@parse_uri_consumes_word plain_uri (whole plain_uri)
           (whole_wf plain_uri) plain_uri_word).
Defined.

Lemma parse_direct_Thrown {Result} name (buf : buffer) (input : span_t)
    (g : parser unit Result) e input' :
  parse_direct name buf input g = (Thrown e, input') ->
  input' = input
  /\ errinfo_what e = ("Incomplete " ++ name ++ ".")%string.
Proof.
  unfold parse_direct.
  destruct (Qi.parse buf (span_begin input) (span_end input) g tt);
    intros E; inversion E; subst. split; reflexivity.
Qed.

Lemma parse_headers_Thrown (buf : buffer) (input : span_t) e input' :
  parse_headers buf input = (Thrown e, input') ->
  input' = input /\ errinfo_what e = "Incomplete headers."%string.
Proof.
  unfold parse_headers, parse_indirect.
  destruct (Qi.parse buf (span_begin input) (span_end input) _ _);
    intros E; inversion E; subst. split; reflexivity.
Qed.

(** X9.  How [parse_request] throws.  Either the request line is incomplete and
    the input is untouched, or the header block is incomplete and the input
    is left just after the request line.  The URI of a parsed request line
    always parses and is always consumed whole: neither "Incomplete URI."
    nor "URI not fully parsed." is ever thrown. *)
Theorem parse_request_throws (buf : buffer) (input : span_t)
    (e : error) (input' : span_t) :
  span_wf buf input ->
  parse_request buf input = (Thrown e, input') ->
  (parse_request_line buf input = (Thrown e, input)
   /\ input' = input
   /\ errinfo_what e = "Incomplete request line."%string)
  \/ (exists request_line,
        parse_request_line buf input = (Returned request_line, input')
        /\ parse_headers buf input' = (Thrown e, input')
        /\ span_begin input < span_begin input'
        /\ errinfo_what e = "Incomplete headers."%string).
Proof.
  intros Hwf. unfold parse_request.
  destruct (parse_request_line buf input) as [[rl|e1| |] input1] eqn:EL.
  - destruct (@request_line_uri_word _ _ _ _ Hwf EL) as [Wu Bu].
    destruct (@parse_uri_on_word _ _ Wu Bu) as (Ru & EU). rewrite EU.
    unfold span_empty. cbn [span_begin span_end]. rewrite Nat.eqb_refl.
    cbn [negb].
    destruct (parse_headers buf input1) as [[h|e2| |] input2] eqn:EH;
      intros E; inversion E; subst.
    right. destruct (@parse_headers_Thrown _ _ _ _ EH) as [-> W].
    exists rl. split; [reflexivity|]. split; [exact EH|].
    split; [|exact W].
    apply (@parse_direct_position _ _ buf input _ _ _ Hwf
             request_line_consuming EL).
  - intros E; inversion E; subst. left.
    destruct (@parse_direct_Thrown _ _ _ _ _ _ _ EL) as [-> W].
    split; [reflexivity|]. split; [reflexivity | exact W].
  - intros E; inversion E.
  - intros E; inversion E.
Qed.

Lemma parse_request_throws_witness :
  exists e input',
    parse_request request_without_headers (whole request_without_headers)
    = (Thrown e, input')
    /\ errinfo_what e = "Incomplete headers."%string
    /\ input' = span 15 15.
Proof.
  eexists. eexists. split; [vm_compute; reflexivity|].
  destruct (@parse_request_throws request_without_headers
              (whole request_without_headers) _ _
              (whole_wf request_without_headers) eq_refl)
    as [(_ & H & _) | (rl & H & _ & _ & W)].
  - discriminate H.
  - split; [exact W | reflexivity].
Defined.

(** X10.  How [parse_response] throws: on an incomplete response line, with the
    input untouched, or on an incomplete header block, with the input left
    just after the response line. *)
Theorem parse_response_throws (buf : buffer) (input : span_t)
    (e : error) (input' : span_t) :
  span_wf buf input ->
  parse_response buf input = (Thrown e, input') ->
  (parse_response_line buf input = (Thrown e, input)
   /\ input' = input
   /\ errinfo_what e = "Incomplete response line."%string)
  \/ (exists response_line,
        parse_response_line buf input = (Returned response_line, input')
        /\ parse_headers buf input' = (Thrown e, input')
        /\ span_begin input < span_begin input'
        /\ errinfo_what e = "Incomplete headers."%string).
Proof.
  intros Hwf. unfold parse_response.
  destruct (parse_response_line buf input) as [[rl|e1| |] input1] eqn:EL.
  - destruct (parse_headers buf input1) as [[h|e2| |] input2] eqn:EH;
      intros E; inversion E; subst.
    right. destruct (@parse_headers_Thrown _ _ _ _ EH) as [-> W].
    exists rl. split; [reflexivity|]. split; [exact EH|].
    split; [|exact W].
    apply (@parse_direct_position _ _ buf input _ _ _ Hwf
             response_line_consuming EL).
  - intros E; inversion E; subst. left.
    destruct (@parse_direct_Thrown _ _ _ _ _ _ _ EL) as [-> W].
    split; [reflexivity|]. split; [reflexivity | exact W].
  - intros E; inversion E.
  - intros E; inversion E.
Qed.

Lemma parse_response_throws_witness :
  exists e input',
    parse_response response_without_headers (whole response_without_headers)
    = (Thrown e, input')
    /\ errinfo_what e = "Incomplete headers."%string
    /\ input' = span 16 16.
Proof.
  eexists. eexists. split; [vm_compute; reflexivity|].
  destruct (@parse_response_throws response_without_headers
              (whole response_without_headers) _ _
              (whole_wf response_without_headers) eq_refl)
    as [(_ & H & _) | (rl & H & _ & _ & W)].
  - discriminate H.
  - split; [exact W | reflexivity].
Defined.

(* ================================================================== *)
(** ** The input after a successful parse *)

Lemma uri_grammar_advancing : advancing ParseUri.grammar.
Proof.
  unfold ParseUri.grammar.
  apply advancing_bind; [apply scheme_advancing|]. intros s.
  unfold ParseUri.authority, ParseUri.path, ParseUri.query,
    ParseUri.fragment, char_set.
  qi_progress.
Qed.

Lemma authority_grammar_advancing : advancing ParseAuthority.grammar.
Proof.
  unfold ParseAuthority.grammar, ParseAuthority.userinfo_branch,
    ParseAuthority.host_branch, ParseAuthority.word, char_set.
  qi_progress.
Qed.

Lemma path_grammar_advancing (dsep esep : ascii) :
  advancing (ParsePath.grammar dsep esep).
Proof.
  unfold ParsePath.grammar, ParsePath.dirsep, ParsePath.dirstr,
    ParsePath.extsep, ParsePath.extstr, char_lit, char_.
  qi_progress.
Qed.

Lemma matched_moved_forward {St A} (buf : buffer) (input : span_t)
    (g : parser St A) (st st' : St) (a : A) (it' : iter) :
  span_wf buf input -> advancing g ->
  Qi.parse buf (span_begin input) (span_end input) g st = Matched st' a it' ->
  moved_forward 0 input (span (pos it') (span_end input)).
Proof.
  intros Hwf Hg E.
  pose proof (@parse_matched_position _ _ buf input _ _ _ _ _ Hwf Hg E).
  unfold moved_forward. cbn [span_begin span_end]. lia.
Qed.

Lemma matched_moved_forward_strictly {St A} (buf : buffer) (input : span_t)
    (g : parser St A) (st st' : St) (a : A) (it' : iter) :
  span_wf buf input -> consuming g ->
  Qi.parse buf (span_begin input) (span_end input) g st = Matched st' a it' ->
  moved_forward 1 input (span (pos it') (span_end input)).
Proof.
  intros Hwf Hg E.
  pose proof (@parse_matched_position _ _ buf input _ _ _ _ _ Hwf
                (consuming_advancing Hg) E).
  pose proof (@parse_matched_strict _ _ buf input _ _ _ _ _ Hg E).
  unfold moved_forward. cbn [span_begin span_end]. lia.
Qed.

Lemma moved_forward_trans (a b : nat) (i1 i2 i3 : span_t) :
  moved_forward a i1 i2 -> moved_forward b i2 i3 ->
  moved_forward (a + b) i1 i3.
Proof. unfold moved_forward. intros (E1 & A1 & B1) (E2 & A2 & B2). lia. Qed.

(** X11.  After a successful parse the caller's input is a suffix of what it was:
    the end is the same and the start has moved forward within the input.
    A header block and a request or response line consume at least one
    byte, a request or a response at least two; [parse_uri],
    [parse_authority] and [parse_path] may consume nothing. *)
Theorem input_after_success (buf : buffer) (input : span_t) :
  span_wf buf input ->
  (forall R input', parse_headers buf input = (Returned R, input') ->
     moved_forward 1 input input')
  /\ (forall R input', parse_request_line buf input = (Returned R, input') ->
     moved_forward 1 input input')
  /\ (forall R input', parse_response_line buf input = (Returned R, input') ->
     moved_forward 1 input input')
  /\ (forall R input', parse_uri buf input = (Returned R, input') ->
     moved_forward 0 input input')
  /\ (forall R input', parse_authority buf input = (Returned R, input') ->
     moved_forward 0 input input')
  /\ (forall dsep esep R input',
        parse_path buf input dsep esep = (Returned R, input') ->
     moved_forward 0 input input')
  /\ (forall R input', parse_request buf input = (Returned R, input') ->
     moved_forward 2 input input')
  /\ (forall R input', parse_response buf input = (Returned R, input') ->
     moved_forward 2 input input').
Proof.
  intros Hwf.
  assert (HH : forall i R i', span_wf buf i ->
             parse_headers buf i = (Returned R, i') -> moved_forward 1 i i').
  { intros i R i' Wi E. apply parse_indirect_Returned in E.
    destruct E as (a & it' & E & ->).
    eapply matched_moved_forward_strictly;
      [exact Wi | apply headers_grammar_consuming | exact E]. }
  assert (HQ : forall R i', parse_request_line buf input = (Returned R, i') ->
             moved_forward 1 input i').
  { intros R i' E. apply parse_direct_Returned in E.
    destruct E as (it' & E & ->).
    eapply matched_moved_forward_strictly;
      [exact Hwf | apply request_line_consuming | exact E]. }
  assert (HS : forall R i', parse_response_line buf input = (Returned R, i') ->
             moved_forward 1 input i').
  { intros R i' E. apply parse_direct_Returned in E.
    destruct E as (it' & E & ->).
    eapply matched_moved_forward_strictly;
      [exact Hwf | apply response_line_consuming | exact E]. }
  assert (Wf : forall n i', moved_forward n input i' -> span_wf buf i').
  { intros n i' (E & A & B). destruct Hwf. unfold span_wf. lia. }
  split; [intros R i'; apply HH; exact Hwf|].
  split; [exact HQ|]. split; [exact HS|].
  split.
  { intros R i' E. unfold parse_uri in E.
    destruct (Qi.parse buf (span_begin input) (span_end input)
                ParseUri.grammar tt) as [st1 R1 it1| | |] eqn:P;
      inversion E; subst.
    eapply matched_moved_forward;
      [exact Hwf | apply uri_grammar_advancing | exact P]. }
  split.
  { intros R i' E. apply parse_indirect_Returned in E.
    destruct E as (a & it' & E & ->).
    eapply matched_moved_forward;
      [exact Hwf | apply authority_grammar_advancing | exact E]. }
  split.
  { intros dsep esep R i' E. unfold parse_path in E.
    destruct (parse_direct "path" buf input (ParsePath.grammar dsep esep))
      as [[[[d b] x]|e| |] i1] eqn:P; inversion E; subst.
    apply parse_direct_Returned in P. destruct P as (it' & P & ->).
    eapply matched_moved_forward;
      [exact Hwf | apply path_grammar_advancing | exact P]. }
  split.
  { intros R i' E. apply parse_request_Returned in E.
    destruct E as (i1 & EL & _ & EH).
    pose proof (HQ _ _ EL) as M1.
    apply (moved_forward_trans M1 (HH _ _ _ (Wf _ _ M1) EH)). }
  { intros R i' E. apply parse_response_Returned in E.
    destruct E as (i1 & EL & _ & EH).
    pose proof (HS _ _ EL) as M1.
    apply (moved_forward_trans M1 (HH _ _ _ (Wf _ _ M1) EH)). }
Qed.

Lemma input_after_success_witness :
  moved_forward 2 (whole lf_request) (span 20 20).
Proof.
  destruct (@input_after_success lf_request (whole lf_request)
              (whole_wf lf_request))
    as (_ & _ & _ & _ & _ & _ & H & _).
  eapply H. vm_compute. reflexivity.
Defined.

(* ================================================================== *)
(** ** The empty input *)

(** X12.  On an empty input, wherever it lies, the header block, both lines and
    both composites throw with the input untouched and the start of the
    input as the location of the error; [parse_uri] and [parse_path] return,
    with an empty path, respectively an empty directory, base and file, at
    the start of the input and every other span value-initialised. *)
Theorem parse_empty_input (buf : buffer) (b : nat) :
  let input := span b b in
  parse_headers buf input = (Thrown (incomplete "headers" b), input)
  /\ parse_request_line buf input
     = (Thrown (incomplete "request line" b), input)
  /\ parse_response_line buf input
     = (Thrown (incomplete "response line" b), input)
  /\ parse_request buf input
     = (Thrown (incomplete "request line" b), input)
  /\ parse_response buf input
     = (Thrown (incomplete "response line" b), input)
  /\ parse_uri buf input
     = (Returned (Uri.mk span_default span_default input
                    span_default span_default), input)
  /\ (forall dsep esep,
        parse_path buf input dsep esep
        = (Returned (Path.mk input input input span_default dsep esep),
           input)).
Proof.
  cbv zeta.
  assert (EQ : parse_request_line buf (span b b)
               = (Thrown (incomplete "request line" b), span b b)).
  { unfold parse_request_line, parse_direct, Qi.parse.
    cbn [span_begin span_end]. rewrite span_bytes_empty. reflexivity. }
  assert (ES : parse_response_line buf (span b b)
               = (Thrown (incomplete "response line" b), span b b)).
  { unfold parse_response_line, parse_direct, Qi.parse.
    cbn [span_begin span_end]. rewrite span_bytes_empty. reflexivity. }
  split.
  { unfold parse_headers, parse_indirect, Qi.parse.
    cbn [span_begin span_end]. rewrite span_bytes_empty. reflexivity. }
  split; [exact EQ|]. split; [exact ES|].
  split; [unfold parse_request; rewrite EQ; reflexivity|].
  split; [unfold parse_response; rewrite ES; reflexivity|].
  split.
  { unfold parse_uri, Qi.parse.
    cbn [span_begin span_end]. rewrite span_bytes_empty. cbn.
    rewrite ?Nat.add_0_r. reflexivity. }
  intros dsep esep. unfold parse_path, parse_direct, Qi.parse.
  cbn [span_begin span_end]. rewrite span_bytes_empty. cbn.
  rewrite ?Nat.add_0_r, ?Nat.eqb_refl. reflexivity.
Qed.

(* ================================================================== *)
(** ** What an authority is made of *)

Section AuthorityShape.
Import Authority ParseAuthority.

Variable buf : buffer.
Variable last : nat.

Lemma seg_skip (p : nat) (test : ascii -> bool) (it : iter) :
  iter_in buf last it -> p <= pos it ->
  span_bytes buf (span p (pos it))
  ++ span_bytes buf (span (pos it) (pos (skip test it)))
  = span_bytes buf (span p (pos (skip test it))).
Proof.
  intros Hin Hp. apply span_bytes_app; [exact Hp|].
  apply iter_le_pos, skip_le.
Qed.

Lemma seg_advance (p : nat) (it : iter) (c : ascii) (tl : list ascii) :
  iter_in buf last it -> rest it = c :: tl -> p <= pos it ->
  span_bytes buf (span p (pos it)) ++ [c]
  = span_bytes buf (span p (pos (advance it))).
Proof.
  intros Hin R Hp. rewrite <- (proj2 (iter_in_advance Hin R)).
  apply span_bytes_app; [exact Hp | simpl; lia].
Qed.

(** The port after either alternative: what it adds to the bytes consumed
    and to the result. *)
Lemma port_part_shape (st R : St) (it it' : iter) (u : unit) :
  iter_in buf last it ->
  port st = span_default ->
  (optional (omit (lit ":") >> action word set_port) >> ret tt) st it
  = Matched R u it' ->
  username R = username st /\ password R = password st
  /\ host R = host st
  /\ iter_in buf last it'
  /\ pos it <= pos it'
  /\ all_bytes authority_byte buf (port R)
  /\ (it' = it \/ exists it0, it' = skip authority_byte it0)
  /\ ((span_bytes buf (span (pos it) (pos it')) = []
       /\ port R = span_default)
      \/ span_bytes buf (span (pos it) (pos it'))
         = ":"%char :: span_bytes buf (port R)).
Proof.
  intros Hin Hp E. rewrite port_part_eq in E.
  assert (NONE : Matched st tt it = Matched R u it' ->
    username R = username st /\ password R = password st
    /\ host R = host st
    /\ iter_in buf last it'
    /\ pos it <= pos it'
    /\ all_bytes authority_byte buf (port R)
    /\ (it' = it \/ exists it0, it' = skip authority_byte it0)
    /\ ((span_bytes buf (span (pos it) (pos it')) = []
         /\ port R = span_default)
        \/ span_bytes buf (span (pos it) (pos it'))
           = ":"%char :: span_bytes buf (port R))).
  { intros E'. inversion E'; subst.
    split; [reflexivity|]. split; [reflexivity|]. split; [reflexivity|].
    split; [exact Hin|]. split; [apply le_n|].
    split; [rewrite Hp; apply all_bytes_default|].
    split; [left; reflexivity|].
    left. split; [apply span_bytes_empty | exact Hp]. }
  destruct (rest it) as [|c tl] eqn:Rit; [exact (NONE E)|].
  destruct (Ascii.eqb c ":") eqn:C; [|exact (NONE E)].
  apply Ascii.eqb_eq in C. subst c.
  assert (ER : R = Authority.mk (username st) (password st) (host st)
                     (span (pos (advance it))
                           (pos (skip authority_byte (advance it)))))
    by congruence.
  assert (Eit : it' = skip authority_byte (advance it)) by congruence.
  subst R it'. clear NONE E.
  destruct (iter_in_advance Hin Rit) as [I1 B1].
  destruct (iter_in_skip authority_byte I1) as [I2 B2].
  cbn [username password host port].
  split; [reflexivity|]. split; [reflexivity|]. split; [reflexivity|].
  split; [exact I2|].
  split.
  { pose proof (iter_le_pos (skip_le authority_byte (advance it))) as Q.
    cbn [pos advance] in Q. lia. }
  split; [unfold all_bytes; rewrite B2; apply take_while_all|].
  split; [right; eexists; reflexivity|].
  right.
  rewrite <- (@seg_skip (pos it) authority_byte (advance it) I1)
    by (simpl; lia).
  rewrite B1. reflexivity.
Qed.

Lemma authority_grammar_shape (it it' : iter) (R : St) (u : unit) :
  iter_in buf last it ->
  grammar R0 it = Matched R u it' ->
  authority_shape buf R (span_bytes buf (span (pos it) (pos it')))
  /\ all_bytes authority_byte buf (username R)
  /\ all_bytes authority_byte buf (password R)
  /\ all_bytes authority_byte buf (host R)
  /\ all_bytes authority_byte buf (port R)
  /\ iter_in buf last it'
  /\ stops_at authority_byte (rest it').
Proof.
  intros I0 E. unfold grammar in E. unfold bind at 1 in E.
  unfold alt in E. rewrite userinfo_branch_eq in E. cbv zeta in E.
  destruct (iter_in_skip authority_byte I0) as [I1 B1].
  pose proof (iter_le_pos (skip_le authority_byte it)) as P1.
  set (it1 := skip authority_byte it) in *.
  assert (HOST : forall st,
            (host_branch st it = Matched
               (Authority.mk span_default span_default
                  (span (pos it) (pos it1)) span_default) tt it1))
    by (intros st; apply host_branch_eq).
  (* the host alone, after the first alternative failed *)
  assert (ALONE : forall st,
    match host_branch st it with
    | Matched st' _ it'' =>
        (optional (omit (lit ":") >> action word set_port) >> ret tt) st' it''
    | Failed st' => Failed st'
    | Undefined => Undefined
    | Diverged => Diverged
    end = Matched R u it' ->
    authority_shape buf R (span_bytes buf (span (pos it) (pos it')))
    /\ all_bytes authority_byte buf (username R)
    /\ all_bytes authority_byte buf (password R)
    /\ all_bytes authority_byte buf (host R)
    /\ all_bytes authority_byte buf (port R)
    /\ iter_in buf last it'
    /\ stops_at authority_byte (rest it')).
  { intros st E'. rewrite HOST in E'.
    destruct (@port_part_shape
                (Authority.mk span_default span_default
                   (span (pos it) (pos it1)) span_default)
                _ _ _ _ I1 eq_refl E')
      as (U & P & H & I' & Q & AP & F & T).
    cbn [username password host port] in U, P, H.
    split.
    { exists [], (span_bytes buf (span (pos it1) (pos it'))).
      rewrite H. cbn [app].
      split; [symmetry; apply span_bytes_app; assumption|].
      split; [left; auto|].
      destruct T as [[T1 T2] | T]; [left | right]; auto. }
    rewrite U, P, H.
    split; [apply all_bytes_default|]. split; [apply all_bytes_default|].
    split; [unfold all_bytes; fold it1; rewrite B1; apply take_while_all|].
    split; [exact AP|]. split; [exact I'|].
    destruct F as [-> | (x & ->)]; apply skip_stops. }
  (* the first alternative *)
  assert (USER : forall (R2 : St) (it2 : iter) (tl2 prefix : list ascii),
    iter_in buf last it2 -> pos it <= pos it2 ->
    rest it2 = "@"%char :: tl2 ->
    port R2 = span_default ->
    all_bytes authority_byte buf (username R2) ->
    all_bytes authority_byte buf (password R2) ->
    span_bytes buf (span (pos it) (pos it2)) ++ ["@"%char] = prefix ->
    (prefix = span_bytes buf (username R2) ++ ["@"%char]
     /\ password R2 = span_default
     \/ prefix = span_bytes buf (username R2) ++ [":"%char]
                 ++ span_bytes buf (password R2) ++ ["@"%char]) ->
    (optional (omit (lit ":") >> action word set_port) >> ret tt)
      (Authority.mk (username R2) (password R2)
         (span (pos (advance it2))
               (pos (skip authority_byte (advance it2)))) (port R2))
      (skip authority_byte (advance it2)) = Matched R u it' ->
    authority_shape buf R (span_bytes buf (span (pos it) (pos it')))
    /\ all_bytes authority_byte buf (username R)
    /\ all_bytes authority_byte buf (password R)
    /\ all_bytes authority_byte buf (host R)
    /\ all_bytes authority_byte buf (port R)
    /\ iter_in buf last it'
    /\ stops_at authority_byte (rest it')).
  { intros R2 it2 tl2 prefix I2 P2 R2' HP AU AW PRE SH E'.
    destruct (iter_in_advance I2 R2') as [I3 B3].
    destruct (iter_in_skip authority_byte I3) as [I4 B4].
    pose proof (iter_le_pos (skip_le authority_byte (advance it2))) as P4.
    assert (P3 : pos it2 <= pos (advance it2)) by (simpl; lia).
    destruct (@port_part_shape
                (Authority.mk (username R2) (password R2)
                   (span (pos (advance it2))
                         (pos (skip authority_byte (advance it2))))
                   (port R2))
                _ _ _ _ I4 HP E')
      as (U & P & H & I' & Q & AP & F & T).
    cbn [username password host port] in U, P, H.
    split.
    { exists prefix, (span_bytes buf
                        (span (pos (skip authority_byte (advance it2)))
                              (pos it'))).
      rewrite H, U, P. cbn [span_begin span_end].
      split.
      - rewrite <- PRE.
        rewrite (@seg_advance (pos it) it2 "@"%char tl2 I2 R2' P2).
        rewrite app_assoc.
        rewrite (@seg_skip (pos it) authority_byte (advance it2) I3)
          by lia.
        symmetry. apply span_bytes_app; lia.
      - split; [right; exact SH|].
        destruct T as [[T1 T2] | T]; [left | right]; auto. }
    rewrite U, P, H.
    split; [exact AU|]. split; [exact AW|].
    split; [unfold all_bytes; rewrite B4; apply take_while_all|].
    split; [exact AP|]. split; [exact I'|].
    destruct F as [-> | (x & ->)]; apply skip_stops. }
  assert (AU1 : all_bytes authority_byte buf (span (pos it) (pos it1)))
    by (unfold all_bytes; rewrite B1; apply take_while_all).
  destruct (rest it1) as [|c1 tl1] eqn:R1.
  - cbn [fst snd] in E. rewrite R1 in E. apply (ALONE _ E).
  - destruct (Ascii.eqb c1 ":") eqn:C1.
    + apply Ascii.eqb_eq in C1. subst c1. cbn [fst snd] in E.
      destruct (iter_in_advance I1 R1) as [I2 B2].
      destruct (iter_in_skip authority_byte I2) as [I3 B3].
      pose proof (iter_le_pos (skip_le authority_byte (advance it1))) as P3.
      assert (P2 : pos it1 <= pos (advance it1)) by (simpl; lia).
      destruct (rest (skip authority_byte (advance it1)))
        as [|c2 tl2] eqn:R3; [apply (ALONE _ E)|].
      destruct (Ascii.eqb c2 "@") eqn:C2; [|apply (ALONE _ E)].
      apply Ascii.eqb_eq in C2. subst c2.
      cbn [username password host port] in E.
      eapply (USER (Authority.mk (span (pos it) (pos it1))
                      (span (pos (advance it1))
                            (pos (skip authority_byte (advance it1))))
                      span_default span_default)
                   (skip authority_byte (advance it1)) tl2 _ I3);
        cbn [username password host port];
        [lia | exact R3 | reflexivity | exact AU1
        | unfold all_bytes; rewrite B3; apply take_while_all
        | reflexivity | | exact E].
      right.
      rewrite (app_assoc (span_bytes buf (span (pos it) (pos it1)))).
      rewrite (@seg_advance (pos it) it1 ":"%char tl1 I1 R1 P1).
      rewrite app_assoc.
      rewrite (@seg_skip (pos it) authority_byte (advance it1) I2) by lia.
      reflexivity.
    + cbn [fst snd] in E. rewrite R1 in E.
      destruct (Ascii.eqb c1 "@") eqn:C2; [|apply (ALONE _ E)].
      apply Ascii.eqb_eq in C2. subst c1.
      cbn [username password host port] in E.
      eapply (USER (Authority.mk (span (pos it) (pos it1))
                      span_default span_default span_default)
                   it1 tl1 _ I1);
        cbn [username password host port];
        [exact P1 | exact R1 | reflexivity | exact AU1
        | apply all_bytes_default | reflexivity | | exact E].
      left. split; reflexivity.
Qed.

End AuthorityShape.

Lemma parse_authority_facts (buf : buffer) (input : span_t)
    (R : Authority.parse_authority_result_t) (input' : span_t) :
  span_wf buf input ->
  parse_authority buf input = (Returned R, input') ->
  authority_shape buf R (span_bytes buf (consumed_region input input'))
  /\ all_bytes authority_byte buf (Authority.username R)
  /\ all_bytes authority_byte buf (Authority.password R)
  /\ all_bytes authority_byte buf (Authority.host R)
  /\ all_bytes authority_byte buf (Authority.port R)
  /\ stops_at authority_byte (span_bytes buf input').
Proof.
  intros Hwf E. apply parse_indirect_Returned in E.
  destruct E as (a & it' & E & ->). unfold Qi.parse in E.
  destruct (authority_grammar_shape (iter_in_start Hwf) E)
    as (S & U & P & H & T & I' & St).
  split; [exact S|]. split; [exact U|]. split; [exact P|].
  split; [exact H|]. split; [exact T|].
  destruct I' as (_ & _ & Rr). cbn [span_begin span_end]. rewrite <- Rr.
  exact St.
Qed.

(** X13.  What [parse_authority] consumed is what its result spells: the host,
    or [username@host], or [username:password@host], followed or not by
    [:port]; a field that is not part of it is left value-initialised. *)
Theorem parse_authority_spells_consumed (buf : buffer) (input : span_t)
    (R : Authority.parse_authority_result_t) (input' : span_t) :
  span_wf buf input ->
  parse_authority buf input = (Returned R, input') ->
  authority_shape buf R (span_bytes buf (consumed_region input input')).
Proof. intros Hwf E. apply (parse_authority_facts Hwf E). Qed.

Lemma parse_authority_spells_consumed_witness :
  authority_shape full_authority
    (Authority.mk (span 0 4) (span 5 9) (span 10 14) (span 15 17))
    (span_bytes full_authority
       (consumed_region (whole full_authority) (span 17 17))).
Proof.
  exact (@parse_authority_spells_consumed full_authority
           (whole full_authority) _ _ (whole_wf full_authority) eq_refl).
Defined.

(** X14.  No field of a parsed authority holds [@], a colon, a space, a tab, CR,
    LF or a byte above 127, and [parse_authority] stops only at the end of
    the input or in front of such a byte. *)
Theorem parse_authority_fields_and_stop (buf : buffer) (input : span_t)
    (R : Authority.parse_authority_result_t) (input' : span_t) :
  span_wf buf input ->
  parse_authority buf input = (Returned R, input') ->
  all_bytes authority_byte buf (Authority.username R)
  /\ all_bytes authority_byte buf (Authority.password R)
  /\ all_bytes authority_byte buf (Authority.host R)
  /\ all_bytes authority_byte buf (Authority.port R)
  /\ stops_at authority_byte (span_bytes buf input').
Proof. intros Hwf E. apply (parse_authority_facts Hwf E). Qed.

Lemma parse_authority_fields_and_stop_witness :
  all_bytes authority_byte two_colons_authority span_default
  /\ all_bytes authority_byte two_colons_authority span_default
  /\ all_bytes authority_byte two_colons_authority (span 0 1)
  /\ all_bytes authority_byte two_colons_authority (span 2 3)
  /\ stops_at authority_byte (span_bytes two_colons_authority (span 3 10)).
Proof.
  exact (@parse_authority_fields_and_stop two_colons_authority
           (whole two_colons_authority) _ _
           (whole_wf two_colons_authority) eq_refl).
Defined.

(* ================================================================== *)
(** ** What a path is made of *)

Section PathShape.
Variable buf : buffer.
Variable last : nat.
Variable dsep esep : ascii.

Lemma lit_char_step (ch : ascii) (st st' : unit) (u : unit) (it it' : iter) :
  iter_in buf last it ->
  lit_char ch st it = Matched st' u it' ->
  iter_in buf last it'
  /\ pos it' = S (pos it)
  /\ span_bytes buf (span (pos it) (pos it')) = [ch].
Proof.
  intros Hin E. apply lit_char_Matched in E.
  destruct E as (_ & -> & tl & R).
  destruct (iter_in_advance Hin R) as [I B].
  split; [exact I|]. split; [reflexivity | exact B].
Qed.

Lemma path_grammar_shape (it it' : iter) (d b x : span_t) :
  iter_in buf last it ->
  ParsePath.grammar dsep esep tt it = Matched tt (d, b, x) it' ->
  exists separator extension_part,
    span_bytes buf (span (pos it) (pos it'))
    = span_bytes buf d ++ separator ++ span_bytes buf b ++ extension_part
    /\ (separator = [] \/ separator = [dsep])
    /\ (extension_part = [] /\ x = span_default
        \/ extension_part = esep :: span_bytes buf x
           /\ extension_part
              = span_bytes buf (span (span_end b) (span_end x))
           /\ span_end b <= span_end x)
    /\ span_begin d = pos it /\ span_begin b <= span_end b
    /\ iter_in buf last it'.
Proof.
  intros I0 E. unfold ParsePath.grammar in E.
  apply bind_Matched in E. destruct E as ([] & d1 & it1 & E1 & E).
  apply bind_Matched in E. destruct E as ([] & o2 & it2 & E2 & E).
  apply bind_Matched in E. destruct E as ([] & b3 & it3 & E3 & E).
  apply bind_Matched in E. destruct E as ([] & x4 & it4 & E4 & E).
  unfold ret in E.
  assert (Ed : d = d1) by congruence. assert (Eb : b = b3) by congruence.
  assert (Ex : x = span_of x4) by congruence.
  assert (Ei : it' = it4) by congruence. subst d b x it'. clear E.
  (* directory *)
  pose proof E1 as A1. apply raw_Matched in A1. destruct A1 as [-> _].
  assert (L1 : iter_le it it1).
  { eapply advancing_raw; [|exact E1].
    apply advancing_kleene, consuming_advancing,
      directory_segment_consuming. }
  destruct (iter_in_le I0 L1) as [I1 _]. pose proof (iter_le_pos L1) as P1.
  (* base *)
  pose proof E3 as A3. apply raw_Matched in A3. destruct A3 as [-> _].
  assert (L3 : iter_le it2 it3).
  { eapply advancing_raw; [|exact E3].
    apply advancing_bind.
    - apply advancing_kleene, consuming_advancing, not_sep_consuming.
    - intros _. apply advancing_kleene, consuming_advancing,
        extension_segment_consuming. }
  pose proof (iter_le_pos L3) as P3.
  (* the separator after the directory *)
  assert (S2 : iter_in buf last it2 /\ pos it1 <= pos it2
               /\ (span_bytes buf (span (pos it1) (pos it2)) = []
                   \/ span_bytes buf (span (pos it1) (pos it2)) = [dsep])).
  { unfold optional, omit in E2.
    destruct ((ParsePath.dirsep dsep >> ret tt) tt it1)
      as [st5 a5 it5|st5| |] eqn:E5; try discriminate.
    - assert (it2 = it5) by congruence. subst it5.
      apply bind_Matched in E5. destruct E5 as (st6 & a6 & it6 & E6 & E7).
      unfold ret in E7. assert (it2 = it6) by congruence. subst it6.
      destruct st6.
      destruct (@lit_char_step _ _ _ _ _ _ I1 E6) as (I2 & Q & B).
      split; [exact I2|]. split; [lia | right; exact B].
    - assert (it2 = it1) by congruence. subst it2.
      split; [exact I1|]. split; [lia | left; apply span_bytes_empty]. }
  destruct S2 as (I2 & P2 & B2).
  destruct (iter_in_le I2 L3) as [I3 _].
  (* the extension *)
  assert (S4 : iter_in buf last it4 /\ pos it3 <= pos it4
               /\ (span_bytes buf (span (pos it3) (pos it4)) = []
                   /\ span_of x4 = span_default
                   \/ span_bytes buf (span (pos it3) (pos it4))
                      = esep :: span_bytes buf (span_of x4)
                      /\ pos it3 < span_begin (span_of x4)
                      /\ span_begin (span_of x4) <= span_end (span_of x4))).
  { unfold optional in E4.
    destruct ((omit (ParsePath.extsep esep) >> raw (kleene char_)) tt it3)
      as [st5 a5 it5|st5| |] eqn:E5; try discriminate.
    - assert (it4 = it5) by congruence. subst it5.
      assert (x4 = Some a5) by congruence. subst x4.
      apply bind_Matched in E5. destruct E5 as (st6 & a6 & it6 & E6 & E7).
      unfold omit in E6. apply bind_Matched in E6.
      destruct E6 as (st7 & a7 & it7 & E8 & E9).
      unfold ret in E9. assert (it6 = it7) by congruence. subst it7.
      destruct st7.
      destruct (@lit_char_step _ _ _ _ _ _ I3 E8) as (I6 & Q & B).
      pose proof E7 as A7. apply raw_Matched in A7. destruct A7 as [-> _].
      assert (L7 : iter_le it6 it4).
      { eapply advancing_raw; [|exact E7].
        apply advancing_kleene, consuming_advancing, consuming_char_parser. }
      pose proof (iter_le_pos L7) as P7.
      split; [apply (iter_in_le I6 L7)|]. split; [lia|].
      right. cbn [span_of span_begin span_end].
      split; [|lia].
      rewrite <- (@span_bytes_app buf (pos it3) (pos it6) (pos it4))
        by lia.
      rewrite B. reflexivity.
    - assert (it4 = it3) by congruence. subst it4.
      assert (x4 = None) by congruence. subst x4.
      split; [exact I3|]. split; [lia|]. left.
      split; [apply span_bytes_empty | reflexivity]. }
  destruct S4 as (I4 & P4 & B4).
  exists (span_bytes buf (span (pos it1) (pos it2))),
         (span_bytes buf (span (pos it3) (pos it4))).
  split.
  { rewrite (@span_bytes_app buf (pos it2) (pos it3) (pos it4)) by lia.
    rewrite (@span_bytes_app buf (pos it1) (pos it2) (pos it4)) by lia.
    rewrite (@span_bytes_app buf (pos it) (pos it1) (pos it4)) by lia.
    reflexivity. }
  split; [exact B2|].
  split.
  { destruct B4 as [[B4 X4] | (B4 & X4 & Y4)]; [left; auto|].
    right. cbn [span_begin span_end]. split; [exact B4|].
    destruct x4 as [s4|]; cbn [span_of span_begin span_end] in *.
    - assert (Q : span_end s4 = pos it4).
      { unfold optional in E4.
        destruct ((omit (ParsePath.extsep esep) >> raw (kleene char_)) tt it3)
          as [st5 a5 it5|st5| |] eqn:E5; try discriminate.
        assert (it4 = it5) by congruence. subst it5.
        assert (s4 = a5) by congruence. subst a5.
        apply bind_Matched in E5. destruct E5 as (st6 & a6 & it6 & _ & E7).
        apply raw_Matched in E7. destruct E7 as [-> _]. reflexivity. }
      rewrite Q. split; [reflexivity | lia].
    - exfalso. unfold span_default in X4. cbn [span_begin] in X4. lia. }
  cbn [span_begin span_end]. split; [reflexivity|]. split; [lia | exact I4].
Qed.

End PathShape.

(** X15.  What [parse_path] consumed is what its result spells: the directory,
    one directory separator or none, the base, and, when there is an
    extension, one extension separator and the extension; [file] is the
    base alone when the extension is empty and the base, the separator and
    the extension otherwise. *)
Theorem parse_path_spells_consumed (buf : buffer) (input : span_t)
    (dsep esep : ascii) (R : Path.parse_path_result_t) (input' : span_t) :
  span_wf buf input ->
  parse_path buf input dsep esep = (Returned R, input') ->
  path_shape buf R (span_bytes buf (consumed_region input input'))
  /\ Path.directory_separator R = dsep
  /\ Path.extension_separator R = esep
  /\ span_begin (Path.directory R) = span_begin input.
Proof.
  intros Hwf E. unfold parse_path in E.
  destruct (parse_direct "path" buf input (ParsePath.grammar dsep esep))
    as [[[[d b] x]|e| |] i1] eqn:P; try discriminate.
  assert (ER : R = Path.mk d
                 (if span_empty x then b
                  else span (span_begin b) (span_end x)) b x dsep esep)
    by congruence.
  assert (Ei : input' = i1) by congruence. subst R input'. clear E.
  apply parse_direct_Returned in P. destruct P as (it' & P & ->).
  unfold Qi.parse in P.
  destruct (@path_grammar_shape buf (span_end input) dsep esep _ _ d b x
              (iter_in_start Hwf) P)
    as (sep & ext & C & S & X & D & B & _).
  cbn [pos] in C, D.
  split; [|split; [reflexivity|split; [reflexivity | exact D]]].
  exists sep, ext. unfold consumed_region.
  cbn [Path.directory Path.base Path.extension Path.file
       Path.directory_separator Path.extension_separator
       span_begin span_end].
  split; [exact C|]. split; [exact S|].
  split; [destruct X as [X | (X & _)]; [left | right]; exact X|].
  destruct (span_empty x) eqn:EX; [rewrite app_nil_r; reflexivity|].
  destruct X as [[_ ->] | (_ & -> & B1)]; [discriminate EX|].
  cbn [Path.file]. symmetry. apply span_bytes_app; [exact B | exact B1].
Qed.

Lemma parse_path_spells_consumed_witness :
  path_shape archive_path
    (Path.mk (span 0 4) (span 5 19) (span 5 16) (span 17 19) "/" ".")
    (span_bytes archive_path
       (consumed_region (whole archive_path) (span 19 19)))
  /\ "/"%char = "/"%char /\ "."%char = "."%char /\ 0 = 0.
Proof.
  exact (@parse_path_spells_consumed archive_path (whole archive_path)
           "/" "." _ _ (whole_wf archive_path) eq_refl).
Defined.

(* ================================================================== *)
(** ** The header block: spans and lines *)

Lemma parse_headers_entries (buf : buffer) (input : span_t)
    (R : parse_headers_result_t) (input' : span_t) :
  span_wf buf input ->
  parse_headers buf input = (Returned R, input') ->
  entries_ok buf R.
Proof.
  intros Hwf E. apply parse_indirect_Returned in E.
  destruct E as (a & it' & E & _). unfold Qi.parse in E.
  assert (H0 : entries_ok buf ParseHeaders.R0) by constructor.
  pose proof (@grammar_spans buf (span_end input) _ _ H0
                (iter_in_start Hwf)) as T.
  rewrite E in T. tauto.
Qed.

(** X16.  In a header block that [parse_headers] returns, every key is made of
    7-bit bytes other than space, tab, colon, CR and LF and has a colon
    right after it in the buffer, and every value is a non-empty span
    without CR and LF. *)
Theorem parse_headers_spans (buf : buffer) (input : span_t)
    (R : parse_headers_result_t) (input' : span_t) :
  span_wf buf input ->
  parse_headers buf input = (Returned R, input') ->
  entries_ok buf R.
Proof. intros Hwf E. exact (@parse_headers_entries _ _ _ _ Hwf E). Qed.

Lemma parse_headers_spans_witness :
  exists R input',
    parse_headers folded_headers (whole folded_headers) = (Returned R, input')
    /\ entries_ok folded_headers R.
Proof.
  eexists. eexists. split; [vm_compute; reflexivity|].
  eapply (@parse_headers_spans folded_headers (whole folded_headers));
    [apply whole_wf | vm_compute; reflexivity].
Defined.

(** X17.  [parse_headers] stops at the start of a line: when it returns, the
    input that is left is empty or the byte before it is a CR or a LF. *)
Theorem parse_headers_ends_line (buf : buffer) (input : span_t)
    (R : parse_headers_result_t) (input' : span_t) :
  span_wf buf input ->
  parse_headers buf input = (Returned R, input') ->
  at_line_start buf (span_begin input') (span_bytes buf input').
Proof.
  intros Hwf E. apply parse_indirect_Returned in E.
  destruct E as (a & it' & E & ->). unfold Qi.parse in E.
  destruct (@grammar_ends_line buf (span_end input) _ _ _ _ _
              (iter_in_start Hwf) E) as [I S].
  cbn [span_begin span_end]. destruct I as (_ & _ & Rr). rewrite <- Rr.
  exact S.
Qed.

Lemma parse_headers_ends_line_witness :
  at_line_start valueless_second_header 6
    (span_bytes valueless_second_header (span 6 10)).
Proof.
  eapply (@parse_headers_ends_line valueless_second_header
            (whole valueless_second_header) _ (span 6 10));
    [apply whole_wf | vm_compute; reflexivity].
Defined.

(* ================================================================== *)
(** ** What a URI is made of *)

Lemma parse_uri_facts (buf : buffer) (input : span_t)
    (R : Uri.parse_uri_result_t) (input' : span_t) :
  span_wf buf input ->
  parse_uri buf input = (Returned R, input') ->
  uri_shape buf R (span_bytes buf (consumed_region input input'))
  /\ all_bytes (inside uri_scheme_set) buf (Uri.scheme R)
  /\ all_bytes (outside uri_authority_set) buf (Uri.authority R)
  /\ all_bytes (outside uri_path_set) buf (Uri.path R)
  /\ all_bytes (outside uri_query_set) buf (Uri.query R)
  /\ all_bytes (outside uri_fragment_set) buf (Uri.fragment R)
  /\ at_line_start buf (span_begin input') (span_bytes buf input').
Proof.
  intros Hwf E. unfold parse_uri in E.
  destruct (Qi.parse buf (span_begin input) (span_end input)
              ParseUri.grammar tt) as [st1 R1 it1| | |] eqn:P;
    try discriminate.
  assert (R = R1) by congruence.
  assert (input' = span (pos it1) (span_end input)) by congruence.
  subst R1 input'. clear E. unfold Qi.parse in P.
  destruct (@uri_grammar_shape buf (span_end input) _ _ _ _ _
              (iter_in_start Hwf) P)
    as (S & A1 & A2 & A3 & A4 & A5 & I & L).
  repeat (split; [assumption|]).
  cbn [span_begin span_end]. destruct I as (_ & _ & Rr). rewrite <- Rr.
  exact L.
Qed.

(** X18.  What [parse_uri] consumed is what its result spells: the scheme and a
    colon when a scheme matched, [//] and the authority, the path, [?] and
    the query, [#] and the fragment, then the line end when there is one.
    An authority, a query or a fragment that is not there is left
    value-initialised. *)
Theorem parse_uri_spells_consumed (buf : buffer) (input : span_t)
    (R : Uri.parse_uri_result_t) (input' : span_t) :
  span_wf buf input ->
  parse_uri buf input = (Returned R, input') ->
  uri_shape buf R (span_bytes buf (consumed_region input input')).
Proof. intros Hwf E. apply (@parse_uri_facts _ _ _ _ Hwf E). Qed.

Lemma parse_uri_spells_consumed_witness :
  exists R input',
    parse_uri plain_uri (whole plain_uri) = (Returned R, input')
    /\ uri_shape plain_uri R
         (span_bytes plain_uri (consumed_region (whole plain_uri) input')).
Proof.
  eexists. eexists. split; [vm_compute; reflexivity|].
  eapply (@parse_uri_spells_consumed plain_uri (whole plain_uri));
    [apply whole_wf | vm_compute; reflexivity].
Defined.

(** X19.  The bytes of the fields of a parsed URI: the scheme holds letters,
    digits, [+], [-] and [.] only; no field holds a CR, a LF or a byte
    above 127; the authority holds no [/], [?], [#], space or tab, the path
    no [?], [#], space or tab, the query no [#] or space, the fragment no
    space.  [parse_uri] returns only at the end of the input or after a
    line end. *)
Theorem parse_uri_fields_and_stop (buf : buffer) (input : span_t)
    (R : Uri.parse_uri_result_t) (input' : span_t) :
  span_wf buf input ->
  parse_uri buf input = (Returned R, input') ->
  all_bytes (inside uri_scheme_set) buf (Uri.scheme R)
  /\ all_bytes (outside uri_authority_set) buf (Uri.authority R)
  /\ all_bytes (outside uri_path_set) buf (Uri.path R)
  /\ all_bytes (outside uri_query_set) buf (Uri.query R)
  /\ all_bytes (outside uri_fragment_set) buf (Uri.fragment R)
  /\ at_line_start buf (span_begin input') (span_bytes buf input').
Proof. intros Hwf E. apply (@parse_uri_facts _ _ _ _ Hwf E). Qed.

Lemma parse_uri_fields_and_stop_witness :
  exists R input',
    parse_uri plain_uri (whole plain_uri) = (Returned R, input')
    /\ all_bytes (inside uri_scheme_set) plain_uri (Uri.scheme R)
    /\ all_bytes (outside uri_authority_set) plain_uri (Uri.authority R)
    /\ all_bytes (outside uri_path_set) plain_uri (Uri.path R)
    /\ all_bytes (outside uri_query_set) plain_uri (Uri.query R)
    /\ all_bytes (outside uri_fragment_set) plain_uri (Uri.fragment R)
    /\ at_line_start plain_uri (span_begin input')
         (span_bytes plain_uri input').
Proof.
  eexists. eexists. split; [vm_compute; reflexivity|].
  eapply (@parse_uri_fields_and_stop plain_uri (whole plain_uri));
    [apply whole_wf | vm_compute; reflexivity].
Defined.

(* ================================================================== *)
(** ** Rendering parsed results *)

(** X20.  The rendering of a parsed request line tells its fields apart: two
    request lines that [parse_request_line] returned, from any two buffers,
    written to the same stream, give the same output only if [method],
    [uri] and [version] hold the same bytes in both. *)
Theorem put_request_line_injective (buf1 buf2 : buffer)
    (input1 input2 : span_t)
    (R1 R2 : RequestLine.parse_request_line_result_t)
    (input1' input2' : span_t) (o : ostream) :
  span_wf buf1 input1 -> span_wf buf2 input2 ->
  parse_request_line buf1 input1 = (Returned R1, input1') ->
  parse_request_line buf2 input2 = (Returned R2, input2') ->
  put_request_line buf1 o R1 = put_request_line buf2 o R2 ->
  span_bytes buf1 (RequestLine.method R1)
  = span_bytes buf2 (RequestLine.method R2)
  /\ span_bytes buf1 (RequestLine.uri R1)
     = span_bytes buf2 (RequestLine.uri R2)
  /\ span_bytes buf1 (RequestLine.version R1)
     = span_bytes buf2 (RequestLine.version R2).
Proof.
  intros W1 W2 E1 E2 E.
  destruct (@request_line_fields _ _ _ _ W1 E1) as (M1 & U1 & V1 & _).
  destruct (@request_line_fields _ _ _ _ W2 E2) as (M2 & U2 & V2 & _).
  rewrite !put_request_line_lines in E. apply app_inv_head in E.
  apply (@field_lines_injective ["method="; "uri="; "version="]%string
           [_; _; _] [_; _; _] eq_refl eq_refl) in E.
  - repeat split; congruence.
  - repeat constructor;
      (eapply all_bytes_lf_free; [|eassumption]; reflexivity).
  - repeat constructor;
      (eapply all_bytes_lf_free; [|eassumption]; reflexivity).
Qed.

Lemma put_request_line_injective_witness :
  span_bytes lf_request (span 0 3) = span_bytes crlf_request (span 0 3)
  /\ span_bytes lf_request (span 4 5) = span_bytes crlf_request (span 4 5)
  /\ span_bytes lf_request (span 6 14) = span_bytes crlf_request (span 6 14).
Proof.
  exact (@put_request_line_injective lf_request crlf_request
           (whole lf_request) (whole crlf_request)
           (RequestLine.mk (span 0 3) (span 4 5) (span 6 14))
           (RequestLine.mk (span 0 3) (span 4 5) (span 6 14))
           (span 15 20) (span 16 22) []
           (whole_wf lf_request) (whole_wf crlf_request)
           eq_refl eq_refl eq_refl).
Defined.

(** X21.  The rendering of a parsed response line tells its fields apart: two
    response lines that [parse_response_line] returned, written to the same
    stream, give the same output only if [version], [status] and [message]
    hold the same bytes in both. *)
Theorem put_response_line_injective (buf1 buf2 : buffer)
    (input1 input2 : span_t)
    (R1 R2 : ResponseLine.parse_response_line_result_t)
    (input1' input2' : span_t) (o : ostream) :
  span_wf buf1 input1 -> span_wf buf2 input2 ->
  parse_response_line buf1 input1 = (Returned R1, input1') ->
  parse_response_line buf2 input2 = (Returned R2, input2') ->
  put_response_line buf1 o R1 = put_response_line buf2 o R2 ->
  span_bytes buf1 (ResponseLine.version R1)
  = span_bytes buf2 (ResponseLine.version R2)
  /\ span_bytes buf1 (ResponseLine.status R1)
     = span_bytes buf2 (ResponseLine.status R2)
  /\ span_bytes buf1 (ResponseLine.message R1)
     = span_bytes buf2 (ResponseLine.message R2).
Proof.
  intros W1 W2 E1 E2 E.
  destruct (@response_line_fields _ _ _ _ W1 E1) as (V1 & S1 & M1 & _).
  destruct (@response_line_fields _ _ _ _ W2 E2) as (V2 & S2 & M2 & _).
  rewrite !put_response_line_lines in E. apply app_inv_head in E.
  apply (@field_lines_injective ["version="; "status="; "message="]%string
           [_; _; _] [_; _; _] eq_refl eq_refl) in E.
  - repeat split; congruence.
  - repeat constructor;
      (eapply all_bytes_lf_free; [|eassumption]; reflexivity).
  - repeat constructor;
      (eapply all_bytes_lf_free; [|eassumption]; reflexivity).
Qed.

Lemma put_response_line_injective_witness :
  span_bytes crlf_response (span 0 8)
  = span_bytes response_without_headers (span 0 8)
  /\ span_bytes crlf_response (span 9 12)
     = span_bytes response_without_headers (span 9 12)
  /\ span_bytes crlf_response (span 13 15)
     = span_bytes response_without_headers (span 13 15).
Proof.
  exact (@put_response_line_injective crlf_response response_without_headers
           (whole crlf_response) (whole response_without_headers)
           (ResponseLine.mk (span 0 8) (span 9 12) (span 13 15))
           (ResponseLine.mk (span 0 8) (span 9 12) (span 13 15))
           (span 17 23) (span 16 16) []
           (whole_wf crlf_response) (whole_wf response_without_headers)
           eq_refl eq_refl eq_refl).
Defined.

(** X22.  The rendering of a parsed URI tells its fields apart: two results of
    [parse_uri], written to the same stream, give the same output only if
    [scheme], [authority], [path], [query] and [fragment] hold the same
    bytes in both. *)
Theorem put_uri_injective (buf1 buf2 : buffer) (input1 input2 : span_t)
    (R1 R2 : Uri.parse_uri_result_t) (input1' input2' : span_t)
    (o : ostream) :
  span_wf buf1 input1 -> span_wf buf2 input2 ->
  parse_uri buf1 input1 = (Returned R1, input1') ->
  parse_uri buf2 input2 = (Returned R2, input2') ->
  put_uri buf1 o R1 = put_uri buf2 o R2 ->
  span_bytes buf1 (Uri.scheme R1) = span_bytes buf2 (Uri.scheme R2)
  /\ span_bytes buf1 (Uri.authority R1) = span_bytes buf2 (Uri.authority R2)
  /\ span_bytes buf1 (Uri.path R1) = span_bytes buf2 (Uri.path R2)
  /\ span_bytes buf1 (Uri.query R1) = span_bytes buf2 (Uri.query R2)
  /\ span_bytes buf1 (Uri.fragment R1) = span_bytes buf2 (Uri.fragment R2).
Proof.
  intros W1 W2 E1 E2 E.
  destruct (@parse_uri_facts _ _ _ _ W1 E1)
    as (_ & S1 & A1 & P1 & Q1 & F1 & _).
  destruct (@parse_uri_facts _ _ _ _ W2 E2)
    as (_ & S2 & A2 & P2 & Q2 & F2 & _).
  rewrite !put_uri_lines in E. apply app_inv_head in E.
  apply (@field_lines_injective
           ["scheme="; "authority="; "path="; "query="; "fragment="]%string
           [_; _; _; _; _] [_; _; _; _; _] eq_refl eq_refl) in E.
  - repeat split; congruence.
  - repeat constructor;
      (eapply all_bytes_lf_free; [|eassumption]; reflexivity).
  - repeat constructor;
      (eapply all_bytes_lf_free; [|eassumption]; reflexivity).
Qed.

(** X23.  The rendering of a parsed authority tells its fields apart: two
    results of [parse_authority], written to the same stream, give the same
    output only if [username], [password], [host] and [port] hold the same
    bytes in both. *)
Theorem put_authority_injective (buf1 buf2 : buffer)
    (input1 input2 : span_t) (R1 R2 : Authority.parse_authority_result_t)
    (input1' input2' : span_t) (o : ostream) :
  span_wf buf1 input1 -> span_wf buf2 input2 ->
  parse_authority buf1 input1 = (Returned R1, input1') ->
  parse_authority buf2 input2 = (Returned R2, input2') ->
  put_authority buf1 o R1 = put_authority buf2 o R2 ->
  span_bytes buf1 (Authority.username R1)
  = span_bytes buf2 (Authority.username R2)
  /\ span_bytes buf1 (Authority.password R1)
     = span_bytes buf2 (Authority.password R2)
  /\ span_bytes buf1 (Authority.host R1) = span_bytes buf2 (Authority.host R2)
  /\ span_bytes buf1 (Authority.port R1)
     = span_bytes buf2 (Authority.port R2).
Proof.
  intros W1 W2 E1 E2 E.
  destruct (@parse_authority_facts _ _ _ _ W1 E1)
    as (_ & U1 & P1 & H1 & T1 & _).
  destruct (@parse_authority_facts _ _ _ _ W2 E2)
    as (_ & U2 & P2 & H2 & T2 & _).
  rewrite !put_authority_lines in E. apply app_inv_head in E.
  apply (@field_lines_injective
           ["username="; "password="; "host="; "port="]%string
           [_; _; _; _] [_; _; _; _] eq_refl eq_refl) in E.
  - repeat split; congruence.
  - repeat constructor;
      (eapply all_bytes_lf_free; [|eassumption]; reflexivity).
  - repeat constructor;
      (eapply all_bytes_lf_free; [|eassumption]; reflexivity).
Qed.

(** X24.  The rendering of a parsed header block has one line for each entry and
    one more for [terminated]: no key and no value of a block that
    [parse_headers] returned holds a LF. *)
Theorem put_headers_line_count (buf : buffer) (input : span_t)
    (R : parse_headers_result_t) (input' : span_t) (o : ostream) :
  span_wf buf input ->
  parse_headers buf input = (Returned R, input') ->
  line_count (put_headers buf o R)
  = line_count o + length (headers R) + 1.
Proof.
  intros Hwf E. apply put_headers_count.
  exact (@parse_headers_entries _ _ _ _ Hwf E).
Qed.

Lemma put_headers_line_count_witness :
  exists R input',
    parse_headers folded_headers (whole folded_headers) = (Returned R, input')
    /\ line_count (put_headers folded_headers [] R)
       = line_count [] + length (headers R) + 1.
Proof.
  eexists. eexists. split; [vm_compute; reflexivity|].
  eapply (@put_headers_line_count folded_headers (whole folded_headers));
    [apply whole_wf | vm_compute; reflexivity].
Defined.

Lemma put_uri_injective_witness :
  exists R1 R2 input1' input2',
    parse_uri plain_uri (whole plain_uri) = (Returned R1, input1')
    /\ parse_uri plain_uri_line (whole plain_uri_line)
       = (Returned R2, input2')
    /\ span_bytes plain_uri (Uri.scheme R1)
       = span_bytes plain_uri_line (Uri.scheme R2)
    /\ span_bytes plain_uri (Uri.authority R1)
       = span_bytes plain_uri_line (Uri.authority R2)
    /\ span_bytes plain_uri (Uri.path R1)
       = span_bytes plain_uri_line (Uri.path R2)
    /\ span_bytes plain_uri (Uri.query R1)
       = span_bytes plain_uri_line (Uri.query R2)
    /\ span_bytes plain_uri (Uri.fragment R1)
       = span_bytes plain_uri_line (Uri.fragment R2).
Proof.
  eexists. eexists. eexists. eexists.
  split; [vm_compute; reflexivity|]. split; [vm_compute; reflexivity|].
  eapply (@put_uri_injective plain_uri plain_uri_line (whole plain_uri)
            (whole plain_uri_line) _ _ _ _ []);
    [apply whole_wf | apply whole_wf | vm_compute; reflexivity
    | vm_compute; reflexivity | vm_compute; reflexivity].
Defined.

Lemma put_authority_injective_witness :
  exists R1 R2 input1' input2',
    parse_authority full_authority (whole full_authority)
    = (Returned R1, input1')
    /\ parse_authority authority_then_space (whole authority_then_space)
       = (Returned R2, input2')
    /\ span_bytes full_authority (Authority.username R1)
       = span_bytes authority_then_space (Authority.username R2)
    /\ span_bytes full_authority (Authority.password R1)
       = span_bytes authority_then_space (Authority.password R2)
    /\ span_bytes full_authority (Authority.host R1)
       = span_bytes authority_then_space (Authority.host R2)
    /\ span_bytes full_authority (Authority.port R1)
       = span_bytes authority_then_space (Authority.port R2).
Proof.
  eexists. eexists. eexists. eexists.
  split; [vm_compute; reflexivity|]. split; [vm_compute; reflexivity|].
  eapply (@put_authority_injective full_authority authority_then_space
            (whole full_authority) (whole authority_then_space) _ _ _ _ []);
    [apply whole_wf | apply whole_wf | vm_compute; reflexivity
    | vm_compute; reflexivity | vm_compute; reflexivity].
Defined.

Lemma parse_headers_valued_but_last_witness :
  exists R input',
    parse_headers valueless_second_header (whole valueless_second_header)
    = (Returned R, input')
    /\ valued_but_last R.
Proof.
  eexists. eexists. split; [vm_compute; reflexivity|].
  eapply (@parse_headers_valued_but_last valueless_second_header
            (whole valueless_second_header)).
  vm_compute. reflexivity.
Defined.

Lemma parse_headers_leading_blank_never_returns_witness :
  ~ (exists R input',
       parse_headers leading_continuation (whole leading_continuation)
       = (Returned R, input')).
Proof.
  intros (R & input' & E).
  exact (@parse_headers_leading_blank_never_returns leading_continuation
           (whole leading_continuation) " "%char _ eq_refl
           (or_introl eq_refl) R input' E).
Defined.

(* ================================================================== *)
(** ** The raw first line and the header block *)

(** A request line that parses ends a line: nothing is left of the input,
    or the last byte consumed is a CR or a LF. *)
Lemma request_line_ends_line (buf : buffer) (input : span_t)
    (R : RequestLine.parse_request_line_result_t) (input1 : span_t) :
  span_wf buf input ->
  parse_request_line buf input = (Returned R, input1) ->
  at_line_start buf (span_begin input1) (span_bytes buf input1).
Proof.
  intros Hwf E. apply parse_direct_Returned in E.
  destruct E as (it' & E & ->). unfold Qi.parse in E.
  apply request_line_Matched in E. cbv zeta in E.
  destruct E as (it6 & _ & _ & _ & _ & _ & V & E7).
  pose proof (iter_in_start Hwf) as I0.
  set (it0 := mk_iter (span_begin input)
                (span_bytes buf (span (span_begin input) (span_end input))))
    in *.
  pose proof (proj1 (iter_in_skip blank I0)) as I1.
  pose proof (proj1 (iter_in_skip word_byte I1)) as I2.
  pose proof (proj1 (iter_in_skip blank I2)) as I3.
  pose proof (proj1 (iter_in_skip word_byte I3)) as I4.
  pose proof (proj1 (iter_in_skip blank I4)) as I5.
  assert (I6 : iter_in buf (span_end input) it6).
  { destruct V as [[_ ->] | (_ & -> & _)];
      [exact I5 | exact (proj1 (iter_in_skip word_byte I5))]. }
  destruct (@line_end_consumed _ buf (span_end input) _ _ _ _ _ I6 E7)
    as (I' & _ & _ & L).
  cbn [span_begin span_end]. destruct I' as (_ & _ & Rr). rewrite <- Rr.
  exact L.
Qed.

(** The same for a response line. *)
Lemma response_line_ends_line (buf : buffer) (input : span_t)
    (R : ResponseLine.parse_response_line_result_t) (input1 : span_t) :
  span_wf buf input ->
  parse_response_line buf input = (Returned R, input1) ->
  at_line_start buf (span_begin input1) (span_bytes buf input1).
Proof.
  intros Hwf E. apply parse_direct_Returned in E.
  destruct E as (it' & E & ->). unfold Qi.parse in E.
  apply response_line_Matched in E. cbv zeta in E.
  destruct E as (_ & _ & _ & _ & _ & _ & E7).
  pose proof (iter_in_start Hwf) as I0.
  set (it0 := mk_iter (span_begin input)
                (span_bytes buf (span (span_begin input) (span_end input))))
    in *.
  pose proof (proj1 (iter_in_skip blank I0)) as I1.
  pose proof (proj1 (iter_in_skip word_byte I1)) as I2.
  pose proof (proj1 (iter_in_skip blank I2)) as I3.
  pose proof (proj1 (iter_in_skip word_byte I3)) as I4.
  pose proof (proj1 (iter_in_skip blank I4)) as I5.
  pose proof (proj1 (iter_in_skip line_byte I5)) as I6.
  destruct (@line_end_consumed _ buf (span_end input) _ _ _ _ _ I6 E7)
    as (I' & _ & _ & L).
  cbn [span_begin span_end]. destruct I' as (_ & _ & Rr). rewrite <- Rr.
  exact L.
Qed.

(** The raw line stops one byte before the header block; when the line
    parse ended a line and the header block is not empty, that byte is a
    CR or a LF. *)
Lemma reassembles_positions (buf : buffer) (b p1 p2 e : nat) :
  b < p1 -> p1 < p2 -> p2 <= e -> e <= length buf ->
  at_line_start buf p1 (span_bytes buf (span p1 e)) ->
  reassembles buf (span b e) (span b (p1 - 1)) (span p1 e) (span p2 e).
Proof.
  intros H1 H2 H3 H4 L. unfold reassembles, consumed_region.
  cbn [span_begin span_end].
  destruct (@span_bytes_one buf (p1 - 1)) as (c & Hc & Hone); [lia|].
  replace (S (p1 - 1)) with p1 in Hone by lia.
  assert (C : c = CR \/ c = LF).
  { destruct L as [L | (c' & _ & N & C)].
    - apply (f_equal (@length ascii)) in L.
      rewrite span_bytes_length in L
        by (unfold span_wf; cbn [span_begin span_end]; lia).
      cbn [span_begin span_end length] in L. lia.
    - rewrite Hc in N. inversion N; subst. exact C. }
  exists [c]. split; [discriminate|].
  split; [constructor; [exact C | constructor]|].
  split; [|split].
  - rewrite <- Hone. apply span_bytes_app; lia.
  - rewrite <- Hone, app_assoc.
    rewrite (@span_bytes_app buf b (p1 - 1) p1) by lia.
    apply span_bytes_app; lia.
  - exists (span_bytes buf (span p2 e)). apply span_bytes_app; lia.
Qed.

Lemma line_then_headers_reassemble (buf : buffer)
    (input input1 input' : span_t) :
  span_wf buf input ->
  span_end input1 = span_end input ->
  span_begin input < span_begin input1 <= span_end input ->
  span_end input' = span_end input1 ->
  span_begin input1 < span_begin input' <= span_end input1 ->
  at_line_start buf (span_begin input1) (span_bytes buf input1) ->
  reassembles buf input (span (span_begin input) (span_begin input1 - 1))
    input1 input'.
Proof.
  intros [W1 W2] E1 P1 E2 P2 L.
  destruct input as [b e], input1 as [p1 e1], input' as [p2 e2].
  cbn [span_begin span_end] in *. subst e1 e2.
  apply reassembles_positions; try lia. exact L.
Qed.

(** C4, amended.  For a request or a response that parses, the raw first
    line, then the bytes between its end and the header block, then the
    region the header block consumed, are byte for byte what the composite
    consumed, and that is a prefix of the input.  The bytes in between are
    at least one, are CR and LF bytes only, and end what the line parse
    consumed. *)
Theorem raw_line_byte_and_headers_reassemble
    (buf : buffer) (input : span_t) (Hwf : span_wf buf input) :
  (forall R input',
     parse_request buf input = (Returned R, input') ->
     exists input1,
       parse_request_line buf input
       = (Returned (Request.request_line R), input1)
       /\ parse_headers buf input1 = (Returned (Request.headers R), input')
       /\ reassembles buf input (Request.raw_request_line R) input1 input')
  /\ (forall R input',
     parse_response buf input = (Returned R, input') ->
     exists input1,
       parse_response_line buf input
       = (Returned (Response.response_line R), input1)
       /\ parse_headers buf input1 = (Returned (Response.headers R), input')
       /\ reassembles buf input (Response.raw_response_line R) input1 input').
Proof.
  split; intros R input' E.
  - apply parse_request_Returned in E. destruct E as (input1 & EL & Eraw & EH).
    exists input1. split; [exact EL|]. split; [exact EH|]. rewrite Eraw.
    destruct (@parse_direct_position _ _ buf input _ _ _ Hwf
                request_line_consuming EL) as [E1 P1].
    assert (Hwf1 : span_wf buf input1)
      by (destruct Hwf; unfold span_wf; lia).
    destruct (@parse_headers_position buf input1 _ _ Hwf1 EH) as [E2 P2].
    apply line_then_headers_reassemble; try assumption.
    exact (@request_line_ends_line _ _ _ _ Hwf EL).
  - apply parse_response_Returned in E. destruct E as (input1 & EL & Eraw & EH).
    exists input1. split; [exact EL|]. split; [exact EH|]. rewrite Eraw.
    destruct (@parse_direct_position _ _ buf input _ _ _ Hwf
                response_line_consuming EL) as [E1 P1].
    assert (Hwf1 : span_wf buf input1)
      by (destruct Hwf; unfold span_wf; lia).
    destruct (@parse_headers_position buf input1 _ _ Hwf1 EH) as [E2 P2].
    apply line_then_headers_reassemble; try assumption.
    exact (@response_line_ends_line _ _ _ _ Hwf EL).
Qed.

Lemma raw_line_byte_and_headers_reassemble_witness :
  exists R input1 input',
    parse_request crlf_request (whole crlf_request) = (Returned R, input')
    /\ reassembles crlf_request (whole crlf_request)
         (Request.raw_request_line R) input1 input'.
Proof.
  destruct (@raw_line_byte_and_headers_reassemble crlf_request
              (whole crlf_request) (whole_wf crlf_request)) as [Hreq _].
  destruct (Hreq _ _ (eq_refl : parse_request crlf_request
                                  (whole crlf_request)
                          = (Returned _, _)))
    as (input1 & _ & _ & H).
  eexists. exists input1. eexists. split; [vm_compute; reflexivity | exact H].
Defined.

(* ================================================================== *)
(** ** The user name and the password of an authority *)

Section PasswordFacts.
Import Authority ParseAuthority.

(** The optional port leaves the user name and the password alone. *)
Lemma port_part_keeps_userinfo (st st' : St) (u : unit) (it it' : iter) :
  (optional (omit (lit ":") >> action word set_port) >> ret tt) st it
  = Matched st' u it' ->
  username st' = username st /\ password st' = password st.
Proof.
  rewrite port_part_eq. intros E.
  destruct (rest it) as [|c tl]; [|destruct (Ascii.eqb c ":")];
    inversion E; subst; split; reflexivity.
Qed.

(** The user name the first alternative stores is the word it starts
    with. *)
Lemma userinfo_branch_word (st : St) (u : unit) (it it' : iter) :
  userinfo_branch R0 it = Matched st u it' ->
  username st = span (pos it) (pos (skip authority_byte it)).
Proof.
  rewrite userinfo_branch_eq. cbv zeta. intros E.
  destruct (rest (skip authority_byte it)) as [|c1 tl1] eqn:R1;
    [|destruct (Ascii.eqb c1 ":") eqn:C1]; cbn [fst snd] in E.
  - rewrite R1 in E. discriminate E.
  - destruct (rest (skip authority_byte (advance (skip authority_byte it))))
      as [|c2 tl2]; [discriminate E|].
    destruct (Ascii.eqb c2 "@"); [|discriminate E].
    inversion E; subst. reflexivity.
  - rewrite R1 in E. destruct (Ascii.eqb c1 "@"); [|discriminate E].
    inversion E; subst. reflexivity.
Qed.

(** When the first alternative does not match, the result has no
    password. *)
Lemma host_branch_no_password (st st' : St) (u : unit) (it it' : iter) :
  host_branch st it = Matched st' u it' -> password st' = span_default.
Proof.
  rewrite host_branch_eq. intros E. inversion E; subst. reflexivity.
Qed.

(** The span of the word an input starts with, and its bytes. *)
Lemma leading_word_bytes (buf : buffer) (test : ascii -> bool)
    (input : span_t) :
  let n := length (take_while test (span_bytes buf input)) in
  span_bytes buf (span (span_begin input) (span_begin input + n))
  = take_while test (span_bytes buf input).
Proof.
  cbv zeta. destruct input as [b e]. unfold span_bytes.
  cbn [span_begin span_end].
  set (l := firstn (e - b) (skipn b buf)).
  replace (b + length (take_while test l) - b)
    with (length (take_while test l)) by lia.
  rewrite <- (take_while_firstn test l) at 2.
  unfold l. rewrite firstn_firstn. f_equal.
  assert (length (take_while test l) <= length l).
  { pose proof (take_while_length test l). lia. }
  assert (length l <= e - b) by (unfold l; rewrite length_firstn; lia).
  fold l. lia.
Qed.

(** What a result with a password was parsed from. *)
Lemma password_facts (buf : buffer) (input : span_t)
    (R : parse_authority_result_t) (input' : span_t) :
  parse_authority buf input = (Returned R, input') ->
  span_empty (password R) = false ->
  matches (Qi.parse buf (span_begin input) (span_end input)
             userinfo_branch R0) = true
  /\ username R
     = span (span_begin input)
         (span_begin input
          + length (take_while authority_byte (span_bytes buf input))).
Proof.
  intros E Hp. apply parse_indirect_Returned in E.
  destruct E as (a & it' & E & _). unfold Qi.parse in *.
  assert (Hr : span_bytes buf (span (span_begin input) (span_end input))
               = span_bytes buf input) by (destruct input; reflexivity).
  set (it0 := mk_iter (span_begin input)
                (span_bytes buf (span (span_begin input) (span_end input))))
    in *.
  unfold grammar in E. unfold bind at 1 in E. unfold alt in E.
  destruct (userinfo_branch R0 it0) as [st1 u1 it1|st1| |] eqn:B;
    try discriminate E.
  - split; [reflexivity|].
    apply userinfo_branch_word in B.
    apply port_part_keeps_userinfo in E. destruct E as [U _].
    rewrite U, B. unfold skip, it0. cbn [pos rest]. rewrite Hr. reflexivity.
  - exfalso.
    destruct (host_branch st1 it0) as [st2 u2 it2|st2| |] eqn:H;
      try discriminate E.
    apply host_branch_no_password in H.
    apply port_part_keeps_userinfo in E. destruct E as [_ P].
    rewrite P, H in Hp. discriminate Hp.
Qed.

End PasswordFacts.

(** C5, amended.  In a result of [parse_authority], [password] is non-empty
    only if the first alternative, the one with [@], matched; [username] is
    then the word that starts the input: the span of the longest run of
    word bytes at the start of the input, with those bytes.  That word may
    be empty. *)
Theorem password_only_from_userinfo_branch
    (buf : buffer) (input : span_t)
    (R : Authority.parse_authority_result_t) (input' : span_t) :
  parse_authority buf input = (Returned R, input') ->
  span_empty (Authority.password R) = false ->
  matches (Qi.parse buf (span_begin input) (span_end input)
             ParseAuthority.userinfo_branch ParseAuthority.R0) = true
  /\ span_begin (Authority.username R) = span_begin input
  /\ Authority.username R
     = span (span_begin input)
         (span_begin input
          + length (take_while authority_byte (span_bytes buf input)))
  /\ span_bytes buf (Authority.username R)
     = take_while authority_byte (span_bytes buf input).
Proof.
  intros E Hp. destruct (@password_facts _ _ _ _ E Hp) as [M U].
  split; [exact M|]. rewrite U. split; [reflexivity|].
  split; [reflexivity|]. apply leading_word_bytes.
Qed.

Lemma password_only_from_userinfo_branch_witness :
  matches (Qi.parse full_authority 0 (length full_authority)
             ParseAuthority.userinfo_branch ParseAuthority.R0) = true
  /\ span_begin (span 0 4) = 0
  /\ span 0 4
     = span 0 (0 + length (take_while authority_byte
                             (span_bytes full_authority
                                (whole full_authority))))
  /\ span_bytes full_authority (span 0 4)
     = take_while authority_byte
         (span_bytes full_authority (whole full_authority)).
Proof.
  exact (@password_only_from_userinfo_branch full_authority
           (whole full_authority)
           (Authority.mk (span 0 4) (span 5 9) (span 10 14) (span 15 17))
           (span 17 17) eq_refl eq_refl).
Defined.
